(** * Bookmark Kanban extension: site checker cache and order reconciliation

    A shallow embedding of the pure logic of the extension:
    - [js/modules/siteChecker.js]: the status cache (two insertion-ordered
      [Map]s), its expiry rules, its size limit and [checkSite];
    - [js/siteChecker.js]: the older, regular-expression [isLocalNetwork];
    - [js/modules/ui/ColumnManager.js]: [renderOrderedBookmarks];
    - [js/modules/ui/KanbanRenderer.js]: [processBookmarkTree] and
      [determineColumnOrder];
    - the background worker: [traverseBookmarks] and [checkAllBookmarks];
    - [js/modules/faviconLoader.js]: [updateIconWithCache];
    - [js/siteChecker.js] and the [SiteChecker] class kept in
      [js/modules/uiManager.js]: the two older checkers;
    - the rendering of the columns ([renderColumn], [renderFolderColumn],
      [renderSpecialColumn], [renderSubfolderGroup],
      [countBookmarksInFolder]) and [js/modules/storageManager.js], which
      reads the orders back off the rendered board;
    - [SiteCheckManager]: the status marks and the dead-link count;
    - [js/modules/utils.js]: [getTagColor].

    JavaScript values are modelled by small inductive types, [Date.now()]
    readings by integers (milliseconds) passed in where the code reads the
    clock, network probes by an environment record, and a call that can
    throw by its outcome, [Returned] or [Thrown]. *)

From Stdlib Require Import ZArith Lia String Ascii.
From stdpp Require Import base tactics option list strings gmap sorting pretty.

Local Open Scope string_scope.
Local Open Scope list_scope.

(** ** JavaScript values that flow through the cache *)

Inductive jsval : Type :=
  | JBool (b : bool)
  | JStr (s : string)
  | JNull
  | JUndefined.

#[global] Instance jsval_eq_dec : EqDecision jsval.
Proof. solve_decision. Defined.

(** ** Insertion-ordered [Map] with string keys

    A JavaScript [Map] iterates its entries in insertion order; [set] on an
    existing key keeps the position of the entry, [delete] removes it. *)

Module JsMap.
Abbreviation t V := (list (string * V)) (only parsing).

Section Ops.
Context {V : Type}.
Abbreviation t := (list (string * V)) (only parsing).

Definition empty : t := [].

Fixpoint get (m : t) (k : string) : option V :=
  match m with
  | [] => None
  | (k', v) :: m' => if decide (k' = k) then Some v else get m' k
  end.

Definition has (m : t) (k : string) : bool :=
  match get m k with Some _ => true | None => false end.

Fixpoint set (m : t) (k : string) (v : V) : t :=
  match m with
  | [] => [(k, v)]
  | (k', v') :: m' =>
      if decide (k' = k) then (k', v) :: m' else (k', v') :: set m' k v
  end.

Fixpoint delete (m : t) (k : string) : t :=
  match m with
  | [] => []
  | (k', v') :: m' =>
      if decide (k' = k) then delete m' k else (k', v') :: delete m' k
  end.

Definition size (m : t) : nat := length m.

Definition keys (m : t) : list string := m.*1.

Definition entries (m : t) : list (string * V) := m.
End Ops.
End JsMap.

(** ** String primitives of the language

    A [string] is a sequence of bytes: the UTF-8 encoding of the string of
    the program. The texts searched for, split at or compared with below
    are ASCII, and an ASCII byte occurs in an encoding only as that
    character, so these operations answer on the bytes as the program's do
    on its UTF-16 code units. *)

Module JsString.

(** [s.startsWith(p)]. *)
Definition startsWith (s p : string) : bool := String.prefix p s.

(** [s.endsWith(p)]. *)
Definition endsWith (s p : string) : bool :=
  let n := String.length s in
  let k := String.length p in
  (k <=? n)%nat && String.eqb (substring (n - k) k s) p.

(** [s.includes(p)]. *)
Fixpoint includes (s p : string) : bool :=
  String.prefix p s ||
  match s with
  | EmptyString => false
  | String _ s' => includes s' p
  end.

(** [s.split(sep)] for a one-character separator. *)
Fixpoint split (sep : ascii) (s : string) : list string :=
  match s with
  | EmptyString => [EmptyString]
  | String c s' =>
      if Ascii.eqb c sep then EmptyString :: split sep s'
      else match split sep s' with
           | [] => [String c EmptyString]
           | p :: ps => String c p :: ps
           end
  end.

Definition is_digit (c : ascii) : bool :=
  (48 <=? N_of_ascii c)%N && (N_of_ascii c <=? 57)%N.

Definition digit_value (c : ascii) : Z := Z.of_N (N_of_ascii c) - 48.

(** The white space that [parseInt] skips: the characters [WhiteSpace]
    and [LineTerminator] of the language, by the length of their UTF-8
    encoding. One byte: U+0009 to U+000D and U+0020. *)
Definition is_space (c : ascii) : bool :=
  let n := N_of_ascii c in
  ((9 <=? n)%N && (n <=? 13)%N) || (n =? 32)%N.

(** Two bytes: U+00A0, the no-break space ([C2 A0]). *)
Definition is_space2 (c1 c2 : ascii) : bool :=
  (N_of_ascii c1 =? 194)%N && (N_of_ascii c2 =? 160)%N.

(** The no-break space as a string. *)
Definition no_break_space : string :=
  String (ascii_of_N 194) (String (ascii_of_N 160) EmptyString).

(** Three bytes: U+1680 ([E1 9A 80]); U+2000 to U+200A, the line and
    paragraph separators U+2028 and U+2029, U+202F ([E2 80 80] to
    [E2 80 8A], [E2 80 A8], [E2 80 A9], [E2 80 AF]); U+205F ([E2 81 9F]);
    U+3000 ([E3 80 80]); U+FEFF ([EF BB BF]). *)
Definition is_space3 (c1 c2 c3 : ascii) : bool :=
  let n1 := N_of_ascii c1 in
  let n2 := N_of_ascii c2 in
  let n3 := N_of_ascii c3 in
  ((n1 =? 225) && (n2 =? 154) && (n3 =? 128))%N
  || ((n1 =? 226) && (n2 =? 128)
      && (((128 <=? n3) && (n3 <=? 138)) || (n3 =? 168) || (n3 =? 169) || (n3 =? 175)))%N
  || ((n1 =? 226) && (n2 =? 129) && (n3 =? 159))%N
  || ((n1 =? 227) && (n2 =? 128) && (n3 =? 128))%N
  || ((n1 =? 239) && (n2 =? 187) && (n3 =? 191))%N.

Fixpoint skip_spaces (s : string) : string :=
  match s with
  | String c1 s1 =>
      if is_space c1 then skip_spaces s1
      else
        match s1 with
        | String c2 s2 =>
            if is_space2 c1 c2 then skip_spaces s2
            else
              match s2 with
              | String c3 s3 => if is_space3 c1 c2 c3 then skip_spaces s3 else s
              | EmptyString => s
              end
        | EmptyString => s
        end
  | EmptyString => EmptyString
  end.

(** The digits read so far: [None] until the first digit is seen. *)
Fixpoint read_digits (s : string) (acc : option Z) : option Z :=
  match s with
  | String c s' =>
      if is_digit c
      then read_digits s' (Some (10 * default 0%Z acc + digit_value c)%Z)
      else acc
  | EmptyString => acc
  end.

(** [parseInt(s, 10)]; [None] is [NaN]. *)
Definition parseInt (s : string) : option Z :=
  match skip_spaces s with
  | String "-" s' => Z.opp <$> read_digits s' None
  | String "+" s' => read_digits s' None
  | s' => read_digits s' None
  end.

End JsString.

(** ** Array primitives *)

Module JsArray.
Section Sort.
Context {A : Type} (key : A -> Z).

(** [a.sort((x, y) => key(x) - key(y))]. [Array.prototype.sort] is
    stable: elements with equal keys keep their relative order. *)
Fixpoint insert_by (e : A) (l : list A) : list A :=
  match l with
  | [] => [e]
  | e' :: l' =>
      if bool_decide (key e <= key e')%Z then e :: l else e' :: insert_by e l'
  end.

Fixpoint sort_by (l : list A) : list A :=
  match l with
  | [] => []
  | e :: l' => insert_by e (sort_by l')
  end.

(** The order the comparator sorts by. *)
Definition key_le (x y : A) : Prop := (key x <= key y)%Z.
End Sort.

(** [a.slice(i, j)] for [0 <= i <= j]. *)
Definition slice {A : Type} (i j : nat) (l : list A) : list A :=
  take (j - i) (drop i l).

End JsArray.

(** ** [js/modules/siteChecker.js] *)

Module SiteChecker.
Local Open Scope Z_scope.

(** The two maps of the constructor. *)
Record cache : Type := Cache {
  siteStatus : JsMap.t jsval;
  checkTimes : JsMap.t Z
}.

Definition new_cache : cache :=
  {| siteStatus := JsMap.empty; checkTimes := JsMap.empty |}.

(** [CACHE_DURATION], in milliseconds. *)
Definition CACHE_SUCCESS : Z := 24 * 60 * 60 * 1000.
Definition CACHE_FAILURE : Z := 1 * 60 * 60 * 1000.
Definition CACHE_CERT_ERROR : Z := 12 * 60 * 60 * 1000.
Definition CACHE_NO_HTTPS : Z := 12 * 60 * 60 * 1000.

Definition TIMEOUT : Z := 5000.
Definition MAX_CACHE_SIZE : Z := 500.
Definition TOTAL_CHECK_TIMEOUT : Z := 5000.

(** [getCacheDuration(status)]; [===] is equality of [jsval]. *)
Definition getCacheDuration (status : jsval) : Z :=
  if decide (status = JBool true) then CACHE_SUCCESS
  else if decide (status = JStr "certificate-error") then CACHE_CERT_ERROR
  else if decide (status = JStr "no-https") then CACHE_NO_HTTPS
  else CACHE_FAILURE.

(** [Map.prototype.get] answers [undefined] for a missing key. *)
Definition status_of (c : cache) (hostname : string) : jsval :=
  default JUndefined (JsMap.get (siteStatus c) hostname).

(** [shouldRecheck(hostname)], with [now] the reading of [Date.now()]. *)
Definition shouldRecheck (now : Z) (c : cache) (hostname : string) : bool :=
  match JsMap.get (checkTimes c) hostname with
  | None => true
  | Some lastCheck =>
      let status := status_of c hostname in
      let cacheDuration := getCacheDuration status in
      bool_decide (now - lastCheck > cacheDuration)
  end.

(** [isCacheValid(hostname)]. *)
Definition isCacheValid (now : Z) (c : cache) (hostname : string) : bool :=
  match JsMap.get (checkTimes c) hostname with
  | None => false
  | Some lastCheck =>
      let status := status_of c hostname in
      let cacheDuration := getCacheDuration status in
      bool_decide (now - lastCheck <= cacheDuration)
  end.

(** [getCachedStatus(hostname)]. *)
Definition getCachedStatus (now : Z) (c : cache) (hostname : string) : jsval :=
  if isCacheValid now c hostname then status_of c hostname else JNull.

(** Deleting one hostname from both maps, as the two [forEach] bodies do. *)
Definition forget (c : cache) (hostname : string) : cache :=
  {| siteStatus := JsMap.delete (siteStatus c) hostname;
     checkTimes := JsMap.delete (checkTimes c) hostname |}.

(** [cleanupCache()]: collect the expired hosts, then delete them. *)
Definition expiredHosts (now : Z) (c : cache) : list string :=
  omap (fun e : string * Z =>
          let status := status_of c e.1 in
          let cacheDuration := getCacheDuration status in
          if bool_decide (now - e.2 > cacheDuration) then Some e.1 else None)
       (JsMap.entries (checkTimes c)).

Definition cleanupCache (now : Z) (c : cache) : cache :=
  foldl forget c (expiredHosts now c).

(** [entries.sort((a, b) => a[1] - b[1])]. *)
Definition sort_entries (l : list (string * Z)) : list (string * Z) :=
  JsArray.sort_by snd l.

(** [Math.ceil(MAX_CACHE_SIZE * 0.2)]: one fifth, rounded up (the double
    [500 * 0.2] is exactly [100]). *)
Definition removeCount : nat := Z.to_nat ((MAX_CACHE_SIZE * 2 + 9) / 10).

(** [limitCacheSize()]: [entries.slice(0, removeCount)], then the
    deletions. *)
Definition toRemove (c : cache) : list (string * Z) :=
  take removeCount (sort_entries (JsMap.entries (checkTimes c))).

Definition limitCacheSize (c : cache) : cache :=
  foldl (fun c e => forget c e.1) c (toRemove c).

(** The two [set] calls that end [updateCache]. *)
Definition store (now : Z) (c : cache) (hostname : string) (status : jsval) : cache :=
  {| siteStatus := JsMap.set (siteStatus c) hostname status;
     checkTimes := JsMap.set (checkTimes c) hostname now |}.

(** [updateCache(hostname, status)]. *)
Definition updateCache (now : Z) (c : cache) (hostname : string) (status : jsval) : cache :=
  let c1 :=
    if bool_decide (Z.of_nat (JsMap.size (siteStatus c)) >= MAX_CACHE_SIZE)
    then limitCacheSize c else c in
  store now c1 hostname status.

(** [isLocalNetwork(hostname)]. *)
Definition isLocalNetwork (hostname : string) : bool :=
  if String.eqb hostname "localhost"
     || String.eqb hostname "127.0.0.1"
     || JsString.startsWith hostname "192.168."
     || JsString.startsWith hostname "10."
     || JsString.endsWith hostname ".local"
  then true
  else if JsString.startsWith hostname "172."
          && (let parts := JsString.split "." hostname in
              bool_decide (2 <= length parts)%nat
              && match JsString.parseInt (nth 1 parts "") with
                 | Some secondPart =>
                     bool_decide (secondPart >= 16) && bool_decide (secondPart <= 31)
                 | None => false
                 end)
  then true
  else false.

(** An exception value: its [name] and [message]. *)
Record js_error : Type := JsError { err_name : string; err_message : string }.

(** How an awaited call settles. *)
Inductive outcome (A : Type) : Type :=
  | Returned (a : A)
  | Thrown (e : js_error).
Arguments Returned {A} a.
Arguments Thrown {A} e.

(** The network as one check sees it: [fetch_head url] is [None] when the
    HEAD request resolves and the error it rejects with otherwise (an abort
    after [TIMEOUT] is an [AbortError]); [image_probe hostname] is how the
    promise of [checkDomainExists] settles. *)
Record network : Type := Network {
  fetch_head : string -> option js_error;
  image_probe : string -> outcome bool
}.

(** [tryHeadRequest(url)]: [true], or the error thrown again. *)
Definition tryHeadRequest (net : network) (url : string) : outcome bool :=
  match fetch_head net url with
  | None => Returned true
  | Some error => Thrown error
  end.

(** [checkDomainExists(hostname)]. *)
Definition checkDomainExists (net : network) (hostname : string) : outcome bool :=
  image_probe net hostname.

Definition httpsUrls (hostname : string) : list string :=
  [ "https://" +:+ hostname +:+ "/favicon.ico";
    "https://" +:+ hostname +:+ "/robots.txt";
    "https://" +:+ hostname ].

Definition httpUrls (hostname : string) : list string :=
  [ "http://" +:+ hostname +:+ "/favicon.ico";
    "http://" +:+ hostname +:+ "/robots.txt";
    "http://" +:+ hostname ].

(** The first loop of [checkAvailability]: [Some true] is the early
    [return true]; otherwise the last error caught is handed on. *)
Fixpoint https_loop (net : network) (urls : list string) (httpsError : option js_error)
  : option jsval * option js_error :=
  match urls with
  | [] => (None, httpsError)
  | url :: rest =>
      match tryHeadRequest net url with
      | Returned available =>
          if available then (Some (JBool true), httpsError)
          else https_loop net rest httpsError
      | Thrown error => https_loop net rest (Some error)
      end
  end.

(** The second loop: [Some 'no-https'] is the early return. *)
Fixpoint http_loop (net : network) (urls : list string) : option jsval :=
  match urls with
  | [] => None
  | url :: rest =>
      match tryHeadRequest net url with
      | Returned available =>
          if available then Some (JStr "no-https") else http_loop net rest
      | Thrown _ => http_loop net rest
      end
  end.

(** [checkAvailability(hostname)]. *)
Definition checkAvailability (net : network) (hostname : string) : outcome jsval :=
  match https_loop net (httpsUrls hostname) None with
  | (Some status, _) => Returned status
  | (None, httpsError) =>
      match http_loop net (httpUrls hostname) with
      | Some status => Returned status
      | None =>
          match checkDomainExists net hostname with
          | Thrown e => Thrown e
          | Returned domainExists =>
              if domainExists
                 && match httpsError with
                    | Some e =>
                        String.eqb (err_name e) "TypeError"
                        && JsString.includes (err_message e) "Failed to fetch"
                    | None => false
                    end
              then Returned (JStr "certificate-error")
              else Returned (JBool false)
          end
      end
  end.

(** How [Promise.race([checkAvailability(hostname), timeoutPromise])]
    settles: with the check, or with the rejection of the timer when
    [TOTAL_CHECK_TIMEOUT] elapses first. *)
Definition race (timed_out : bool) (check : outcome jsval) : outcome jsval :=
  if timed_out then Thrown (JsError "Error" "Check timeout") else check.

(** The part of [checkSite] that runs before the [await]. [t_recheck] is the
    clock read by [shouldRecheck], [t_valid] the one read next by
    [isCacheValid]. [None] means that the probes are started. *)
Definition checkSite_start (t_recheck t_valid : Z) (c : cache) (hostname : string)
  : option jsval :=
  if isLocalNetwork hostname then Some (JBool true)
  else if negb (shouldRecheck t_recheck c hostname)
  then Some (getCachedStatus t_valid c hostname)
  else None.

(** The part that runs when the race has settled, on the cache as it is
    then; [t_update] is the clock read by [updateCache]. *)
Definition checkSite_settle (t_update : Z) (settled : outcome jsval) (c : cache)
    (hostname : string) : jsval * cache :=
  match settled with
  | Returned status => (status, updateCache t_update c hostname status)
  | Thrown _ => (JBool false, updateCache t_update c hostname (JBool false))
  end.

(** What one call of [checkSite] needs from the outside: the network, the
    clock as read by [shouldRecheck], the clock as read next (by
    [isCacheValid] on the cache-hit path, by [updateCache] otherwise), and
    whether the timer wins the race. *)
Record check_env : Type := CheckEnv {
  env_net : network;
  env_t_recheck : Z;
  env_t_next : Z;
  env_timed_out : bool
}.

(** [checkSite(hostname)] with no other call in between: the value the
    promise resolves to, the cache afterwards, and whether
    [checkAvailability] was called (probes were issued). *)
Definition checkSite (env : check_env) (c : cache) (hostname : string)
  : jsval * cache * bool :=
  match checkSite_start (env_t_recheck env) (env_t_next env) c hostname with
  | Some v => (v, c, false)
  | None =>
      let settled := race (env_timed_out env) (checkAvailability (env_net env) hostname) in
      (checkSite_settle (env_t_next env) settled c hostname, true)
  end.

(** The four result classes of a check. *)
Definition result_classes : list jsval :=
  [JBool true; JBool false; JStr "certificate-error"; JStr "no-https"].

(** The durations given to the four classes, as a set. *)
Definition duration_buckets : gset Z :=
  list_to_set (getCacheDuration <$> result_classes).

(** The calls that change the cache, each with the clock reading it sees:
    [updateCache(hostname, status)] and the periodic [cleanupCache()]. *)
Inductive cache_call : Type :=
  | Update (now : Z) (hostname : string) (status : jsval)
  | Cleanup (now : Z).

Definition run_call (c : cache) (call : cache_call) : cache :=
  match call with
  | Update now hostname status => updateCache now c hostname status
  | Cleanup now => cleanupCache now c
  end.

(** The cache after a sequence of such calls on the empty cache. *)
Definition run_calls (calls : list cache_call) : cache :=
  foldl run_call new_cache calls.

(** What every cache built by [updateCache] satisfies: the two maps list
    the same hostnames, each once, and at most [MAX_CACHE_SIZE] of them. *)
Definition cache_inv (c : cache) : Prop :=
  JsMap.keys (siteStatus c) = JsMap.keys (checkTimes c)
  /\ NoDup (JsMap.keys (checkTimes c))
  /\ (JsMap.size (siteStatus c) <= 500)%nat.

(** Every stored status is one of the four result classes. *)
Definition cache_classified (c : cache) : Prop :=
  Forall (fun e : string * jsval => e.2 ∈ result_classes) (siteStatus c).

(** The hostname ["ddd.example"] for the three decimal digits of [i]. *)
Definition host_name (i : nat) : string :=
  String (ascii_of_nat (48 + i / 100))
    (String (ascii_of_nat (48 + (i / 10) mod 10))
       (String (ascii_of_nat (48 + i mod 10)) ".example")).

(** Five hundred distinct hostnames, checked one millisecond apart. *)
Definition full_run : list cache_call :=
  (fun i : nat => Update (Z.of_nat i) (host_name i) (JBool true)) <$> seq 0 500.

(** A network on which every request succeeds. *)
Definition online : network :=
  Network (fun _ => None) (fun _ => Returned true).

(** The first call finds the site reachable at time [0] and caches [true]. *)
Definition first_call : check_env := CheckEnv online 0 0 false.
(** The second call reads the clock at the last valid millisecond of the
    entry in [shouldRecheck], and one millisecond later in [isCacheValid]. *)
Definition second_call : check_env :=
  CheckEnv online CACHE_SUCCESS (CACHE_SUCCESS + 1) false.

End SiteChecker.

(** ** [js/siteChecker.js]: the regular-expression [isLocalNetwork] *)

Module LegacySiteChecker.

(** The fragment of regular expressions used by [localPatterns]. *)
Inductive regex : Type :=
  | Void
  | Eps
  | Chr (c : ascii)
  | Range (lo hi : ascii)
  | Seq (r1 r2 : regex)
  | Alt (r1 r2 : regex)
  | Star (r : regex).

(** [r+]. *)
Definition Plus (r : regex) : regex := Seq r (Star r).

(** [\d]: without the [u] and [v] flags, the ten ASCII digits. *)
Definition Digit : regex := Range "0" "9".

(** A literal string. *)
Fixpoint Lit (s : string) : regex :=
  match s with
  | EmptyString => Eps
  | String c s' => Seq (Chr c) (Lit s')
  end.

Fixpoint nullable (r : regex) : bool :=
  match r with
  | Void => false
  | Eps => true
  | Chr _ => false
  | Range _ _ => false
  | Seq r1 r2 => nullable r1 && nullable r2
  | Alt r1 r2 => nullable r1 || nullable r2
  | Star _ => true
  end.

Definition in_range (lo hi c : ascii) : bool :=
  (N_of_ascii lo <=? N_of_ascii c)%N && (N_of_ascii c <=? N_of_ascii hi)%N.

(** Brzozowski derivative of [r] by the character [a]. *)
Fixpoint deriv (a : ascii) (r : regex) : regex :=
  match r with
  | Void => Void
  | Eps => Void
  | Chr c => if Ascii.eqb a c then Eps else Void
  | Range lo hi => if in_range lo hi a then Eps else Void
  | Seq r1 r2 =>
      if nullable r1
      then Alt (Seq (deriv a r1) r2) (deriv a r2)
      else Seq (deriv a r1) r2
  | Alt r1 r2 => Alt (deriv a r1) (deriv a r2)
  | Star r1 => Seq (deriv a r1) (Star r1)
  end.

(** [/^r$/.test(s)]: the whole string matches [r]. *)
Fixpoint test (r : regex) (s : string) : bool :=
  match s with
  | EmptyString => nullable r
  | String a s' => test (deriv a r) s'
  end.

(** The strings a regular expression denotes. *)
Inductive lang : regex -> string -> Prop :=
  | lang_eps : lang Eps ""
  | lang_chr c : lang (Chr c) (String c "")
  | lang_range lo hi c : in_range lo hi c = true -> lang (Range lo hi) (String c "")
  | lang_seq r1 r2 s1 s2 : lang r1 s1 -> lang r2 s2 -> lang (Seq r1 r2) (s1 +:+ s2)
  | lang_alt_l r1 r2 s : lang r1 s -> lang (Alt r1 r2) s
  | lang_alt_r r1 r2 s : lang r2 s -> lang (Alt r1 r2) s
  | lang_star_nil r : lang (Star r) ""
  | lang_star_app r s1 s2 : lang r s1 -> lang (Star r) s2 -> lang (Star r) (s1 +:+ s2).

(** [\.\d+] *)
Definition DotDigits : regex := Seq (Chr ".") (Plus Digit).

(** [/^localhost$/] *)
Definition pat_localhost : regex := Lit "localhost".
(** [/^127\.\d+\.\d+\.\d+$/] *)
Definition pat_127 : regex :=
  Seq (Lit "127") (Seq DotDigits (Seq DotDigits DotDigits)).
(** [/^192\.168\.\d+\.\d+$/] *)
Definition pat_192_168 : regex :=
  Seq (Lit "192") (Seq (Chr ".") (Seq (Lit "168") (Seq DotDigits DotDigits))).
(** [/^10\.\d+\.\d+\.\d+$/] *)
Definition pat_10 : regex :=
  Seq (Lit "10") (Seq DotDigits (Seq DotDigits DotDigits)).
(** [/^172\.(1[6-9]|2\d|3[0-1])\.\d+\.\d+$/] *)
Definition pat_172 : regex :=
  Seq (Lit "172")
    (Seq (Chr ".")
       (Seq (Alt (Seq (Chr "1") (Range "6" "9"))
               (Alt (Seq (Chr "2") Digit) (Seq (Chr "3") (Range "0" "1"))))
          (Seq DotDigits DotDigits))).

Definition localPatterns : list regex :=
  [pat_localhost; pat_127; pat_192_168; pat_10; pat_172].

(** [isLocalNetwork(hostname)]: [localPatterns.some(p => p.test(hostname))]. *)
Definition isLocalNetwork (hostname : string) : bool :=
  existsb (fun pattern => test pattern hostname) localPatterns.

End LegacySiteChecker.

(** ** Bookmark tree nodes

    A [BookmarkTreeNode] as the code reads it: [id], [title], an optional
    [url] (bookmarks) and an optional [children] array (folders). *)

#[warnings="-register-all"]
Inductive node : Type :=
  | Node (id : string) (title : string) (url : option string)
         (children : option (list node)).

Definition node_id (n : node) : string := let 'Node i _ _ _ := n in i.
Definition node_title (n : node) : string := let 'Node _ t _ _ := n in t.
Definition node_url (n : node) : option string := let 'Node _ _ u _ := n in u.
Definition node_children (n : node) : option (list node) :=
  let 'Node _ _ _ c := n in c.

(** Truthiness of [n.url]: defined and not the empty string. *)
Definition has_url (n : node) : bool :=
  match node_url n with
  | Some u => negb (String.eqb u "")
  | None => false
  end.

(** Truthiness of [n.children]: any array, the empty one too. *)
Definition has_children (n : node) : bool :=
  match node_children n with Some _ => true | None => false end.

(** ** Ordinary objects used as dictionaries

    Own properties are kept in creation order. Enumeration
    ([Object.values]) lists the keys that are array indices first, in
    ascending numeric order, then the other string keys in creation order.
    The keys stored here are ids of bookmarks of the browser, decimal
    numerals, so that a store creates an own property. A key that is read
    comes from a saved order and can be any string: on an object made by
    [{}], reading a key that is not an own one finds the members of
    [Object.prototype] ([lookup]). *)

Module JsObject.

Fixpoint decimal_value (s : string) (acc : N) : option N :=
  match s with
  | EmptyString => Some acc
  | String c s' =>
      if JsString.is_digit c
      then decimal_value s' (10 * acc + (N_of_ascii c - 48))%N
      else None
  end.

(** A key is an array index when it is the canonical decimal form of an
    integer below [2^32 - 1]. *)
Definition array_index (k : string) : option N :=
  match k with
  | EmptyString => None
  | String "0" EmptyString => Some 0%N
  | String "0" _ => None
  | _ =>
      match decimal_value k 0%N with
      | Some n => if (n <? 2 ^ 32 - 1)%N then Some n else None
      | None => None
      end
  end.

Abbreviation t V := (list (string * V)) (only parsing).

(** The properties of [Object.prototype]: eleven functions and the
    accessor [__proto__], which on an object made by [{}] gives
    [Object.prototype] itself. Every one of these values is truthy, and
    none has a property [title]. *)
Definition prototype_members : list string :=
  [ "constructor"; "__defineGetter__"; "__defineSetter__"; "hasOwnProperty";
    "__lookupGetter__"; "__lookupSetter__"; "isPrototypeOf";
    "propertyIsEnumerable"; "toString"; "valueOf"; "__proto__";
    "toLocaleString" ].

Definition inherited (k : string) : bool := bool_decide (k ∈ prototype_members).

(** What [o[k]] reads. *)
Inductive read (V : Type) : Type :=
  | Own (v : V)
  | Inherited
  | Undefined.
Arguments Own {V} v.
Arguments Inherited {V}.
Arguments Undefined {V}.

Section Ops.
Context {V : Type}.
Abbreviation t := (list (string * V)) (only parsing).

(** The own property [k] of [o]: [o[k]] when [k] is an own key. *)
Definition get (o : t) (k : string) : option V := JsMap.get o k.
(** [o[k]] on an object made by [{}]: an own property first, then
    [Object.prototype]. *)
Definition lookup (o : t) (k : string) : read V :=
  match get o k with
  | Some v => Own v
  | None => if inherited k then Inherited else Undefined
  end.
(** [o[k] = v] *)
Definition set (o : t) (k : string) (v : V) : t := JsMap.set o k v.
(** [delete o[k]] *)
Definition delete (o : t) (k : string) : t := JsMap.delete o k.

Definition indexed (o : t) : list (N * V) :=
  omap (fun e : string * V => (fun i => (i, e.2)) <$> array_index e.1) o.

Definition named (o : t) : list (string * V) :=
  filter (fun e : string * V => array_index e.1 = None) o.

(** [Object.values(o)] *)
Definition values (o : t) : list V :=
  (JsArray.sort_by (fun e : N * V => Z.of_N e.1) (indexed o)).*2 ++ (named o).*2.
End Ops.
End JsObject.

(** ** Calls that throw *)

Module Throw.
Import SiteChecker.

(** A call followed by the rest of the function body: a throw of the call
    is the throw of the function, where nothing catches it. *)
Definition bind {A B : Type} (call : outcome A) (rest : A -> outcome B) : outcome B :=
  match call with
  | Returned a => rest a
  | Thrown e => Thrown e
  end.

(** [l.forEach(f)]: the calls in the order of the array, cut short by the
    first throw. *)
Fixpoint for_each {A B : Type} (f : A -> outcome B) (l : list A) : outcome (list B) :=
  match l with
  | [] => Returned []
  | a :: l' => bind (f a) (fun b => bind (for_each f l') (fun bs => Returned (b :: bs)))
  end.

End Throw.

(** ** [js/modules/ui/ColumnManager.js] *)

Module ColumnManager.

(** The first [forEach]: the dictionary of the bookmarks that have a URL. *)
Definition bookmarkMap_of (bookmarks : list node) : JsObject.t node :=
  foldl (fun bookmarkMap bookmark =>
           if has_url bookmark
           then JsObject.set bookmarkMap (node_id bookmark) bookmark
           else bookmarkMap)
        [] bookmarks.

(** The second [forEach], when no call in it throws: the items appended
    so far and the dictionary. A saved id that is not a key of
    [bookmarkMap] is passed over here; [render_saved_run] below has the
    case in which reading it finds a member of [Object.prototype]. *)
Definition render_saved (savedOrder : list string)
    (st : list node * JsObject.t node) : list node * JsObject.t node :=
  foldl (fun st bookmarkId =>
           match JsObject.get st.2 bookmarkId with
           | Some bookmark => (st.1 ++ [bookmark], JsObject.delete st.2 bookmarkId)
           | None => st
           end)
        st savedOrder.

(** [renderOrderedBookmarks(bookmarks, container, savedOrder)]: the
    bookmarks whose items are appended to [container], in that order,
    when the call returns. *)
Definition renderOrderedBookmarks (bookmarks : list node) (savedOrder : list string)
  : list node :=
  let st := render_saved savedOrder ([], bookmarkMap_of bookmarks) in
  st.1 ++ JsObject.values st.2.

(** [createBookmarkItem(bookmark)] on a value without a [title]: the
    [TypeError] of [bookmark.title.match(...)] in
    [extractCustomFaviconData], reached through [setCustomFavicon]. *)
Definition title_undefined : SiteChecker.js_error :=
  SiteChecker.JsError "TypeError"
    "Cannot read properties of undefined (reading 'match')".

(** The second [forEach] as it runs. When [bookmarkMap[bookmarkId]] is
    a member of [Object.prototype], the test of the [if] succeeds and
    [createBookmarkItem] is called on that member and throws; the rest of
    the saved order and the third loop are not run. *)
Definition render_saved_run (savedOrder : list string)
    (st : list node * JsObject.t node)
  : SiteChecker.outcome (list node * JsObject.t node) :=
  foldl (fun run bookmarkId =>
           Throw.bind run (fun st =>
             match JsObject.lookup st.2 bookmarkId with
             | JsObject.Own bookmark =>
                 SiteChecker.Returned
                   (st.1 ++ [bookmark], JsObject.delete st.2 bookmarkId)
             | JsObject.Inherited => SiteChecker.Thrown title_undefined
             | JsObject.Undefined => SiteChecker.Returned st
             end))
        (SiteChecker.Returned st) savedOrder.

(** [renderOrderedBookmarks(bookmarks, container, savedOrder)] as it
    runs: the bookmarks whose items it appends, or its throw. *)
Definition renderOrderedBookmarks_run (bookmarks : list node)
    (savedOrder : list string) : SiteChecker.outcome (list node) :=
  Throw.bind (render_saved_run savedOrder ([], bookmarkMap_of bookmarks))
    (fun st => SiteChecker.Returned (st.1 ++ JsObject.values st.2)).

(** The saved ids without their repetitions (first occurrences). *)
Fixpoint first_occurrences (seen ids : list string) : list string :=
  match ids with
  | [] => []
  | i :: ids' =>
      if bool_decide (i ∈ seen) then first_occurrences seen ids'
      else i :: first_occurrences (i :: seen) ids'
  end.

(** The rendering as the specification words it: the live bookmarks with a
    URL, first those named by the saved order, in its sequence and once
    each, then the remaining ones in live order. *)
Definition spec_renderOrderedBookmarks (bookmarks : list node)
    (savedOrder : list string) : list node :=
  let live := filter (fun b => has_url b) bookmarks in
  omap (fun i => List.find (fun b => String.eqb (node_id b) i) live)
       (first_occurrences [] savedOrder)
  ++ filter (fun b => node_id b ∉ savedOrder) live.

(** The entry a bookmark gets in [bookmarkMap]. *)
Definition entry_of (b : node) : string * node := (node_id b, b).

(** Three bookmarks of one folder, in the order of the folder. *)
Definition live_bookmarks : list node :=
  [ Node "7" "News" (Some "https://news.example/") None;
    Node "10" "Mail" (Some "https://mail.example/") None;
    Node "9" "Wiki" (Some "https://wiki.example/") None ].

End ColumnManager.

(** ** [js/modules/ui/KanbanRenderer.js] *)

Module KanbanRenderer.

(** An entry of [columnsData]: its [type] and its [data]. *)
Inductive column : Type :=
  | FolderColumn (data : node)
  | UncategorizedColumn (data : list node)
  | SpecialColumn (data : node).

(** The columns of the bookmark bar: one per folder among its children,
    then the "Uncategorized" column when some child has a [url]. *)
Definition bar_columns (kids : list node) : list column :=
  let folders := FolderColumn <$> filter (fun child => has_children child) kids in
  let uncategorizedBookmarks := filter (fun child => has_url child) kids in
  folders ++
  if bool_decide (0 < length uncategorizedBookmarks)
  then [UncategorizedColumn uncategorizedBookmarks] else [].

(** The column of the root folder with the given id, when there is one. *)
Definition special_columns (top : list node) (i : string) : list column :=
  match List.find (fun child => String.eqb (node_id child) i) top with
  | Some folder => [SpecialColumn folder]
  | None => []
  end.

(** [processBookmarkTree(node, ...)] up to the call of
    [determineColumnOrder]: the [columnsData] array. [None] is the
    [TypeError] raised when the bookmark bar has no [children]. *)
Definition processBookmarkTree (root : node) : option (list column) :=
  match node_children root with
  | None => Some []
  | Some top =>
      let of_bar :=
        match List.find (fun child => String.eqb (node_id child) "1") top with
        | None => Some []
        | Some bookmarkBar => bar_columns <$> node_children bookmarkBar
        end in
      (fun cols => cols ++ special_columns top "2" ++ special_columns top "3")
        <$> of_bar
  end.

(** The id under which a column is saved: the second loop's [columnId]. *)
Definition column_id (col : column) : string :=
  match col with
  | UncategorizedColumn _ => "uncategorized"
  | FolderColumn data | SpecialColumn data => node_id data
  end.

(** The predicate handed to [columnsData.find] for a saved [columnId]. *)
Definition matches (columnId : string) (col : column) : bool :=
  if String.eqb columnId "uncategorized"
  then match col with UncategorizedColumn _ => true | _ => false end
  else match col with
       | FolderColumn data | SpecialColumn data => String.eqb (node_id data) columnId
       | UncategorizedColumn _ => false
       end.

(** [determineColumnOrder(columnsData, savedColumnOrder)]; a [null] saved
    order is [None]. *)
Definition determineColumnOrder (columnsData : list column)
    (savedColumnOrder : option (list string)) : list column :=
  match savedColumnOrder with
  | None => columnsData
  | Some [] => columnsData
  | Some saved =>
      let found :=
        foldl (fun orderedColumns columnId =>
                 match List.find (matches columnId) columnsData with
                 | Some matchColumn => orderedColumns ++ [matchColumn]
                 | None => orderedColumns
                 end) [] saved in
      foldl (fun orderedColumns col =>
               let columnId := column_id col in
               if negb (String.eqb columnId "")
                  && negb (bool_decide (columnId ∈ saved))
               then orderedColumns ++ [col]
               else if String.eqb columnId "" then orderedColumns ++ [col]
               else orderedColumns)
            found columnsData
  end.

(** The ids of a node and of everything below it. *)
Fixpoint all_ids (n : node) : list string :=
  match n with
  | Node i _ _ children =>
      i :: match children with
           | Some cs =>
               (fix each (l : list node) : list string :=
                  match l with
                  | [] => []
                  | c :: l' => all_ids c ++ each l'
                  end) cs
           | None => []
           end
  end.

(** Ids as the browser assigns them: non-empty strings of decimal digits
    (['1'] is the bookmark bar, ['2'] and ['3'] the other two roots). *)
Definition decimal_id (i : string) : bool :=
  match i with
  | EmptyString => false
  | _ => forallb JsString.is_digit (list_ascii_of_string i)
  end.

(** A bookmark tree of the browser: the ids are decimal and no two nodes
    share one. *)
Definition tree_ok (root : node) : Prop :=
  NoDup (all_ids root) /\ Forall (fun i => decimal_id i = true) (all_ids root).

(** Columns whose ids cannot be mistaken for one another by [matches]. *)
Definition column_wf (col : column) : Prop :=
  match col with
  | UncategorizedColumn _ => True
  | FolderColumn data | SpecialColumn data =>
      node_id data <> "" /\ node_id data <> "uncategorized"
  end.

(** The order as the specification words it for a saved order that is
    not empty: the live columns named by the saved order, in its sequence,
    then the live columns it does not name, in live order. *)
Definition spec_columnOrder (columnsData : list column) (saved : list string)
  : list column :=
  omap (fun i => List.find (fun col => String.eqb (column_id col) i) columnsData) saved
  ++ filter (fun col => column_id col ∉ saved) columnsData.

(** A small tree: one folder in the bookmark bar, and "Other Bookmarks". *)
Definition sample_root : node :=
  Node "0" "" None
    (Some [ Node "1" "Bookmarks bar" None
              (Some [ Node "5" "Work" None (Some []);
                      Node "6" "Home page" (Some "https://home.example/") None ]);
            Node "2" "Other bookmarks" None (Some []) ]).

Definition sample_columns : list column :=
  [ FolderColumn (Node "5" "Work" None (Some []));
    UncategorizedColumn [Node "6" "Home page" (Some "https://home.example/") None];
    SpecialColumn (Node "2" "Other bookmarks" None (Some [])) ].

End KanbanRenderer.

(** ** The background worker: [checkAllBookmarks] *)

Module Background.
Import SiteChecker.

(** [traverseBookmarks(bookmarks, callback)]: the nodes on which the
    callback is called, in call order. A node with [children] is descended
    into, any other node is handed to the callback. *)
Fixpoint visit (bookmark : node) : list node :=
  match bookmark with
  | Node _ _ _ (Some children) =>
      (fix each (l : list node) : list node :=
         match l with
         | [] => []
         | child :: l' => visit child ++ each l'
         end) children
  | Node _ _ _ None => [bookmark]
  end.

Definition traverseBookmarks (bookmarks : list node) : list node :=
  flat_map visit bookmarks.

(** The tree as the browser hands it over, without reference to the
    traversal: [below n b] when [b] is [n] itself or is reached from [n]
    through [children] arrays. *)
Inductive below : node -> node -> Prop :=
  | below_self (n : node) : below n n
  | below_child (n child b : node) (children : list node) :
      node_children n = Some children -> child ∈ children ->
      below child b -> below n b.

(** A bookmark of the tree [bookmarks]: a node without [children] (a
    folder has the array, also when it is empty) at any depth below one
    of the roots. *)
Definition bookmark_of (bookmarks : list node) (b : node) : Prop :=
  node_children b = None ∧ ∃ root, root ∈ bookmarks ∧ below root b.

(** What is sent to the tabs and what a check does, in program order. *)
Inductive event : Type :=
  | CheckStarted (bookmarkId : string)
  | CheckSettled (bookmarkId : string)
  | ProgressSent (checked total : nat).

(** The variables of [checkAllBookmarks] that the loop updates. *)
Record progress : Type := Progress {
  results : gmap string jsval;
  checked : nat;
  log : list event
}.

Definition batchSize : nat := 10.

Section CheckAll.
(** [new URL(u)]: the [hostname] of the parsed URL, [None] when the
    constructor throws. *)
Variable parse_url : string -> option string.
(** How [siteChecker.checkSite(url.hostname)] settles for a bookmark. *)
Variable check : node -> string -> outcome jsval.
(** The order in which the checks of one batch settle. *)
Variable settle_order : list (node * string) -> list (node * string).

(** The first traversal: [total]. *)
Definition count_total (bookmarks : list node) : nat :=
  length (filter (fun bookmark => has_url bookmark) (traverseBookmarks bookmarks)).

(** The second traversal: [bookmarksToCheck], each bookmark with the
    hostname of its parsed URL. *)
Definition bookmarksToCheck (bookmarks : list node) : list (node * string) :=
  omap (fun bookmark =>
          if has_url bookmark
          then (fun hostname => (bookmark, hostname))
                 <$> parse_url (default "" (node_url bookmark))
          else None)
       (traverseBookmarks bookmarks).

(** The body of one mapped callback once its check has settled. *)
Definition record_result (res : gmap string jsval) (item : node * string)
  : gmap string jsval :=
  match check item.1 item.2 with
  | Returned isAlive => <[node_id item.1 := isAlive]> res
  | Thrown _ => <[node_id item.1 := JBool false]> res
  end.

(** One turn of the loop: every callback of the batch starts its check,
    [Promise.all] waits until all have settled, then the progress
    message is sent. *)
Definition run_batch (total : nat) (st : progress) (batch : list (node * string))
  : progress :=
  {| results := foldl record_result (results st) (settle_order batch);
     checked := checked st + length batch;
     log := log st
            ++ (CheckStarted <$> (node_id ∘ fst <$> batch))
            ++ (CheckSettled <$> (node_id ∘ fst <$> settle_order batch))
            ++ [ProgressSent (checked st + length batch) total] |}.

(** [for (let i = 0; i < bookmarksToCheck.length; i += batchSize)]; the
    loop makes at most one turn per bookmark, which bounds [turns]. *)
Fixpoint batch_loop (turns i total : nat) (todo : list (node * string))
    (st : progress) : progress :=
  match turns with
  | O => st
  | S turns' =>
      if bool_decide (i < length todo)
      then
        let batch := JsArray.slice i (i + batchSize) todo in
        batch_loop turns' (i + batchSize) total todo (run_batch total st batch)
      else st
  end.

(** [checkAllBookmarks()] up to the conversion of [results]. *)
Definition checkAllBookmarks (bookmarks : list node) : progress :=
  let total := count_total bookmarks in
  let todo := bookmarksToCheck bookmarks in
  batch_loop (length todo) 0 total todo
    {| results := ∅; checked := 0; log := [] |}.

(** The batches the loop cuts out of [todo], in order. *)
Fixpoint batches (turns i : nat) (todo : list (node * string))
  : list (list (node * string)) :=
  match turns with
  | O => []
  | S turns' =>
      if bool_decide (i < length todo)
      then JsArray.slice i (i + batchSize) todo
             :: batches turns' (i + batchSize) todo
      else []
  end.

(** What one batch adds to the log, and the log of a list of batches
    when [done] bookmarks were checked before. *)
Definition batch_events (batch : list (node * string)) : list event :=
  (CheckStarted <$> (node_id ∘ fst <$> batch))
  ++ (CheckSettled <$> (node_id ∘ fst <$> settle_order batch)).

Fixpoint batch_log (total done : nat) (bs : list (list (node * string)))
  : list event :=
  match bs with
  | [] => []
  | batch :: bs' =>
      batch_events batch
      ++ ProgressSent (done + length batch) total
      :: batch_log total (done + length batch) bs'
  end.

(** The value stored for a bookmark. *)
Definition recorded (item : node * string) : jsval :=
  match check item.1 item.2 with
  | Returned isAlive => isAlive
  | Thrown _ => JBool false
  end.

(** The number of checks started and not yet settled after [l]. *)
Fixpoint in_flight (l : list event) (n : Z) : Z :=
  match l with
  | [] => n
  | CheckStarted _ :: l' => in_flight l' (n + 1)
  | CheckSettled _ :: l' => in_flight l' (n - 1)
  | ProgressSent _ _ :: l' => in_flight l' n
  end.
End CheckAll.

(** A log in which, from [n] checks in flight on, at most [batchSize]
    checks are ever in flight and none is when progress is reported. *)
Fixpoint orderly (l : list event) (n : Z) : Prop :=
  (0 <= n <= Z.of_nat batchSize)%Z
  /\ match l with
     | [] => True
     | CheckStarted _ :: l' => orderly l' (n + 1)
     | CheckSettled _ :: l' => orderly l' (n - 1)
     | ProgressSent _ _ :: l' => n = 0%Z /\ orderly l' n
     end.

(** Twelve bookmarks in one folder, two bookmarks without a URL that
    parses, and one bookmark two folders further down. *)
Definition sample_bookmarks : list node :=
  [ Node "0" "" None
      (Some [ Node "1" "Bookmarks bar" None
                (Some ((λ i : nat, Node (pretty (i + 10)) "site"
                                     (Some ("https://" +:+ pretty i +:+ ".example/"))
                                     None) <$> seq 0 12));
              Node "2" "Other bookmarks" None
                (Some [ Node "30" "broken" (Some "nope") None;
                        Node "31" "empty" (Some "") None;
                        Node "40" "Nested" None
                          (Some [ Node "41" "Deep" None
                                    (Some [ Node "42" "deep" (Some "https://deep.example/")
                                              None ]);
                                  Node "43" "Hollow" None (Some []) ]) ]) ]) ].

(** The nested bookmark of [sample_bookmarks]. *)
Definition sample_deep : node :=
  Node "42" "deep" (Some "https://deep.example/") None.

(** A stand-in for the URL parser: it accepts the URLs that start with
    ["https://"] and returns what follows. *)
Definition sample_parse (u : string) : option string :=
  if String.prefix "https://" u
  then Some (substring 8 (String.length u - 8) u) else None.

(** The check of bookmark 12 throws; every other check reports the site
    reachable. *)
Definition sample_check (b : node) (h : string) : outcome jsval :=
  if String.eqb (node_id b) "12" then Thrown (JsError "Error" "boom")
  else Returned (JBool true).

End Background.

(** ** Sequences of calls on the site checker *)

Module SiteCheckerRuns.
Import SiteChecker.
Local Open Scope Z_scope.

(** What reaches the cache in the running extension. [CheckSite] is a
    whole call of [checkSite(hostname)] with nothing in between.
    [Settle] is the part of a call after its [await], for a call that
    started its probes earlier and settles now, on the cache as the calls
    in between have left it (the checks of one batch run this way); only a
    call for a hostname that is not local gets that far. [CleanupCache] is
    the periodic [cleanupCache()]. *)
Inductive checker_call : Type :=
  | CheckSite (env : check_env) (hostname : string)
  | Settle (env : check_env) (hostname : string)
  | CleanupCache (now : Z).

Definition run_checker_call (c : cache) (call : checker_call) : cache :=
  match call with
  | CheckSite env hostname => (checkSite env c hostname).1.2
  | Settle env hostname =>
      if isLocalNetwork hostname then c
      else
        let settled :=
          race (env_timed_out env) (checkAvailability (env_net env) hostname) in
        (checkSite_settle (env_t_next env) settled c hostname).2
  | CleanupCache now => cleanupCache now c
  end.

(** The cache after a sequence of such events, one after the other, on the
    cache of a new [SiteChecker]. *)
Definition run_checker (calls : list checker_call) : cache :=
  foldl run_checker_call new_cache calls.

(** Every URL of the list is refused. *)
Definition all_fail (net : network) (urls : list string) : Prop :=
  Forall (fun url => fetch_head net url <> None) urls.

(** The test on [httpsError] that separates ['certificate-error'] from
    [false]. *)
Definition fetch_failed (e : js_error) : bool :=
  String.eqb (err_name e) "TypeError"
  && JsString.includes (err_message e) "Failed to fetch".

(** No local hostname is a key of the cache. *)
Definition no_local_keys (c : cache) : Prop :=
  Forall (fun h => isLocalNetwork h = false) (JsMap.keys (siteStatus c)).

(** A run to try the statements on: a site checked, a check started
    earlier that settles, a clean-up, and a check of the host itself. *)
Definition sample_run : list checker_call :=
  [ CheckSite (CheckEnv online 0 0 false) "example.com";
    Settle (CheckEnv (Network (fun _ => Some (JsError "TypeError" "Failed to fetch"))
                              (fun _ => Returned false)) 5 10 false) "gone.example";
    CleanupCache 20;
    CheckSite (CheckEnv online 30 30 false) "localhost" ].

End SiteCheckerRuns.

(** ** [js/modules/faviconLoader.js] *)

Module FaviconLoader.
Import SiteChecker.


End FaviconLoader.

(** ** [js/siteChecker.js]: the checker with one map and one duration *)

Module LegacyChecks.
Import SiteChecker.
Local Open Scope Z_scope.

(** A value of the map: [{ status, timestamp }]. *)
Record entry : Type := Entry { status : jsval; timestamp : Z }.

(** [this.cacheTimeout] *)
Definition cacheTimeout : Z := 24 * 60 * 60 * 1000.

(** [Error.prototype.toString()]: the name, the message, or both joined
    by a colon. *)
Definition error_toString (e : js_error) : string :=
  if String.eqb (err_name e) "" then err_message e
  else if String.eqb (err_message e) "" then err_name e
  else err_name e +:+ ": " +:+ err_message e.

(** [s.toLowerCase()] on the letters [A] to [Z]; no other character is
    turned into a letter of the three markers searched below. *)
Definition lower (c : ascii) : ascii :=
  let n := N_of_ascii c in
  if ((65 <=? n) && (n <=? 90))%N then ascii_of_N (n + 32) else c.

Fixpoint toLowerCase (s : string) : string :=
  match s with
  | EmptyString => EmptyString
  | String c s' => String (lower c) (toLowerCase s')
  end.

(** The test of the [catch] block of [checkDomainExists]. *)
Definition dns_error (error : js_error) : bool :=
  let errorString := toLowerCase (error_toString error) in
  JsString.includes errorString "name not resolved"
  || JsString.includes errorString "hostname"
  || JsString.includes errorString "dns".

(** [checkDomainExists(hostname)]: the HEAD request on
    [https://hostname], aborted after two seconds. *)
Definition checkDomainExists (net : network) (hostname : string) : bool :=
  match fetch_head net ("https://" +:+ hostname) with
  | None => true
  | Some error => if dns_error error then false else true
  end.

(** [quickCheckFavicon(hostname)]: how its promise settles is the image
    probe of the network; it rejects only when the executor throws. *)
Definition quickCheckFavicon (net : network) (hostname : string) : outcome bool :=
  image_probe net hostname.

(** [shouldRecheck(hostname)]; an entry is an object, so [!cached] holds
    only for a missing key. *)
Definition shouldRecheck (now : Z) (c : JsMap.t entry) (hostname : string) : bool :=
  match JsMap.get c hostname with
  | None => true
  | Some cached => bool_decide (now - timestamp cached > cacheTimeout)
  end.

(** [getCachedStatus(hostname)]: no clock is read. *)
Definition getCachedStatus (c : JsMap.t entry) (hostname : string) : jsval :=
  match JsMap.get c hostname with
  | Some cached => status cached
  | None => JNull
  end.

(** [updateCache(hostname, status)] *)
Definition updateCache (now : Z) (c : JsMap.t entry) (hostname : string)
    (s : jsval) : JsMap.t entry :=
  JsMap.set c hostname (Entry s now).

(** What one call of [checkSite] sees of the outside: the network, the
    clock read by [shouldRecheck] and the clock read by [updateCache]. *)
Record check_env : Type := CheckEnv {
  env_net : network;
  env_t_recheck : Z;
  env_t_update : Z
}.

(** The [try] block of [checkSite] up to the call of [updateCache]: the
    verdict of the probes. *)
Definition verdict (net : network) (hostname : string) : jsval :=
  match quickCheckFavicon net hostname with
  | Returned quickCheck =>
      if quickCheck then JBool true
      else
        let domainExists := checkDomainExists net hostname in
        if negb domainExists then JBool false
        else JStr "certificate-error"
  | Thrown _ => JBool false
  end.

(** [checkSite(hostname)] with no other call in between: the value, the
    cache afterwards, and whether a probe was issued. In each branch the
    verdict is stored by [updateCache] and returned. *)
Definition checkSite (env : check_env) (c : JsMap.t entry) (hostname : string)
  : jsval * JsMap.t entry * bool :=
  if LegacySiteChecker.isLocalNetwork hostname then (JBool true, c, false)
  else if negb (shouldRecheck (env_t_recheck env) c hostname)
  then (getCachedStatus c hostname, c, false)
  else
    let s := verdict (env_net env) hostname in
    (s, updateCache (env_t_update env) c hostname s, true).

(** What reaches the cache: a whole call of [checkSite], or the part after
    the [await]s of a call that started its probes earlier (never a call
    for a local hostname). *)
Inductive checker_call : Type :=
  | CheckSite (env : check_env) (hostname : string)
  | Settle (env : check_env) (hostname : string).

Definition run_checker_call (c : JsMap.t entry) (call : checker_call) : JsMap.t entry :=
  match call with
  | CheckSite env hostname => (checkSite env c hostname).1.2
  | Settle env hostname =>
      if LegacySiteChecker.isLocalNetwork hostname then c
      else updateCache (env_t_update env) c hostname (verdict (env_net env) hostname)
  end.

(** The cache after a sequence of such events on a new checker. *)
Definition run (calls : list checker_call) : JsMap.t entry :=
  foldl run_checker_call JsMap.empty calls.

(** The values [checkSite] stores. *)
Definition statuses : list jsval :=
  [JBool true; JBool false; JStr "certificate-error"].

(** Every stored status is one of them. *)
Definition stored_ok (c : JsMap.t entry) : Prop :=
  Forall (fun e : string * entry => status e.2 ∈ statuses) c.

End LegacyChecks.

(** Truthiness of a value of the language. *)
Definition truthy (v : jsval) : bool :=
  match v with
  | JBool b => b
  | JStr s => negb (String.eqb s "")
  | JNull | JUndefined => false
  end.

(** ** The [SiteChecker] class kept in [js/modules/uiManager.js] *)

Module UiSiteChecker.
Import SiteChecker.
Local Open Scope Z_scope.

(** [CACHE_DURATION] has two entries here. *)
Definition CACHE_SUCCESS : Z := 24 * 60 * 60 * 1000.
Definition CACHE_FAILURE : Z := 1 * 60 * 60 * 1000.

(** [status ? SUCCESS : FAILURE] *)
Definition cacheDuration (s : jsval) : Z :=
  if truthy s then CACHE_SUCCESS else CACHE_FAILURE.

(** [shouldRecheck(hostname)] *)
Definition shouldRecheck (now : Z) (c : cache) (hostname : string) : bool :=
  if negb (JsMap.has (checkTimes c) hostname) then true
  else
    let lastCheck := default 0 (JsMap.get (checkTimes c) hostname) in
    let s := status_of c hostname in
    bool_decide (now - lastCheck > cacheDuration s).

(** [isCacheValid(hostname)] *)
Definition isCacheValid (now : Z) (c : cache) (hostname : string) : bool :=
  if negb (JsMap.has (checkTimes c) hostname) then false
  else
    let lastCheck := default 0 (JsMap.get (checkTimes c) hostname) in
    let s := status_of c hostname in
    bool_decide (now - lastCheck <= cacheDuration s).

(** [getCachedStatus(hostname)] *)
Definition getCachedStatus (now : Z) (c : cache) (hostname : string) : jsval :=
  if isCacheValid now c hostname then status_of c hostname else JNull.

(** [tryHeadRequest(url)]: every error is caught and answered [false]. *)
Definition tryHeadRequest (net : network) (url : string) : bool :=
  match fetch_head net url with
  | None => true
  | Some _ => false
  end.

(** One of the two [for] loops of [checkAvailability]: [true] is the early
    [return true]. *)
Fixpoint try_urls (net : network) (urls : list string) : bool :=
  match urls with
  | [] => false
  | url :: rest => if tryHeadRequest net url then true else try_urls net rest
  end.

(** [checkAvailability(hostname)] *)
Definition checkAvailability (net : network) (hostname : string) : bool :=
  if try_urls net (httpsUrls hostname) then true
  else if try_urls net (httpUrls hostname) then true
  else false.

(** [updateCache(hostname, status)]: the two [set] calls, no size limit. *)
Definition updateCache (now : Z) (c : cache) (hostname : string) (s : jsval) : cache :=
  store now c hostname s.

(** [checkSite(hostname)]: the value, the cache afterwards, and whether
    probes were issued. [checkAvailability] cannot throw, so the [catch]
    block is not entered. [t_recheck] is the clock read by
    [shouldRecheck], [t_next] the clock read next. *)
Definition checkSite (net : network) (t_recheck t_next : Z) (c : cache)
    (hostname : string) : jsval * cache * bool :=
  if negb (shouldRecheck t_recheck c hostname)
  then (getCachedStatus t_next c hostname, c, false)
  else
    let available := checkAvailability net hostname in
    (JBool available, updateCache t_next c hostname (JBool available), true).

(** The durations this class can give to an entry, as a set. *)
Definition duration_buckets : gset Z :=
  list_to_set (cacheDuration <$> result_classes).

End UiSiteChecker.

(** ** The rendered board

    The part of the document that the storage manager reads back: the
    column elements with their [dataset], and in each [.bookmark-list] the
    bookmark items and the subfolder groups, in document order. *)

Module Board.
Import SiteChecker ColumnManager KanbanRenderer.

(** A child of a [.bookmark-list]: the item of a bookmark, made by
    [createBookmarkItem] with [data-bookmark-id] set to the bookmark's id,
    or a [.subfolder-group] with its title and its bookmark items. *)
Inductive list_entry : Type :=
  | BookmarkItem (bookmark : node)
  | SubfolderGroup (title : string) (items : list node).

(** A [.kanban-column]. [dataset] holds strings: assigning [null] to
    [dataset.folderId] stores ["null"]. *)
Record column_element : Type := ColumnElement {
  columnType : string;
  folderId : string;
  header_title : string;
  header_count : nat;
  bookmarkList : list list_entry
}.

(** [bookmarkList.querySelectorAll('.bookmark-item')]: the bookmarks of all
    items below the list, those inside subfolder groups too. *)
Definition bookmark_items (l : list list_entry) : list node :=
  flat_map (fun e => match e with
                     | BookmarkItem bookmark => [bookmark]
                     | SubfolderGroup _ items => items
                     end) l.

(** [savedBookmarkOrder]: [None] is [null]; the keys are column ids. *)
Abbreviation bookmark_orders := (option (gmap string (list string))) (only parsing).

(** [savedBookmarkOrder && savedBookmarkOrder[key]]: an array, empty or
    not, is truthy. *)
Definition saved_for (savedBookmarkOrder : bookmark_orders) (key : string)
  : option (list string) :=
  match savedBookmarkOrder with
  | Some orders => orders !! key
  | None => None
  end.

(** [countBookmarksInFolder(folder)] *)
Fixpoint countBookmarksInFolder (folder : node) : nat :=
  match folder with
  | Node _ _ _ (Some children) =>
      (fix each (l : list node) : nat :=
         match l with
         | [] => 0
         | child :: l' =>
             (if has_url child then 1
              else match child with
                   | Node _ _ _ (Some _) => countBookmarksInFolder child
                   | Node _ _ _ None => 0
                   end)
             + each l'
         end) children
  | Node _ _ _ None => 0
  end.


Section Render.
(** [sortBookmarks(bookmarks)]: the array after [bookmarks.sort(...)] with
    the comparator on the tags of the titles. *)
Variable sortBookmarks : list node -> list node.

(** The functions come twice: first what each builds when it returns,
    then, with [_run] in the name, the call as it runs, with the throw of
    a [renderOrderedBookmarks] inside it. None of them catches. *)

(** [renderSubfolderGroup(folder, container, savedBookmarkOrder)]: the
    group appended to the list, [None] when it returns early. *)
Definition renderSubfolderGroup (folder : node) (savedBookmarkOrder : bookmark_orders)
  : option list_entry :=
  match node_children folder with
  | None => None
  | Some [] => None
  | Some children =>
      let subfolderKey := "subfolder-" +:+ node_id folder in
      Some (SubfolderGroup (node_title folder)
              match saved_for savedBookmarkOrder subfolderKey with
              | Some savedOrder => renderOrderedBookmarks children savedOrder
              | None => filter (fun child => has_url child) children
              end)
  end.

(** [renderFolderColumn(folder, container, savedBookmarkOrder)]: the
    column appended to the board. *)
Definition renderFolderColumn (folder : node) (savedBookmarkOrder : bookmark_orders)
  : column_element :=
  {| columnType := "folder";
     folderId := node_id folder;
     header_title := node_title folder;
     header_count := countBookmarksInFolder folder;
     bookmarkList :=
       match node_children folder with
       | Some children =>
           let bookmarks := sortBookmarks (filter (fun child => has_url child) children) in
           BookmarkItem <$>
             match saved_for savedBookmarkOrder (node_id folder) with
             | Some savedOrder => renderOrderedBookmarks bookmarks savedOrder
             | None => bookmarks
             end
       | None => []
       end |}.

(** [renderSpecialColumn(title, bookmarks, container, folderId, type,
    savedBookmarkOrder)]; a [null] [folderId] is [None]. *)
Definition renderSpecialColumn (title : string) (bookmarks : list node)
    (folder_id : option string) (type : string) (savedBookmarkOrder : bookmark_orders)
  : column_element :=
  let columnStorageId :=
    if String.eqb type "uncategorized" then Some "uncategorized" else folder_id in
  let directBookmarks :=
    sortBookmarks (filter (fun bookmark => has_url bookmark) bookmarks) in
  let saved :=
    match columnStorageId with
    | Some i => if String.eqb i "" then None else saved_for savedBookmarkOrder i
    | None => None
    end in
  {| columnType := type;
     folderId := default "null" folder_id;
     header_title := title;
     header_count := length bookmarks;
     bookmarkList :=
       (BookmarkItem <$>
          match saved with
          | Some savedOrder => renderOrderedBookmarks directBookmarks savedOrder
          | None => directBookmarks
          end)
       ++ omap (fun bookmark =>
                  if has_children bookmark
                  then renderSubfolderGroup bookmark savedBookmarkOrder
                  else None)
               bookmarks |}.

(** [renderColumn(columnData, container, savedBookmarkOrder)] of
    [KanbanRenderer]. *)
Definition renderColumn (savedBookmarkOrder : bookmark_orders) (columnData : column)
  : column_element :=
  match columnData with
  | FolderColumn data => renderFolderColumn data savedBookmarkOrder
  | UncategorizedColumn data =>
      renderSpecialColumn "Uncategorized" data None "uncategorized" savedBookmarkOrder
  | SpecialColumn data =>
      renderSpecialColumn (node_title data) (default [] (node_children data))
        (Some (node_id data)) "special" savedBookmarkOrder
  end.

(** The board that [processBookmarkTree] renders: the columns in the
    order given by [determineColumnOrder]. *)
Definition render_board (columnsData : list column)
    (savedColumnOrder : option (list string)) (savedBookmarkOrder : bookmark_orders)
  : list column_element :=
  renderColumn savedBookmarkOrder <$> determineColumnOrder columnsData savedColumnOrder.

(** [renderSubfolderGroup] as it runs. *)
Definition renderSubfolderGroup_run (folder : node) (savedBookmarkOrder : bookmark_orders)
  : outcome (option list_entry) :=
  match node_children folder with
  | None => Returned None
  | Some [] => Returned None
  | Some children =>
      let subfolderKey := "subfolder-" +:+ node_id folder in
      Throw.bind
        match saved_for savedBookmarkOrder subfolderKey with
        | Some savedOrder => renderOrderedBookmarks_run children savedOrder
        | None => Returned (filter (fun child => has_url child) children)
        end
        (fun items => Returned (Some (SubfolderGroup (node_title folder) items)))
  end.

(** [renderFolderColumn] as it runs. *)
Definition renderFolderColumn_run (folder : node) (savedBookmarkOrder : bookmark_orders)
  : outcome column_element :=
  Throw.bind
    match node_children folder with
    | Some children =>
        let bookmarks := sortBookmarks (filter (fun child => has_url child) children) in
        match saved_for savedBookmarkOrder (node_id folder) with
        | Some savedOrder => renderOrderedBookmarks_run bookmarks savedOrder
        | None => Returned bookmarks
        end
    | None => Returned []
    end
    (fun items =>
       Returned {| columnType := "folder";
                   folderId := node_id folder;
                   header_title := node_title folder;
                   header_count := countBookmarksInFolder folder;
                   bookmarkList := BookmarkItem <$> items |}).

(** [renderSpecialColumn] as it runs: the direct bookmarks first, then
    the subfolder groups in the order of [bookmarks]. *)
Definition renderSpecialColumn_run (title : string) (bookmarks : list node)
    (folder_id : option string) (type : string) (savedBookmarkOrder : bookmark_orders)
  : outcome column_element :=
  let columnStorageId :=
    if String.eqb type "uncategorized" then Some "uncategorized" else folder_id in
  let directBookmarks :=
    sortBookmarks (filter (fun bookmark => has_url bookmark) bookmarks) in
  let saved :=
    match columnStorageId with
    | Some i => if String.eqb i "" then None else saved_for savedBookmarkOrder i
    | None => None
    end in
  Throw.bind
    match saved with
    | Some savedOrder => renderOrderedBookmarks_run directBookmarks savedOrder
    | None => Returned directBookmarks
    end
    (fun items =>
       Throw.bind
         (Throw.for_each
            (fun bookmark =>
               if has_children bookmark
               then renderSubfolderGroup_run bookmark savedBookmarkOrder
               else Returned None)
            bookmarks)
         (fun groups =>
            Returned {| columnType := type;
                        folderId := default "null" folder_id;
                        header_title := title;
                        header_count := length bookmarks;
                        bookmarkList := (BookmarkItem <$> items) ++ omap id groups |})).

(** [renderColumn] of [KanbanRenderer] as it runs. *)
Definition renderColumn_run (savedBookmarkOrder : bookmark_orders) (columnData : column)
  : outcome column_element :=
  match columnData with
  | FolderColumn data => renderFolderColumn_run data savedBookmarkOrder
  | UncategorizedColumn data =>
      renderSpecialColumn_run "Uncategorized" data None "uncategorized" savedBookmarkOrder
  | SpecialColumn data =>
      renderSpecialColumn_run (node_title data) (default [] (node_children data))
        (Some (node_id data)) "special" savedBookmarkOrder
  end.

(** The loop over the columns in [processBookmarkTree] as it runs: the
    board, or the throw that leaves the page without the columns not yet
    rendered. *)
Definition render_board_run (columnsData : list column)
    (savedColumnOrder : option (list string)) (savedBookmarkOrder : bookmark_orders)
  : outcome (list column_element) :=
  Throw.for_each (renderColumn_run savedBookmarkOrder)
    (determineColumnOrder columnsData savedColumnOrder).
End Render.

(** Saved orders in which no id names a member of [Object.prototype]:
    so are all orders that [collectBookmarkOrderFromDOM] has read off a
    board, whose ids are those of bookmarks. *)
Definition prototype_free (savedBookmarkOrder : bookmark_orders) : Prop :=
  forall key savedOrder,
    saved_for savedBookmarkOrder key = Some savedOrder ->
    Forall (fun bookmarkId => JsObject.inherited bookmarkId = false) savedOrder.

(** The nodes a column shows: its direct children and the children of
    those, one level down. *)
Definition column_children (col : column) : list node :=
  match col with
  | FolderColumn data | SpecialColumn data => default [] (node_children data)
  | UncategorizedColumn data => data
  end.

Definition shown_nodes (col : column) : list node :=
  column_children col
  ++ flat_map (fun child => default [] (node_children child)) (column_children col).

(** The bookmarks a column has to show: the direct children with a URL
    and, in a special column, those of its subfolders. *)
Definition expected_items (col : column) : list node :=
  let direct := filter (fun child => has_url child) (column_children col) in
  match col with
  | FolderColumn _ => direct
  | UncategorizedColumn _ | SpecialColumn _ =>
      direct
      ++ flat_map (fun child => filter (fun b => has_url b)
                                  (default [] (node_children child)))
                  (column_children col)
  end.

(** The ids of all nodes below a column. *)
Definition column_ids (col : column) : list string :=
  match col with
  | FolderColumn data | SpecialColumn data => all_ids data
  | UncategorizedColumn data => concat (all_ids <$> data)
  end.


(** A tree to try the statements on: a folder with a subfolder in the
    bookmark bar, a bookmark beside it, and "Other bookmarks" with a
    bookmark and a subfolder. *)
Definition sample_tree : node :=
  Node "0" "" None
    (Some [ Node "1" "Bookmarks bar" None
              (Some [ Node "5" "Work" None
                        (Some [ Node "7" "News" (Some "https://news.example/") None;
                                Node "10" "Mail" (Some "https://mail.example/") None;
                                Node "8" "Archive" None
                                  (Some [ Node "11" "Old"
                                            (Some "https://old.example/") None ]) ]);
                      Node "6" "Home page" (Some "https://home.example/") None ]);
            Node "2" "Other bookmarks" None
              (Some [ Node "20" "Wiki" (Some "https://wiki.example/") None;
                      Node "21" "Reading" None
                        (Some [ Node "23" "Paper" (Some "https://paper.example/") None;
                                Node "22" "Blog" (Some "https://blog.example/") None ])
                    ]) ]).

(** Its columns, in the order of [processBookmarkTree]. *)
Definition sample_tree_columns : list column :=
  default [] (processBookmarkTree sample_tree).

(** A saved bookmark order for the folder ["5"]. *)
Definition sample_orders : option (gmap string (list string)) :=
  Some {[ "5" := ["10"; "7"] ]}.

End Board.

(** ** [js/modules/storageManager.js] *)

Module StorageManager.
Import Board.

(** [saveColumnOrder(columns)]: the array handed to [chrome.storage]. *)
Definition saveColumnOrder (columns : list column_element) : list string :=
  omap (fun column =>
          if String.eqb (columnType column) "uncategorized" then Some "uncategorized"
          else if String.eqb (folderId column) "" then None
          else Some (folderId column))
       columns.

(** The callback of [columns.forEach] in [collectBookmarkOrderFromDOM]. *)
Definition collect_column (bookmarkOrders : gmap string (list string))
    (column : column_element) : gmap string (list string) :=
  let columnId :=
    if String.eqb (columnType column) "uncategorized" then "uncategorized"
    else folderId column in
  if String.eqb columnId "" then bookmarkOrders
  else
    let bookmarkIds := node_id <$> bookmark_items (bookmarkList column) in
    if bool_decide (0 < length bookmarkIds)
    then <[columnId := bookmarkIds]> bookmarkOrders
    else bookmarkOrders.

(** [collectBookmarkOrderFromDOM()] on the columns of the document. *)
Definition collectBookmarkOrderFromDOM (columns : list column_element)
  : gmap string (list string) :=
  foldl collect_column ∅ columns.

(** The key under which [collectBookmarkOrderFromDOM] files a column. *)
Definition element_key (column : column_element) : string :=
  if String.eqb (columnType column) "uncategorized" then "uncategorized"
  else folderId column.

(** The ids it reads off a column. *)
Definition element_ids (column : column_element) : list string :=
  node_id <$> bookmark_items (bookmarkList column).

(** Orders without an entry for a subfolder group. *)
Definition no_subfolder_keys (savedBookmarkOrder : option (gmap string (list string)))
  : Prop :=
  forall i, saved_for savedBookmarkOrder ("subfolder-" +:+ i) = None.

End StorageManager.

(** ** The page after a check: [SiteCheckManager] *)

Module SiteCheckManager.

(** [updateBookmarkStatus(siteStatus)] for one bookmark item: the
    [data-site-status] attribute it is left with, [None] when the attribute
    is removed. [status] is [siteStatus[bookmarkId]], [None] when the
    object has no such property. *)
Definition site_status_mark (status : option jsval) : option string :=
  match status with
  | Some (JBool false) => Some "dead"
  | Some (JStr s) =>
      if String.eqb s "certificate-error" then Some "cert-error"
      else if String.eqb s "no-https" then Some "no-https"
      else None
  | _ => None
  end.

(** [Object.values(siteStatus).filter(status => !status).length] of
    [handleCheckCompleted]. *)
Definition deadLinks (siteStatus : gmap string jsval) : nat :=
  length (filter (fun status => negb (truthy status) = true)
                 (snd <$> map_to_list siteStatus)).

(** The number of entries whose bookmark item is marked ["dead"]. *)
Definition marked_dead (siteStatus : gmap string jsval) : nat :=
  length (filter (fun status => site_status_mark (Some status) = Some "dead")
                 (snd <$> map_to_list siteStatus)).

End SiteCheckManager.

(** ** [js/modules/utils.js]: the colour of a tag *)

Module Utils.
Local Open Scope Z_scope.

(** [ToInt32]: the integer modulo [2^32], read as a signed 32-bit number. *)
Definition to_int32 (x : Z) : Z := (x + 2 ^ 31) mod 2 ^ 32 - 2 ^ 31.

(** [x << 5] *)
Definition shl5 (x : Z) : Z := to_int32 (to_int32 x * 2 ^ 5).

(** The loop of [getTagColor], from the character at hand on; the
    characters of a tag are one-byte characters. *)
Fixpoint hash_loop (tag : string) (hash : Z) : Z :=
  match tag with
  | EmptyString => hash
  | String c tag' => hash_loop tag' (Z.of_N (N_of_ascii c) + (shl5 hash - hash))
  end.

(** [getTagColor(tag)]: twice the hue (the hue is a multiple of one
    half), the saturation and the lightness that are printed into the
    [hsl(...)] string. [%] is the remainder with the sign of the dividend.
    The numbers of the source are doubles; they hold these integers
    exactly as long as [hash * 275] stays below [2^53] in absolute value. *)
Definition getTagColor (tag : string) : Z * Z * Z :=
  let hash := hash_loop tag 0 in
  let hue2 := Z.rem (hash * 275) 720 in
  let saturation := 60 + Z.rem hash 21 in
  let lightness := 45 + Z.rem hash 11 in
  (hue2, saturation, lightness).

End Utils.

(** * Properties *)

(** ** Facts about insertion-ordered maps *)

Module JsMapFacts.
Import JsMap.

Section OneMap.
Context {V : Type}.
Implicit Types (m : JsMap.t V) (k : string) (v : V).

Lemma get_set_eq m k v : get (set m k v) k = Some v.
Proof.
  induction m as [|[k' v'] m IH]; simpl.
  - by rewrite decide_True.
  - destruct (decide (k' = k)) as [->|Hne]; simpl.
    + by rewrite decide_True.
    + by rewrite decide_False.
Qed.

Lemma get_set_ne m k k' v : k ≠ k' → get (set m k v) k' = get m k'.
Proof.
  intros Hne. induction m as [|[k0 v0] m IH]; simpl.
  - by rewrite decide_False.
  - destruct (decide (k0 = k)) as [->|Hk]; simpl.
    + by rewrite !decide_False.
    + destruct (decide (k0 = k')); done.
Qed.

Lemma get_Some_elem m k v : get m k = Some v → (k, v) ∈ m.
Proof.
  induction m as [|[k' v'] m IH]; csimpl; [done|].
  destruct (decide (k' = k)) as [->|Hne].
  - intros [= ->]. left.
  - intros H. right. by apply IH.
Qed.

Lemma get_None_keys m k : get m k = None ↔ k ∉ keys m.
Proof.
  unfold keys. induction m as [|[k' v'] m IH]; simpl.
  - split; [intros _; apply not_elem_of_nil | done].
  - rewrite not_elem_of_cons. destruct (decide (k' = k)) as [->|Hne].
    + split; [done | intros [? _]; done].
    + rewrite IH. split; [intros ?; split; [congruence | done] | intros [_ ?]; done].
Qed.

Lemma elem_NoDup_get m k v : NoDup (keys m) → (k, v) ∈ m → get m k = Some v.
Proof.
  unfold keys. induction m as [|[k' v'] m IH]; simpl.
  - intros _ H. by apply elem_of_nil in H.
  - rewrite NoDup_cons. intros [Hk Hnd] [[= -> ->]|Hin]%elem_of_cons.
    + by rewrite decide_True.
    + rewrite decide_False; [by apply IH|].
      intros ->. apply Hk. apply list_elem_of_fmap. by exists (k, v).
Qed.

Lemma get_delete_eq m k : get (delete m k) k = None.
Proof.
  induction m as [|[k' v'] m IH]; csimpl; [done|].
  destruct (decide (k' = k)) as [->|Hne]; csimpl; [done|].
  by rewrite decide_False.
Qed.

Lemma get_delete_ne m k k' : k ≠ k' → get (delete m k) k' = get m k'.
Proof.
  intros Hne. induction m as [|[k0 v0] m IH]; csimpl; [done|].
  destruct (decide (k0 = k)) as [->|Hk]; simpl.
  - by rewrite decide_False.
  - by rewrite IH.
Qed.

Lemma keys_delete m k : keys (delete m k) = filter (λ x, x ≠ k) (keys m).
Proof.
  unfold keys. induction m as [|[k' v'] m IH]; csimpl; [done|].
  rewrite filter_cons. simpl.
  destruct (decide (k' = k)) as [->|Hne].
  - rewrite decide_False; [done | intros H; by apply H].
  - rewrite decide_True by done. csimpl. by rewrite IH.
Qed.

Lemma get_foldl_delete m (ks : list string) k :
  get (foldl delete m ks) k = if decide (k ∈ ks) then None else get m k.
Proof.
  revert m. induction ks as [|k0 ks IH]; intros m.
  - case_decide as H; [by apply elem_of_nil in H | done].
  - cbn [foldl]. rewrite IH. destruct (decide (k ∈ ks)) as [Hin|Hnin].
    + rewrite decide_True; [done | by right].
    + destruct (decide (k = k0)) as [->|Hne].
      * rewrite decide_True by left. apply get_delete_eq.
      * rewrite decide_False; [by apply get_delete_ne|].
        intros [?|?]%elem_of_cons; done.
Qed.

Lemma size_keys m : size m = length (keys m).
Proof. unfold size, keys. by rewrite length_fmap. Qed.
End OneMap.

(** Two maps with the same keys keep the same keys under the same updates. *)
Lemma keys_set_congr {V W : Type} (m1 : JsMap.t V) (m2 : JsMap.t W) k v w :
  keys m1 = keys m2 → keys (set m1 k v) = keys (set m2 k w).
Proof.
  unfold keys. revert m2.
  induction m1 as [|[k1 v1] m1 IH]; intros [|[k2 v2] m2]; simpl; try done.
  intros [= -> Hk]. destruct (decide (k2 = k)); simpl; f_equal; auto.
Qed.

Lemma keys_set_cases {V : Type} (m : JsMap.t V) k v :
  keys (set m k v) = if decide (k ∈ keys m) then keys m else keys m ++ [k].
Proof.
  unfold keys. induction m as [|[k' v'] m IH].
  - case_decide as H; [by apply elem_of_nil in H | done].
  - cbn [set]. destruct (decide (k' = k)) as [->|Hne]; csimpl.
    + rewrite decide_True; [done | left].
    + rewrite IH. destruct (decide (k ∈ m.*1)) as [Hin|Hnin].
      * rewrite decide_True; [done | by right].
      * rewrite decide_False; [done|]. intros [?|?]%elem_of_cons; done.
Qed.

Lemma keys_set_NoDup {V : Type} (m : JsMap.t V) k v :
  NoDup (keys m) → NoDup (keys (set m k v)).
Proof.
  intros Hnd. rewrite keys_set_cases. case_decide; [done|].
  apply NoDup_app. split_and!; [done | | apply NoDup_singleton].
  intros x Hx [->|Habs]%elem_of_cons; [done | by apply elem_of_nil in Habs].
Qed.

Lemma keys_delete_NoDup {V : Type} (m : JsMap.t V) k :
  NoDup (keys m) → NoDup (keys (delete m k)).
Proof. intros Hnd. rewrite keys_delete. by apply NoDup_filter. Qed.

Lemma size_set_le {V : Type} (m : JsMap.t V) k v :
  (size (set m k v) ≤ S (size m))%nat.
Proof.
  rewrite !size_keys, keys_set_cases. case_decide; [lia|].
  rewrite length_app. simpl. lia.
Qed.

Lemma delete_filter {V} (m : JsMap.t V) k :
  delete m k = filter (λ e, e.1 ≠ k) m.
Proof.
  induction m as [|[k' v'] m IH]; [done|].
  cbn [delete]. rewrite filter_cons. simpl.
  destruct (decide (k' = k)) as [->|Hne].
  - rewrite decide_False; [done | intros H; by apply H].
  - rewrite decide_True by done. by rewrite IH.
Qed.

Lemma foldl_delete_filter {V} (m : JsMap.t V) (ks : list string) :
  foldl delete m ks = filter (λ e, e.1 ∉ ks) m.
Proof.
  revert m. induction ks as [|k ks IH]; intros m; cbn [foldl].
  - induction m as [|e m IHm]; [done|].
    rewrite filter_cons, decide_True by apply not_elem_of_nil. by rewrite <- IHm.
  - rewrite IH, delete_filter, list_filter_filter.
    apply list_filter_iff. intros e. rewrite not_elem_of_cons. tauto.
Qed.

End JsMapFacts.

(** ** Facts about the stable sort *)

Module JsArrayFacts.
Import JsArray.

Section Sort.
Context {A : Type} (key : A → Z).

#[local] Instance key_le_trans : Transitive (key_le key).
Proof. unfold key_le. intros x y z. lia. Qed.

Lemma insert_by_Permutation e l : insert_by key e l ≡ₚ e :: l.
Proof.
  induction l as [|e' l IH]; simpl; [done|].
  case_bool_decide; [done|]. rewrite IH. apply Permutation_swap.
Qed.

Lemma sort_by_Permutation l : sort_by key l ≡ₚ l.
Proof.
  induction l as [|e l IH]; simpl; [done|].
  by rewrite insert_by_Permutation, IH.
Qed.

Lemma insert_by_Sorted e l : Sorted (key_le key) l → Sorted (key_le key) (insert_by key e l).
Proof.
  induction 1 as [|e' l Hs IH Hhd]; simpl.
  - by repeat constructor.
  - case_bool_decide as Hle.
    + constructor; [by constructor|]. by constructor.
    + constructor; [done|].
      destruct Hhd as [|e'' l' Hle']; simpl.
      * constructor. unfold key_le. lia.
      * case_bool_decide; constructor; unfold key_le in *; lia.
Qed.

Lemma sort_by_StronglySorted l : StronglySorted (key_le key) (sort_by key l).
Proof.
  apply Sorted_StronglySorted; [apply _|].
  induction l as [|e l IH]; simpl; [constructor|].
  by apply insert_by_Sorted.
Qed.

(** Stability: entries with equal keys keep their order. *)
Lemma insert_by_filter_key e l (z : Z) :
  filter (λ x, key x = z) (insert_by key e l)
  = filter (λ x, key x = z) (e :: l).
Proof.
  induction l as [|e' l IH]; simpl; [done|].
  case_bool_decide as Hle; [done|].
  rewrite (filter_cons _ e'), IH, !filter_cons.
  destruct (decide (key e' = z)), (decide (key e = z)); try done. lia.
Qed.

Lemma sort_by_stable l (z : Z) :
  filter (λ x, key x = z) (sort_by key l) = filter (λ x, key x = z) l.
Proof.
  induction l as [|e l IH]; simpl; [done|].
  by rewrite insert_by_filter_key, !filter_cons, IH.
Qed.
End Sort.

End JsArrayFacts.

(** ** The status cache: durations and expiry *)

Module CacheFacts.
Import JsMapFacts SiteChecker.
Local Open Scope Z_scope.

Lemma checkTimes_foldl_forget c hosts :
  checkTimes (foldl forget c hosts) = foldl JsMap.delete (checkTimes c) hosts.
Proof. revert c. induction hosts as [|h hosts IH]; intros c; [done|]. apply IH. Qed.

Lemma siteStatus_foldl_forget c hosts :
  siteStatus (foldl forget c hosts) = foldl JsMap.delete (siteStatus c) hosts.
Proof. revert c. induction hosts as [|h hosts IH]; intros c; [done|]. apply IH. Qed.

Lemma elem_of_expiredHosts now c h :
  h ∈ expiredHosts now c ↔
  ∃ t, (h, t) ∈ checkTimes c ∧ now - t > getCacheDuration (status_of c h).
Proof.
  unfold expiredHosts, JsMap.entries. rewrite list_elem_of_omap. split.
  - intros [[h' t] [Hin Hsome]]. simpl in Hsome.
    case_bool_decide; [|done]. injection Hsome as <-. by exists t.
  - intros [t [Hin Hexp]]. exists (h, t). split; [done|]. simpl.
    by rewrite bool_decide_eq_true_2.
Qed.

(** C3. Each of the four result classes has its own entry of
    [CACHE_DURATION] (24 hours for [true], one hour for [false], 12 hours
    for ['certificate-error'] and for ['no-https']), any other stored value
    gets the failure duration, and a cached entry, stored with status [s]
    and check time [lastCheck], is treated as expired by [shouldRecheck],
    [isCacheValid] and [cleanupCache] exactly when its age exceeds the
    duration of the stored status [s]. *)
Theorem expiry_by_result_class (c : cache) (h : string) (s : jsval)
    (lastCheck now : Z) :
  NoDup (JsMap.keys (checkTimes c)) →
  JsMap.get (siteStatus c) h = Some s →
  JsMap.get (checkTimes c) h = Some lastCheck →
  (getCacheDuration (JBool true) = 86400000
   ∧ getCacheDuration (JBool false) = 3600000
   ∧ getCacheDuration (JStr "certificate-error") = 43200000
   ∧ getCacheDuration (JStr "no-https") = 43200000
   ∧ ∀ s', s' ≠ JBool true → s' ≠ JStr "certificate-error" → s' ≠ JStr "no-https" →
           getCacheDuration s' = 3600000)
  ∧ (shouldRecheck now c h = true ↔ now - lastCheck > getCacheDuration s)
  ∧ (isCacheValid now c h = false ↔ now - lastCheck > getCacheDuration s)
  ∧ getCachedStatus now c h
    = (if bool_decide (now - lastCheck > getCacheDuration s) then JNull else s)
  ∧ (JsMap.get (checkTimes (cleanupCache now c)) h = None
     ↔ now - lastCheck > getCacheDuration s)
  ∧ (JsMap.get (siteStatus (cleanupCache now c)) h = None
     ↔ now - lastCheck > getCacheDuration s)
  ∧ (now - lastCheck <= getCacheDuration s →
     JsMap.get (checkTimes (cleanupCache now c)) h = Some lastCheck
     ∧ JsMap.get (siteStatus (cleanupCache now c)) h = Some s).
Proof.
  intros Hnd Hs Hget.
  assert (Hst : status_of c h = s) by (unfold status_of; by rewrite Hs).
  assert (Hexp : h ∈ expiredHosts now c ↔ now - lastCheck > getCacheDuration s).
  { rewrite elem_of_expiredHosts, Hst. split.
    - intros (t & Hin & Hgt). apply (elem_NoDup_get _ _ _ Hnd) in Hin. congruence.
    - intros Hgt. exists lastCheck. split; [by apply get_Some_elem | done]. }
  split_and!; try done.
  - intros s' H1 H2 H3. unfold getCacheDuration. by rewrite !decide_False.
  - unfold shouldRecheck. rewrite Hget, Hst. cbv zeta. apply bool_decide_eq_true.
  - unfold isCacheValid. rewrite Hget, Hst. cbv zeta.
    rewrite bool_decide_eq_false. lia.
  - unfold getCachedStatus, isCacheValid. rewrite Hget, Hst. cbv zeta.
    repeat case_bool_decide; try done; lia.
  - unfold cleanupCache. rewrite checkTimes_foldl_forget, get_foldl_delete.
    case_decide as Hin; [by rewrite <- Hexp|].
    rewrite Hget. split; [done|]. by rewrite <- Hexp.
  - unfold cleanupCache. rewrite siteStatus_foldl_forget, get_foldl_delete.
    case_decide as Hin; [by rewrite <- Hexp|].
    rewrite Hs. split; [done|]. by rewrite <- Hexp.
  - intros Hle. unfold cleanupCache.
    rewrite checkTimes_foldl_forget, siteStatus_foldl_forget, !get_foldl_delete.
    destruct (decide (h ∈ expiredHosts now c)) as [Hin|_]; [|by split].
    apply Hexp in Hin. lia.
Qed.

Lemma expiry_by_result_class_witness :
  let c := updateCache 0 (updateCache 0 new_cache "gone.example" (JBool false))
             "plain.example" (JStr "no-https") in
  shouldRecheck 3600001 c "gone.example" = true
  ∧ shouldRecheck 3600001 c "plain.example" = false
  ∧ JsMap.get (siteStatus (cleanupCache 3600001 c)) "gone.example" = None
  ∧ JsMap.get (siteStatus (cleanupCache 3600001 c)) "plain.example"
    = Some (JStr "no-https").
Proof.
  intros c.
  destruct (expiry_by_result_class c "gone.example" (JBool false) 0 3600001)
    as (_ & Hr1 & _ & _ & _ & Hc1 & _);
    [apply (bool_decide_unpack _); by vm_compute | reflexivity | reflexivity |].
  destruct (expiry_by_result_class c "plain.example" (JStr "no-https") 0 3600001)
    as ((_ & _ & _ & Hd & _) & Hr2 & _ & _ & _ & _ & Hk);
    [apply (bool_decide_unpack _); by vm_compute | reflexivity | reflexivity |].
  split_and!.
  - apply Hr1. by vm_compute.
  - apply not_true_is_false. intros E. apply Hr2 in E. rewrite Hd in E. lia.
  - apply Hc1. by vm_compute.
  - apply Hk. rewrite Hd. lia.
Defined.

(** C4, counterexample: no two values cover every duration that
    [getCacheDuration] returns. *)
Lemma cache_durations_not_two :
  ¬ ∃ d1 d2 : Z, ∀ s : jsval, getCacheDuration s = d1 ∨ getCacheDuration s = d2.
Proof.
  intros (d1 & d2 & H).
  pose proof (H (JBool true)) as H1. pose proof (H (JBool false)) as H2.
  pose proof (H (JStr "no-https")) as H3.
  vm_compute in H1, H2, H3. destruct H1, H2, H3; congruence.
Qed.

(** C4, amended. The durations of the four classes fall into exactly three
    buckets: 24 hours (success), 12 hours (certificate error and no HTTPS)
    and 1 hour (failure); every status gets one of the three. *)
Theorem cache_durations_three :
  size duration_buckets = 3%nat
  ∧ duration_buckets = {[ 86400000; 43200000; 3600000 ]}
  ∧ ∀ s : jsval, getCacheDuration s ∈ duration_buckets.
Proof.
  split_and!.
  - by vm_compute.
  - by vm_compute.
  - intros s. unfold getCacheDuration. repeat case_decide; by vm_compute.
Qed.

Lemma get_updateCache_status now c h s :
  JsMap.get (siteStatus (updateCache now c h s)) h = Some s.
Proof. unfold updateCache, store. simpl. apply get_set_eq. Qed.

Lemma get_updateCache_time now c h s :
  JsMap.get (checkTimes (updateCache now c h s)) h = Some now.
Proof. unfold updateCache, store. simpl. apply get_set_eq. Qed.

Lemma status_of_updateCache now c h s : status_of (updateCache now c h s) h = s.
Proof. unfold status_of. by rewrite get_updateCache_status. Qed.

(** C8. After [updateCache(h, s)] at time [t0], at any time [t] whose
    distance to [t0] does not exceed the duration of [s], the cached status
    of [h] is [s] and no recheck is needed; a [checkSite(h)] whose clock
    readings lie in that window returns without calling
    [checkAvailability] and leaves the cache as it is. *)
Theorem cache_round_trip (c : cache) (h : string) (s : jsval) (t0 t : Z)
    (env : check_env) :
  t - t0 <= getCacheDuration s →
  env_t_recheck env - t0 <= getCacheDuration s →
  env_t_next env - t0 <= getCacheDuration s →
  let c' := updateCache t0 c h s in
  getCachedStatus t0 c' h = s
  ∧ shouldRecheck t0 c' h = false
  ∧ getCachedStatus t c' h = s
  ∧ shouldRecheck t c' h = false
  ∧ (checkSite env c' h).2 = false
  ∧ (checkSite env c' h).1.2 = c'
  ∧ (isLocalNetwork h = false → (checkSite env c' h).1.1 = s).
Proof.
  intros Ht Hr Hn c'.
  assert (Hdur : 0 <= getCacheDuration s).
  { unfold getCacheDuration. repeat case_decide; by vm_compute. }
  assert (Hvalid : ∀ u, u - t0 <= getCacheDuration s → isCacheValid u c' h = true).
  { intros u Hu. unfold isCacheValid. subst c'.
    rewrite get_updateCache_time. simpl. rewrite status_of_updateCache.
    by apply bool_decide_eq_true. }
  assert (Hre : ∀ u, u - t0 <= getCacheDuration s → shouldRecheck u c' h = false).
  { intros u Hu. unfold shouldRecheck. subst c'.
    rewrite get_updateCache_time. simpl. rewrite status_of_updateCache.
    apply bool_decide_eq_false. lia. }
  assert (Hst : status_of c' h = s) by apply status_of_updateCache.
  unfold getCachedStatus. rewrite !Hvalid, !Hre, Hst by lia.
  split_and!; try done.
  - unfold checkSite, checkSite_start.
    destruct (isLocalNetwork h); [done|]. by rewrite Hre.
  - unfold checkSite, checkSite_start.
    destruct (isLocalNetwork h); [done|]. by rewrite Hre.
  - intros Hloc. unfold checkSite, checkSite_start, getCachedStatus.
    by rewrite Hloc, Hre, Hvalid, Hst.
Qed.

Lemma cache_round_trip_witness :
  let c' := updateCache 1000 new_cache "example.com" (JBool false) in
  getCachedStatus (1000 + CACHE_FAILURE) c' "example.com" = JBool false
  ∧ shouldRecheck (1000 + CACHE_FAILURE) c' "example.com" = false.
Proof.
  pose proof (cache_round_trip new_cache "example.com" (JBool false) 1000
                (1000 + CACHE_FAILURE)
                (CheckEnv (Network (λ _, None) (λ _, Returned true)) 1000 1001 false))
    as H.
  simpl in H. intros c'.
  destruct H as (_ & _ & H3 & H4 & _); [by vm_compute | by vm_compute | by vm_compute |].
  split; [exact H3 | exact H4].
Defined.

(** The part of [checkSite] after the [await]: whatever the cache has
    become meanwhile, the status returned is the one stored, with the time
    read by [updateCache]; a rejected race stores [false]. *)
Lemma checkSite_settle_records (t : Z) (settled : outcome jsval) (c : cache)
    (h : string) :
  let r := checkSite_settle t settled c h in
  JsMap.get (siteStatus r.2) h = Some r.1
  ∧ JsMap.get (checkTimes r.2) h = Some t
  ∧ r.1 = match settled with Returned status => status | Thrown _ => JBool false end.
Proof.
  destruct settled; cbn [checkSite_settle fst snd];
    by rewrite get_updateCache_status, get_updateCache_time.
Qed.

(** C6. For a hostname that is not local and whose cache entry is absent
    or expired, [checkSite] calls [checkAvailability]; when the check
    throws or the timeout wins the race it returns [false] and the cache
    holds [false] for the hostname with the time just read; when the check
    returns in time, its status is returned; in every case the status
    returned is the one the cache then holds. *)
Theorem checkSite_failure_cached (env : check_env) (c : cache) (h : string) :
  isLocalNetwork h = false →
  (JsMap.get (checkTimes c) h = None
   ∨ ∃ lastCheck, JsMap.get (checkTimes c) h = Some lastCheck
       ∧ env_t_recheck env - lastCheck > getCacheDuration (status_of c h)) →
  let check := checkAvailability (env_net env) h in
  let r := checkSite env c h in
  r.2 = true
  ∧ JsMap.get (siteStatus r.1.2) h = Some r.1.1
  ∧ JsMap.get (checkTimes r.1.2) h = Some (env_t_next env)
  ∧ ((env_timed_out env = true ∨ ∃ e, check = Thrown e) →
       r.1.1 = JBool false
       ∧ JsMap.get (siteStatus r.1.2) h = Some (JBool false))
  ∧ (∀ status, env_timed_out env = false → check = Returned status →
       r.1.1 = status)
  ∧ TOTAL_CHECK_TIMEOUT = 5000.
Proof.
  intros Hloc Hstale check r.
  assert (Hre : shouldRecheck (env_t_recheck env) c h = true).
  { unfold shouldRecheck. destruct Hstale as [->|(last & -> & Hexp)]; [done|].
    simpl. by apply bool_decide_eq_true. }
  subst r. unfold checkSite, checkSite_start. rewrite Hloc, Hre. simpl.
  pose proof (checkSite_settle_records (env_t_next env)
                (race (env_timed_out env) check) c h) as (H1 & H2 & H3).
  fold check. split_and!; try done.
  - intros Hfail. assert (Hv : (checkSite_settle (env_t_next env)
        (race (env_timed_out env) check) c h).1 = JBool false).
    { rewrite H3. unfold race. destruct Hfail as [->|[e ->]]; [done|].
      by destruct (env_timed_out env). }
    split; [done|]. by rewrite <- Hv.
  - intros status Hto Hret. rewrite H3. unfold race. by rewrite Hto, Hret.
Qed.

Lemma checkSite_failure_cached_witness :
  let env := CheckEnv (Network (λ _, Some (JsError "TypeError" "Failed to fetch"))
                               (λ _, Returned false)) 5000 9000 true in
  (checkSite env new_cache "example.com").1.1 = JBool false
  ∧ JsMap.get (siteStatus (checkSite env new_cache "example.com").1.2) "example.com"
    = Some (JBool false).
Proof.
  intros env.
  pose proof (checkSite_failure_cached env new_cache "example.com") as H.
  destruct H as (_ & _ & _ & H & _); [by vm_compute | by left |].
  apply H. by left.
Defined.

End CacheFacts.

Module CacheSizeFacts.
Import JsMapFacts JsArrayFacts SiteChecker.
Local Open Scope Z_scope.

Lemma foldl_forget_fst c (l : list (string * Z)) :
  foldl (λ c e, forget c e.1) c l = foldl forget c l.*1.
Proof. revert c. induction l as [|e l IH]; intros c; [done|]. apply IH. Qed.

Lemma checkTimes_limit c :
  checkTimes (limitCacheSize c)
  = filter (λ e, e.1 ∉ (toRemove c).*1) (checkTimes c).
Proof.
  unfold limitCacheSize.
  by rewrite foldl_forget_fst, CacheFacts.checkTimes_foldl_forget, foldl_delete_filter.
Qed.

Lemma siteStatus_limit c :
  siteStatus (limitCacheSize c)
  = filter (λ e, e.1 ∉ (toRemove c).*1) (siteStatus c).
Proof.
  unfold limitCacheSize.
  by rewrite foldl_forget_fst, CacheFacts.siteStatus_foldl_forget, foldl_delete_filter.
Qed.

Lemma keys_filter_not_in {V} (R : list string) (m : JsMap.t V) :
  JsMap.keys (filter (λ e, e.1 ∉ R) m) = filter (λ x, x ∉ R) (JsMap.keys m).
Proof.
  unfold JsMap.keys. induction m as [|[k v] m IH]; [done|].
  rewrite fmap_cons, !filter_cons. simpl. case_decide; csimpl; by rewrite IH.
Qed.

Lemma toRemove_sorted_prefix c :
  sort_entries (checkTimes c)
  = toRemove c ++ drop removeCount (sort_entries (checkTimes c)).
Proof. unfold toRemove, JsMap.entries. by rewrite take_drop. Qed.

Lemma removeCount_eq : removeCount = 100%nat.
Proof. reflexivity. Qed.

Lemma length_toRemove c :
  length (toRemove c) = (removeCount `min` JsMap.size (checkTimes c))%nat.
Proof.
  unfold toRemove, JsMap.entries, sort_entries, JsMap.size.
  by rewrite length_take, (Permutation_length (sort_by_Permutation snd _)).
Qed.

Lemma toRemove_subseteq c : toRemove c ⊆ checkTimes c.
Proof.
  intros e He. unfold toRemove, JsMap.entries, sort_entries in He.
  apply subseteq_take in He. by rewrite sort_by_Permutation in He.
Qed.

Lemma toRemove_keys_NoDup c :
  NoDup (JsMap.keys (checkTimes c)) → NoDup (toRemove c).*1.
Proof.
  intros Hnd. unfold toRemove, JsMap.entries, sort_entries.
  rewrite fmap_take. eapply sublist_NoDup; [|apply sublist_take].
  by rewrite (sort_by_Permutation snd (checkTimes c)).
Qed.

(** The entries kept are those of the sorted array after the prefix. *)
Lemma kept_in_suffix c k :
  NoDup (JsMap.keys (checkTimes c)) →
  k ∈ checkTimes (limitCacheSize c) →
  k ∈ drop removeCount (sort_entries (checkTimes c)).
Proof.
  intros Hnd. rewrite checkTimes_limit, list_elem_of_filter. intros [Hk Hin].
  assert (Hs : k ∈ sort_entries (checkTimes c)).
  { unfold sort_entries. by rewrite sort_by_Permutation. }
  rewrite toRemove_sorted_prefix in Hs. apply elem_of_app in Hs as [Hs|Hs]; [|done].
  exfalso. apply Hk. apply list_elem_of_fmap. by exists k.
Qed.

Lemma removed_oldest c r k :
  NoDup (JsMap.keys (checkTimes c)) →
  r ∈ toRemove c → k ∈ checkTimes (limitCacheSize c) → r.2 <= k.2.
Proof.
  intros Hnd Hr Hk. apply kept_in_suffix in Hk; [|done].
  pose proof (sort_by_StronglySorted snd (checkTimes c)) as Hs.
  fold (sort_entries (checkTimes c)) in Hs.
  rewrite toRemove_sorted_prefix in Hs.
  exact (StronglySorted_app_1_elem_of _ _ _ _ _ Hs Hr Hk).
Qed.

Lemma removed_kept_Permutation c :
  NoDup (JsMap.keys (checkTimes c)) →
  checkTimes c ≡ₚ toRemove c ++ checkTimes (limitCacheSize c).
Proof.
  intros Hnd. rewrite checkTimes_limit.
  rewrite <- (filter_app_complement (λ e, e.1 ∈ (toRemove c).*1) (checkTimes c)) at 1.
  apply Permutation_app; [|done].
  assert (Hnd' : NoDup (checkTimes c)).
  { eapply NoDup_fmap_1. exact Hnd. }
  apply NoDup_Permutation.
  - by apply NoDup_filter.
  - eapply NoDup_fmap_1. by apply toRemove_keys_NoDup.
  - intros [h t]. rewrite list_elem_of_filter. simpl. split.
    + intros [Hin Hel]. apply list_elem_of_fmap in Hin as [[h' t'] [Heq Hr]].
      simpl in Heq. subst h'.
      assert (t' = t) as ->; [|done].
      apply toRemove_subseteq in Hr.
      apply (elem_NoDup_get _ _ _ Hnd) in Hr, Hel. congruence.
    + intros Hr. split; [|by apply toRemove_subseteq].
      apply list_elem_of_fmap. by exists (h, t).
Qed.

Lemma limit_keys c :
  JsMap.keys (siteStatus c) = JsMap.keys (checkTimes c) →
  JsMap.keys (siteStatus (limitCacheSize c))
  = JsMap.keys (checkTimes (limitCacheSize c)).
Proof.
  intros Hk. rewrite checkTimes_limit, siteStatus_limit.
  by rewrite !keys_filter_not_in, Hk.
Qed.

Lemma limit_NoDup c :
  NoDup (JsMap.keys (checkTimes c)) →
  NoDup (JsMap.keys (checkTimes (limitCacheSize c))).
Proof.
  intros Hnd. rewrite checkTimes_limit.
  rewrite keys_filter_not_in. by apply NoDup_filter.
Qed.

Lemma limit_size c :
  NoDup (JsMap.keys (checkTimes c)) →
  (JsMap.size (checkTimes (limitCacheSize c))
   = JsMap.size (checkTimes c) - removeCount `min` JsMap.size (checkTimes c))%nat.
Proof.
  intros Hnd. pose proof (removed_kept_Permutation c Hnd) as Hp.
  apply Permutation_length in Hp. rewrite length_app, length_toRemove in Hp.
  unfold JsMap.size in *. lia.
Qed.

Lemma store_inv_keys now c h s :
  JsMap.keys (siteStatus c) = JsMap.keys (checkTimes c) →
  JsMap.keys (siteStatus (store now c h s))
  = JsMap.keys (checkTimes (store now c h s)).
Proof. intros Hk. simpl. by apply keys_set_congr. Qed.

Lemma size_eq_of_keys c :
  JsMap.keys (siteStatus c) = JsMap.keys (checkTimes c) →
  JsMap.size (siteStatus c) = JsMap.size (checkTimes c).
Proof. intros Hk. by rewrite !size_keys, Hk. Qed.

Lemma updateCache_inv now c h s : cache_inv c → cache_inv (updateCache now c h s).
Proof.
  intros (Hk & Hnd & Hsz). unfold updateCache.
  case_bool_decide as Hfull.
  - pose proof (limit_keys c Hk) as Hk'. pose proof (limit_NoDup c Hnd) as Hnd'.
    pose proof (limit_size c Hnd) as Hsz'.
    split_and!.
    + by apply store_inv_keys.
    + simpl. by apply keys_set_NoDup.
    + pose proof (size_set_le (siteStatus (limitCacheSize c)) h s) as Hle.
      simpl. rewrite (size_eq_of_keys _ Hk') in Hle.
      rewrite (size_eq_of_keys _ Hk) in Hsz, Hfull.
      rewrite removeCount_eq in Hsz'. unfold MAX_CACHE_SIZE in Hfull. lia.
  - split_and!.
    + by apply store_inv_keys.
    + simpl. by apply keys_set_NoDup.
    + pose proof (size_set_le (siteStatus c) h s) as Hle.
      simpl. unfold MAX_CACHE_SIZE in Hfull. lia.
Qed.

Lemma forget_inv c h : cache_inv c → cache_inv (forget c h).
Proof.
  intros (Hk & Hnd & Hsz). unfold forget. split_and!; cbn [siteStatus checkTimes].
  - by rewrite !keys_delete, Hk.
  - by apply keys_delete_NoDup.
  - rewrite delete_filter. unfold JsMap.size in *.
    pose proof (length_filter (λ e : string * jsval, e.1 ≠ h) (siteStatus c)). lia.
Qed.

Lemma cleanupCache_inv now c : cache_inv c → cache_inv (cleanupCache now c).
Proof.
  unfold cleanupCache. generalize (expiredHosts now c). intros hosts. revert c.
  induction hosts as [|h hosts IH]; intros c Hc; [done|].
  cbn [foldl]. by apply IH, forget_inv.
Qed.

Lemma run_calls_snoc calls call :
  run_calls (calls ++ [call]) = run_call (run_calls calls) call.
Proof. unfold run_calls. by rewrite foldl_app. Qed.

Lemma run_calls_inv calls : cache_inv (run_calls calls).
Proof.
  induction calls as [|call calls IH] using rev_ind.
  - split_and!; [done | constructor | simpl; lia].
  - rewrite run_calls_snoc. destruct call as [now h s|now].
    + by apply updateCache_inv.
    + by apply cleanupCache_inv.
Qed.

(** C7. After any sequence of [updateCache] (and [cleanupCache]) calls the
    cache holds at most [MAX_CACHE_SIZE] = 500 entries and the two maps
    have the same hostnames; a further [updateCache] that finds 500 entries
    first removes [ceil(500 * 0.2)] = 100 of them, none of which has a later
    check time than an entry that stays, and then stores the new entry. *)
Theorem cache_size_evicted (calls : list cache_call) (now : Z)
    (h : string) (s : jsval) :
  let c := run_calls calls in
  (Z.of_nat (JsMap.size (siteStatus c)) <= MAX_CACHE_SIZE
   ∧ MAX_CACHE_SIZE = 500
   ∧ JsMap.keys (siteStatus c) = JsMap.keys (checkTimes c))
  ∧ (Z.of_nat (JsMap.size (siteStatus c)) >= MAX_CACHE_SIZE →
     updateCache now c h s = store now (limitCacheSize c) h s
     ∧ length (toRemove c) = 100%nat
     ∧ checkTimes c ≡ₚ toRemove c ++ checkTimes (limitCacheSize c)
     ∧ (∀ r k, r ∈ toRemove c → k ∈ checkTimes (limitCacheSize c) → r.2 <= k.2)
     ∧ JsMap.keys (siteStatus (limitCacheSize c))
       = JsMap.keys (checkTimes (limitCacheSize c))
     ∧ JsMap.size (siteStatus (limitCacheSize c)) = 400%nat).
Proof.
  intros c. destruct (run_calls_inv calls) as (Hk & Hnd & Hsz). fold c in Hk, Hnd, Hsz.
  split; [split_and!; [unfold MAX_CACHE_SIZE; lia | done | done]|].
  intros Hfull. unfold MAX_CACHE_SIZE in Hfull.
  pose proof (size_eq_of_keys _ Hk) as Hsize.
  split_and!.
  - unfold updateCache. by rewrite bool_decide_eq_true_2.
  - rewrite length_toRemove, removeCount_eq. lia.
  - by apply removed_kept_Permutation.
  - intros r k. by apply removed_oldest.
  - by apply limit_keys.
  - rewrite (size_eq_of_keys _ (limit_keys c Hk)), limit_size, removeCount_eq by done.
    lia.
Qed.

Lemma cache_size_evicted_witness :
  length (toRemove (run_calls full_run)) = 100%nat
  ∧ JsMap.size (siteStatus (limitCacheSize (run_calls full_run))) = 400%nat.
Proof.
  pose proof (cache_size_evicted full_run 500 "new.example" (JBool false)) as [_ H].
  destruct H as (_ & Hlen & _ & _ & _ & Hsz); [by vm_compute|].
  split; [exact Hlen | exact Hsz].
Defined.

End CacheSizeFacts.

(** ** The values [checkSite] resolves to *)

Module CheckSiteFacts.
Import JsMapFacts SiteChecker CacheFacts CacheSizeFacts.
Local Open Scope Z_scope.

Lemma https_loop_value net urls err v err' :
  https_loop net urls err = (Some v, err') → v = JBool true.
Proof.
  revert err. induction urls as [|url urls IH]; intros err; simpl; [done|].
  unfold tryHeadRequest. destruct (fetch_head net url); [apply IH|].
  by intros [= <- _].
Qed.

Lemma http_loop_value net urls v :
  http_loop net urls = Some v → v = JStr "no-https".
Proof.
  induction urls as [|url urls IH]; simpl; [done|].
  unfold tryHeadRequest. destruct (fetch_head net url); [apply IH|].
  by intros [= <-].
Qed.

(** [checkAvailability] returns one of the four result classes. *)
Lemma checkAvailability_classified net h v :
  checkAvailability net h = Returned v → v ∈ result_classes.
Proof.
  unfold checkAvailability, result_classes.
  destruct (https_loop net (httpsUrls h) None) as [[v1|] err] eqn:E1.
  { apply https_loop_value in E1 as ->. intros [= <-]. set_solver. }
  destruct (http_loop net (httpUrls h)) as [v2|] eqn:E2.
  { apply http_loop_value in E2 as ->. intros [= <-]. set_solver. }
  destruct (checkDomainExists net h) as [domainExists|e]; [|done].
  case_match; intros [= <-]; set_solver.
Qed.

Lemma get_classified c h v :
  cache_classified c → JsMap.get (siteStatus c) h = Some v → v ∈ result_classes.
Proof.
  intros Hc Hget. apply get_Some_elem in Hget.
  unfold cache_classified in Hc. rewrite Forall_forall in Hc. exact (Hc _ Hget).
Qed.

Lemma get_keys_congr {V W} (m1 : JsMap.t V) (m2 : JsMap.t W) k :
  JsMap.keys m1 = JsMap.keys m2 → is_Some (JsMap.get m2 k) → is_Some (JsMap.get m1 k).
Proof.
  intros Hk Hs. destruct (JsMap.get m1 k) eqn:E; [done|].
  apply get_None_keys in E. rewrite Hk in E. apply get_None_keys in E.
  rewrite E in Hs. by destruct Hs.
Qed.

(** The values of one [checkSite] call: a result class, or [null] on the
    cache-hit path when the clock moves past the expiry of the entry between
    the reading of [shouldRecheck] and the reading of [isCacheValid]. *)
Lemma checkSite_value_cases (env : check_env) (c : cache) (h : string) :
  JsMap.keys (siteStatus c) = JsMap.keys (checkTimes c) →
  cache_classified c →
  (checkSite env c h).1.1 ∈ result_classes
  ∨ ((checkSite env c h).1.1 = JNull
     ∧ (checkSite env c h).2 = false
     ∧ ∃ lastCheck, JsMap.get (checkTimes c) h = Some lastCheck
         ∧ env_t_recheck env - lastCheck <= getCacheDuration (status_of c h)
         ∧ getCacheDuration (status_of c h) < env_t_next env - lastCheck).
Proof.
  intros Hk Hc. unfold checkSite, checkSite_start.
  destruct (isLocalNetwork h); [left; set_solver|].
  destruct (shouldRecheck _ c h) eqn:Hre; simpl.
  - left. destruct (race _ _) as [v|e] eqn:Hrace; simpl; [|set_solver].
    unfold race in Hrace. destruct (env_timed_out env); [done|].
    by apply checkAvailability_classified in Hrace.
  - unfold shouldRecheck in Hre. unfold getCachedStatus, isCacheValid.
    destruct (JsMap.get (checkTimes c) h) as [lastCheck|] eqn:Ht; [|done].
    simpl in *. apply bool_decide_eq_false in Hre.
    case_bool_decide as Hv.
    + left. destruct (get_keys_congr (siteStatus c) (checkTimes c) h Hk) as [v Hv'].
      { by rewrite Ht. }
      unfold status_of. rewrite Hv'. simpl. by eapply get_classified.
    + right. split_and!; try done. exists lastCheck. split_and!; [done|lia|lia].
Qed.

(** When the clock does not advance between the two readings, the value is
    always a result class. *)
Lemma checkSite_classified_same_tick (env : check_env) (c : cache) (h : string) :
  JsMap.keys (siteStatus c) = JsMap.keys (checkTimes c) →
  cache_classified c →
  env_t_next env <= env_t_recheck env →
  (checkSite env c h).1.1 ∈ result_classes.
Proof.
  intros Hk Hc Hclock.
  destruct (checkSite_value_cases env c h Hk Hc) as [H|(_ & _ & t & _ & H1 & H2)];
    [done | lia].
Qed.

Lemma limit_classified c : cache_classified c → cache_classified (limitCacheSize c).
Proof.
  unfold cache_classified. rewrite siteStatus_limit, !Forall_forall.
  intros Hc e [_ He]%list_elem_of_filter. by apply Hc.
Qed.

Lemma set_classified (m : JsMap.t jsval) h v :
  Forall (λ e : string * jsval, e.2 ∈ result_classes) m →
  v ∈ result_classes →
  Forall (λ e : string * jsval, e.2 ∈ result_classes) (JsMap.set m h v).
Proof.
  intros Hm Hv. induction m as [|[k w] m IH]; cbn [JsMap.set].
  - apply Forall_cons. split; [done | apply Forall_nil_2].
  - apply Forall_cons in Hm as [Hw Hm]. case_decide; apply Forall_cons; auto.
Qed.

Lemma updateCache_classified now c h v :
  cache_classified c → v ∈ result_classes → cache_classified (updateCache now c h v).
Proof.
  intros Hc Hv. unfold updateCache, cache_classified, store. simpl.
  apply set_classified; [|done]. case_bool_decide; [by apply limit_classified | done].
Qed.

(** [checkSite] keeps the cache invariants, so they hold of every cache
    that calls of [checkSite] build from the empty one. *)
Lemma checkSite_preserves (env : check_env) (c : cache) (h : string) :
  cache_inv c → cache_classified c →
  cache_inv (checkSite env c h).1.2 ∧ cache_classified (checkSite env c h).1.2.
Proof.
  intros Hi Hc. unfold checkSite.
  destruct (checkSite_start _ _ c h); [done|]. simpl.
  destruct (race _ _) as [v|e] eqn:Hrace; simpl.
  - split; [by apply updateCache_inv|]. apply updateCache_classified; [done|].
    unfold race in Hrace. destruct (env_timed_out env); [done|].
    by apply checkAvailability_classified in Hrace.
  - split; [by apply updateCache_inv|]. apply updateCache_classified; [done|].
    unfold result_classes. set_solver.
Qed.

(** C5. On the cache-hit path [checkSite] can resolve to [null], which is
    none of the four result classes: the entry is still valid when
    [shouldRecheck] reads the clock and expired when [isCacheValid] reads
    it again. *)
Theorem checkSite_null_at_expiry :
  let cached := (checkSite first_call new_cache "example.com").1.2 in
  (checkSite first_call new_cache "example.com").1.1 = JBool true
  ∧ checkSite second_call cached "example.com" = (JNull, cached, false)
  ∧ JNull ∉ result_classes.
Proof.
  split_and!.
  - by vm_compute.
  - by vm_compute.
  - apply (bool_decide_unpack _). by vm_compute.
Qed.

End CheckSiteFacts.

(** ** Picking the elements of a list by a list of keys *)

Module OrderFacts.
Section Keyed.
Context {A : Type} (key : A → string).

Lemma find_key_Some (l : list A) (i : string) (a : A) :
  NoDup (key <$> l) →
  List.find (λ x, String.eqb (key x) i) l = Some a ↔ a ∈ l ∧ key a = i.
Proof.
  induction l as [|x l IH]; csimpl.
  - intros _. split; [done | intros [[]%elem_of_nil _]].
  - rewrite NoDup_cons. intros [Hx Hnd].
    destruct (String.eqb_spec (key x) i) as [Hk|Hk].
    + split.
      * intros [= <-]. split; [left | done].
      * intros [[->|Hin]%elem_of_cons Ha]; [done|]. exfalso. apply Hx.
        apply list_elem_of_fmap. exists a. split; [congruence | done].
    + rewrite IH by done. rewrite elem_of_cons. split; [tauto|].
      intros [[->|?] ?]; [done | tauto].
Qed.

Lemma find_key_None (l : list A) (i : string) :
  List.find (λ x, String.eqb (key x) i) l = None ↔ i ∉ key <$> l.
Proof.
  induction l as [|x l IH]; csimpl.
  - split; [intros _; apply not_elem_of_nil | done].
  - rewrite not_elem_of_cons. destruct (String.eqb_spec (key x) i) as [Hk|Hk].
    + split; [done | intros [? _]; done].
    + rewrite IH. split; [intros ?; split; [congruence | done] | tauto].
Qed.

(** The keys of the elements picked are the keys asked for that occur. *)
Lemma picked_keys (l : list A) (ids : list string) :
  NoDup (key <$> l) →
  key <$> omap (λ i, List.find (λ x, String.eqb (key x) i) l) ids
  = filter (λ i, i ∈ key <$> l) ids.
Proof.
  intros Hnd. induction ids as [|i ids IH]; [done|].
  rewrite filter_cons. csimpl.
  destruct (List.find _ l) as [a|] eqn:E; csimpl.
  - apply find_key_Some in E as [Hin <-]; [|done].
    rewrite decide_True; [by rewrite IH|].
    apply list_elem_of_fmap. by exists a.
  - apply find_key_None in E. by rewrite decide_False.
Qed.

(** Picking by a duplicate-free list of keys yields, in some order, the
    elements whose key is in the list. *)
Lemma picked_Permutation (l : list A) (ids : list string) :
  NoDup (key <$> l) → NoDup ids →
  omap (λ i, List.find (λ x, String.eqb (key x) i) l) ids
  ≡ₚ filter (λ x, key x ∈ ids) l.
Proof.
  intros Hnd Hids. apply NoDup_Permutation.
  - apply (NoDup_fmap_1 key). rewrite picked_keys by done. by apply NoDup_filter.
  - apply NoDup_filter. by eapply NoDup_fmap_1.
  - intros a. rewrite list_elem_of_omap, list_elem_of_filter. split.
    + intros (i & Hi & Hf). apply find_key_Some in Hf as [Hin <-]; done.
    + intros [Hs Hin]. exists (key a). split; [done|]. by apply find_key_Some.
Qed.
End Keyed.
End OrderFacts.

(** ** [renderOrderedBookmarks] *)

Module RenderFacts.
Import JsMapFacts JsArrayFacts OrderFacts ColumnManager.

Lemma set_fresh {V} (m : JsMap.t V) k v :
  k ∉ JsMap.keys m → JsMap.set m k v = m ++ [(k, v)].
Proof.
  unfold JsMap.keys. induction m as [|[k' v'] m IH]; [done|].
  rewrite fmap_cons, not_elem_of_cons. intros [Hne Hnin]. cbn [JsMap.set].
  rewrite decide_False by done. by rewrite IH.
Qed.

Lemma keys_entry_of (l : list node) : JsMap.keys (entry_of <$> l) = node_id <$> l.
Proof. unfold JsMap.keys. rewrite <- list_fmap_compose. done. Qed.

Lemma values_entry_of (l : list node) : (entry_of <$> l).*2 = l.
Proof. induction l as [|b l IH]; [done|]. csimpl. by rewrite IH. Qed.

Lemma bookmarkMap_of_acc (bs : list node) (acc : JsObject.t node) :
  NoDup (JsMap.keys acc ++ (node_id <$> filter (λ b, has_url b) bs)) →
  foldl (λ bookmarkMap bookmark,
           if has_url bookmark
           then JsObject.set bookmarkMap (node_id bookmark) bookmark
           else bookmarkMap) acc bs
  = acc ++ (entry_of <$> filter (λ b, has_url b) bs).
Proof.
  revert acc. induction bs as [|b bs IH]; intros acc Hnd; cbn [foldl].
  - by rewrite app_nil_r.
  - rewrite filter_cons in Hnd |- *. destruct (has_url b) eqn:Hb.
    + rewrite decide_True in Hnd |- * by done. rewrite fmap_cons in Hnd. rewrite fmap_cons.
      unfold JsObject.set. rewrite set_fresh.
      * rewrite IH; [by rewrite <- app_assoc|].
        unfold JsMap.keys in *. rewrite fmap_app, <- app_assoc. exact Hnd.
      * apply NoDup_app in Hnd as (_ & Hd & _). intros Hin.
        apply (Hd _ Hin), list_elem_of_here.
    + rewrite decide_False in Hnd |- * by (by intros []). by apply IH.
Qed.

(** With distinct ids, the dictionary lists the bookmarks that have a URL
    in live order. *)
Lemma bookmarkMap_of_live (bs : list node) :
  NoDup (node_id <$> filter (λ b, has_url b) bs) →
  bookmarkMap_of bs = entry_of <$> filter (λ b, has_url b) bs.
Proof. intros Hnd. unfold bookmarkMap_of. by rewrite bookmarkMap_of_acc. Qed.

Lemma delete_absent {V} (m : JsMap.t V) k :
  JsMap.get m k = None → JsMap.delete m k = m.
Proof.
  induction m as [|[k' v'] m IH]; [done|]. cbn [JsMap.get JsMap.delete].
  case_decide; [done|]. intros Hget. by rewrite IH.
Qed.

(** One turn of the second loop: the id is deleted from the dictionary
    whether or not it was found. *)
Lemma render_saved_cons i saved st :
  render_saved (i :: saved) st
  = render_saved saved
      (st.1 ++ option_list (JsObject.get st.2 i), JsObject.delete st.2 i).
Proof.
  unfold render_saved. cbn [foldl]. f_equal. unfold JsObject.get, JsObject.delete.
  destruct (JsMap.get st.2 i) eqn:E; simpl; [done|].
  rewrite delete_absent, app_nil_r by done. by destruct st.
Qed.

Lemma get_filter_not_in {V} (m : JsMap.t V) (seen : list string) k :
  JsMap.get (filter (λ e, e.1 ∉ seen) m) k
  = if decide (k ∈ seen) then None else JsMap.get m k.
Proof.
  induction m as [|[k' v'] m IH]; [by case_decide|].
  rewrite filter_cons. cbn [fst JsMap.get].
  destruct (decide (k' ∉ seen)) as [Hn|Hy]; cbn [JsMap.get].
  - destruct (decide (k' = k)) as [->|Hne]. 1: by rewrite decide_False. exact IH.
  - rewrite IH. destruct (decide (k' = k)) as [->|Hne]; [|done].
    destruct (decide (k ∈ seen)); [done|]. by destruct Hy.
Qed.

Lemma delete_filter_not_in {V} (m : JsMap.t V) (seen : list string) k :
  JsMap.delete (filter (λ e, e.1 ∉ seen) m) k = filter (λ e, e.1 ∉ k :: seen) m.
Proof.
  rewrite delete_filter, list_filter_filter.
  apply list_filter_iff. intros e. rewrite not_elem_of_cons. tauto.
Qed.

Lemma first_occurrences_ext (s1 s2 ids : list string) :
  (∀ x, x ∈ s1 ↔ x ∈ s2) → first_occurrences s1 ids = first_occurrences s2 ids.
Proof.
  revert s1 s2. induction ids as [|i ids IH]; intros s1 s2 Hs; [done|].
  cbn [first_occurrences].
  rewrite (bool_decide_ext (i ∈ s1) (i ∈ s2)) by apply Hs.
  case_bool_decide; [by apply IH|]. f_equal. apply IH.
  intros x. rewrite !elem_of_cons. by rewrite Hs.
Qed.

Lemma render_saved_filter (m0 : JsObject.t node) (saved seen : list string)
    (out : list node) :
  render_saved saved (out, filter (λ e, e.1 ∉ seen) m0)
  = (out ++ omap (JsMap.get m0) (first_occurrences seen saved),
     filter (λ e, e.1 ∉ reverse saved ++ seen) m0).
Proof.
  revert seen out. induction saved as [|i saved IH]; intros seen out.
  - by rewrite app_nil_r.
  - rewrite render_saved_cons. cbn [fst snd first_occurrences].
    unfold JsObject.get, JsObject.delete.
    rewrite get_filter_not_in, delete_filter_not_in, IH.
    rewrite reverse_cons, <- (app_assoc (reverse saved)). cbn [app]. f_equal.
    rewrite <- app_assoc. f_equal.
    case_bool_decide as Hseen.
    + rewrite decide_True by done. simpl.
      f_equal. apply first_occurrences_ext. intros x. rewrite elem_of_cons.
      split; [intros [->|?]; done | auto].
    + rewrite decide_False by done. csimpl.
      by destruct (JsMap.get m0 i).
Qed.

Lemma get_entries_find (live : list node) (i : string) :
  JsMap.get (entry_of <$> live) i
  = List.find (λ b, String.eqb (node_id b) i) live.
Proof.
  induction live as [|b live IH]; [done|]. csimpl.
  destruct (String.eqb_spec (node_id b) i) as [->|Hne].
  - by rewrite decide_True.
  - by rewrite decide_False.
Qed.

Lemma filter_entries (live : list node) (saved : list string) :
  filter (λ e : string * node, e.1 ∉ saved) (entry_of <$> live)
  = entry_of <$> filter (λ b, node_id b ∉ saved) live.
Proof.
  induction live as [|b live IH]; [done|].
  rewrite fmap_cons, !filter_cons. cbn [entry_of fst].
  case_decide; [by rewrite fmap_cons, IH | done].
Qed.

(** What the code renders, for live bookmarks with distinct ids: the
    bookmarks named by the saved order, in its sequence and once each, then
    the values of the dictionary that is left, in the enumeration order of
    its keys rather than in live order. *)
Theorem renderOrderedBookmarks_char (bookmarks : list node) (savedOrder : list string) :
  let live := filter (λ b, has_url b) bookmarks in
  NoDup (node_id <$> live) →
  renderOrderedBookmarks bookmarks savedOrder
  = omap (λ i, List.find (λ b, String.eqb (node_id b) i) live)
         (first_occurrences [] savedOrder)
    ++ JsObject.values (entry_of <$> filter (λ b, node_id b ∉ savedOrder) live).
Proof.
  intros live Hnd. unfold renderOrderedBookmarks.
  rewrite (bookmarkMap_of_live _ Hnd). fold live.
  assert (Hst : render_saved savedOrder ([], entry_of <$> live)
                = ([] ++ omap (JsMap.get (entry_of <$> live))
                           (first_occurrences [] savedOrder),
                   filter (λ e, e.1 ∉ reverse savedOrder ++ [])
                     (entry_of <$> live))).
  { rewrite <- render_saved_filter. do 2 f_equal.
    by rewrite <- (foldl_delete_filter _ []). }
  rewrite Hst. cbn [fst snd app]. f_equal.
  - apply list_omap_ext, Forall_Forall2_diag, Forall_forall.
    intros i _. apply get_entries_find.
  - f_equal. rewrite <- filter_entries. apply list_filter_iff. intros e.
    by rewrite app_nil_r, elem_of_reverse.
Qed.

Lemma renderOrderedBookmarks_char_witness :
  let bm i := Node i i (Some ("https://" +:+ i)) None in
  node_id <$> renderOrderedBookmarks [bm "x"; bm "7"; bm "y"] ["y"; "7"]
  = ["y"; "7"; "x"].
Proof.
  intros bm.
  rewrite (renderOrderedBookmarks_char [bm "x"; bm "7"; bm "y"] ["y"; "7"]).
  - reflexivity.
  - apply (bool_decide_unpack _). by vm_compute.
Defined.

(** [Object.values] lists every value once. *)
Lemma values_Permutation {V} (o : JsObject.t V) : JsObject.values o ≡ₚ o.*2.
Proof.
  unfold JsObject.values.
  rewrite (sort_by_Permutation (λ e : N * V, Z.of_N e.1) (JsObject.indexed o)).
  unfold JsObject.indexed, JsObject.named.
  induction o as [|[k v] o IH]; [done|].
  rewrite filter_cons. csimpl. destruct (JsObject.array_index k) as [i|]; csimpl.
  - by rewrite IH.
  - by rewrite <- Permutation_middle, IH.
Qed.

(** Keys that are not array indices are enumerated in creation order. *)
Lemma values_named {V} (o : JsObject.t V) :
  Forall (λ e, JsObject.array_index e.1 = None) o → JsObject.values o = o.*2.
Proof.
  intros Ho.
  assert (JsObject.indexed o = [] ∧ JsObject.named o = o) as [Hi Hn].
  { unfold JsObject.indexed, JsObject.named.
    induction Ho as [|[k v] o Hk Ho [IH1 IH2]]; [done|].
    simpl in Hk. rewrite filter_cons. csimpl. rewrite Hk. csimpl.
    by rewrite IH1, IH2. }
  unfold JsObject.values. by rewrite Hi, Hn.
Qed.

Lemma elem_of_first_occurrences (seen ids : list string) x :
  x ∈ first_occurrences seen ids ↔ x ∈ ids ∧ x ∉ seen.
Proof.
  revert seen. induction ids as [|i ids IH]; intros seen; cbn [first_occurrences].
  - rewrite elem_of_nil. tauto.
  - case_bool_decide as Hi.
    + rewrite IH, elem_of_cons. split; [tauto|]. intros [[->|?] ?]; tauto.
    + rewrite !elem_of_cons, IH, not_elem_of_cons.
      split; [intros [->|?]; tauto|]. destruct (decide (x = i)); tauto.
Qed.

Lemma first_occurrences_NoDup (seen ids : list string) :
  NoDup (first_occurrences seen ids).
Proof.
  revert seen. induction ids as [|i ids IH]; intros seen; cbn [first_occurrences].
  - constructor.
  - case_bool_decide; [apply IH|]. constructor; [|apply IH].
    rewrite elem_of_first_occurrences, not_elem_of_cons. tauto.
Qed.

(** The bookmarks rendered from the saved order are the live ones it
    names, each once. *)
Lemma saved_part_Permutation (live : list node) (saved : list string) :
  NoDup (node_id <$> live) →
  omap (λ i, List.find (λ b, String.eqb (node_id b) i) live)
       (first_occurrences [] saved)
  ≡ₚ filter (λ b, node_id b ∈ saved) live.
Proof.
  intros Hnd.
  rewrite (picked_Permutation node_id) by auto using first_occurrences_NoDup.
  erewrite list_filter_iff; [done|]. intros b. simpl.
  rewrite elem_of_first_occurrences. split; [tauto|].
  intros ?. split; [done | apply not_elem_of_nil].
Qed.

(** The part of the claim that holds: for live bookmarks with distinct
    ids, exactly the bookmarks that have a URL are rendered, each once. *)
Theorem renderOrderedBookmarks_Permutation (bookmarks : list node)
    (savedOrder : list string) :
  NoDup (node_id <$> filter (λ b, has_url b) bookmarks) →
  renderOrderedBookmarks bookmarks savedOrder ≡ₚ filter (λ b, has_url b) bookmarks.
Proof.
  intros Hnd. rewrite renderOrderedBookmarks_char by done.
  rewrite values_Permutation, saved_part_Permutation by done.
  rewrite values_entry_of. apply filter_app_complement.
Qed.

Lemma renderOrderedBookmarks_Permutation_witness :
  let bm i := Node i i (Some ("https://" +:+ i)) None in
  renderOrderedBookmarks [bm "10"; Node "8" "folder" None (Some []); bm "9"] ["3"; "9"]
  ≡ₚ [bm "10"; bm "9"].
Proof.
  intros bm.
  apply (renderOrderedBookmarks_Permutation
           [bm "10"; Node "8" "folder" None (Some []); bm "9"] ["3"; "9"]).
  apply (bool_decide_unpack _). by vm_compute.
Defined.

(** When none of the remaining ids is an array index, the rendering is
    the one the specification describes. *)
Theorem renderOrderedBookmarks_named_ids (bookmarks : list node)
    (savedOrder : list string) :
  let live := filter (λ b, has_url b) bookmarks in
  NoDup (node_id <$> live) →
  Forall (λ b, node_id b ∈ savedOrder ∨ JsObject.array_index (node_id b) = None) live →
  renderOrderedBookmarks bookmarks savedOrder
  = spec_renderOrderedBookmarks bookmarks savedOrder.
Proof.
  intros live Hnd Hids. rewrite renderOrderedBookmarks_char by done.
  unfold spec_renderOrderedBookmarks. fold live. f_equal.
  rewrite values_named.
  - apply values_entry_of.
  - rewrite Forall_fmap. apply Forall_forall.
    intros b [Hb Hin]%list_elem_of_filter. simpl.
    rewrite Forall_forall in Hids. by destruct (Hids b Hin).
Qed.

(** C1. With the saved order ["7"], the bookmarks 10 and 9 are not in the
    saved order and come in this order in the folder; the code renders 9
    before 10, because [Object.values] enumerates the ids that are array
    indices in ascending numeric order. *)
Theorem renderOrderedBookmarks_remaining_order :
  node_id <$> renderOrderedBookmarks live_bookmarks ["7"] = ["7"; "9"; "10"]
  ∧ node_id <$> spec_renderOrderedBookmarks live_bookmarks ["7"] = ["7"; "10"; "9"].
Proof. split; reflexivity. Qed.

End RenderFacts.

(** ** [determineColumnOrder] *)

Module ColumnOrderFacts.
Import OrderFacts KanbanRenderer.

Lemma all_ids_children i t u cs :
  all_ids (Node i t u (Some cs)) = i :: concat (all_ids <$> cs).
Proof.
  cbn [all_ids]. f_equal. induction cs as [|c cs IH]; [done|].
  csimpl. by rewrite IH.
Qed.

Lemma all_ids_head (n : node) : ∃ rest, all_ids n = node_id n :: rest.
Proof. destruct n as [i t u cs]. cbn [all_ids node_id]. eauto. Qed.

Lemma all_ids_of_children (n : node) (cs : list node) :
  node_children n = Some cs → all_ids n = node_id n :: concat (all_ids <$> cs).
Proof. destruct n as [i t u [cs'|]]; intros [= ->]. apply all_ids_children. Qed.

(** The ids of the nodes of a list occur, in order, among all their ids. *)
Lemma ids_sublist (l : list node) : (node_id <$> l) `sublist_of` concat (all_ids <$> l).
Proof.
  induction l as [|n l IH]; [done|]. csimpl.
  destruct (all_ids_head n) as [rest ->]. cbn [app].
  apply sublist_skip. by apply sublist_inserts_l.
Qed.

Lemma elem_sublist_concat {A} (a : list A) (ls : list (list A)) :
  a ∈ ls → a `sublist_of` concat ls.
Proof.
  induction 1 as [a ls|a b ls Hin IH]; csimpl.
  - by apply sublist_inserts_r.
  - by apply sublist_inserts_l.
Qed.

Lemma elem_of_concat_2 {A} (ls : list (list A)) (a : list A) (x : A) :
  a ∈ ls → x ∈ a → x ∈ concat ls.
Proof.
  intros Ha Hx. apply list_elem_of_In, in_concat. exists a.
  split; by apply list_elem_of_In.
Qed.

Lemma concat_NoDup_disjoint {A} (ls : list (list A)) (a b : list A) (x : A) :
  NoDup (concat ls) → a ∈ ls → b ∈ ls → x ∈ a → x ∈ b → a = b.
Proof.
  induction ls as [|l ls IH]; csimpl.
  - intros _ []%elem_of_nil.
  - rewrite NoDup_app. intros (_ & Hdis & Hnd).
    intros [->|Ha]%elem_of_cons [->|Hb]%elem_of_cons Hxa Hxb; [done| | |by eapply IH].
    + exfalso. apply (Hdis x Hxa). by eapply elem_of_concat_2.
    + exfalso. apply (Hdis x Hxb). by eapply elem_of_concat_2.
Qed.

Lemma decimal_id_wf (i : string) :
  decimal_id i = true → i ≠ "" ∧ i ≠ "uncategorized".
Proof. intros H. split; intros ->; by vm_compute in H. Qed.

Lemma find_id_elem (top : list node) (i : string) (n : node) :
  List.find (λ child, String.eqb (node_id child) i) top = Some n →
  n ∈ top ∧ node_id n = i.
Proof.
  intros [Hin Heq]%find_some. split; [by apply list_elem_of_In|].
  by apply String.eqb_eq.
Qed.

(** A folder of the bookmark bar never has the id of another root. *)
Lemma kid_id_not_root (top kids : list node) (bar f : node) (x : string) :
  NoDup (concat (all_ids <$> top)) →
  bar ∈ top → node_children bar = Some kids → f ∈ top →
  node_id f ≠ node_id bar →
  x ∈ node_id <$> kids → x ≠ node_id f.
Proof.
  intros Hnd Hbar Hkids Hf Hne Hx ->.
  assert (Hxbar : node_id f ∈ all_ids bar).
  { rewrite (all_ids_of_children _ _ Hkids). right.
    eapply elem_of_sublist; [done | apply ids_sublist]. }
  assert (Hxf : node_id f ∈ all_ids f).
  { destruct (all_ids_head f) as [rest ->]. left. }
  assert (Heq : all_ids f = all_ids bar).
  { eapply (concat_NoDup_disjoint (all_ids <$> top)); [done| | |done|done];
      apply list_elem_of_fmap; eauto. }
  destruct (all_ids_head f) as [r1 H1], (all_ids_head bar) as [r2 H2].
  rewrite H1, H2 in Heq. by injection Heq.
Qed.

Lemma special_columns_cases (top : list node) (i : string) :
  special_columns top i = []
  ∨ ∃ f, special_columns top i = [SpecialColumn f] ∧ f ∈ top ∧ node_id f = i.
Proof.
  unfold special_columns.
  destruct (List.find _ top) as [f|] eqn:E; [right | by left].
  apply find_id_elem in E as [Hin Hid]. eauto.
Qed.

(** The ids of the two special columns, when present, are ['2'] and ['3']. *)
Lemma special_ids_sublist (top : list node) :
  (column_id <$> special_columns top "2" ++ special_columns top "3")
    `sublist_of` ["2"; "3"].
Proof.
  rewrite fmap_app. apply (sublist_app _ ["2"] _ ["3"]).
  - destruct (special_columns_cases top "2") as [->|(f & -> & _ & Hi)]; csimpl.
    + apply sublist_nil_l.
    + by rewrite Hi.
  - destruct (special_columns_cases top "3") as [->|(f & -> & _ & Hi)]; csimpl.
    + apply sublist_nil_l.
    + by rewrite Hi.
Qed.

Lemma special_columns_wf (top : list node) (i : string) :
  i ≠ "" → i ≠ "uncategorized" → Forall column_wf (special_columns top i).
Proof.
  intros H1 H2.
  destruct (special_columns_cases top i) as [->|(f & -> & _ & Hi)]; [constructor|].
  repeat constructor; simpl; by rewrite Hi.
Qed.

Lemma special_columns_root (top : list node) (i x : string) :
  x ∈ column_id <$> special_columns top i → x = i ∧ ∃ f, f ∈ top ∧ node_id f = i.
Proof.
  destruct (special_columns_cases top i) as [->|(f & -> & Hin & Hi)]; csimpl.
  - by intros ?%elem_of_nil.
  - intros ->%list_elem_of_singleton. eauto.
Qed.

(** The ids of the columns of the bookmark bar: those of its folders, then
    ['uncategorized'] when that column exists. *)
Lemma bar_columns_ids (kids : list node) :
  ∃ unc, column_id <$> bar_columns kids
         = (node_id <$> filter (λ child, has_children child) kids) ++ unc
         ∧ unc `sublist_of` ["uncategorized"].
Proof.
  unfold bar_columns. rewrite fmap_app, <- list_fmap_compose.
  eexists. split; [reflexivity|]. case_bool_decide; [done | apply sublist_nil_l].
Qed.

Section Tree.
Context (top kids : list node) (bar : node).
Hypothesis Hnd : NoDup (concat (all_ids <$> top)).
Hypothesis Hdec : Forall (λ i, decimal_id i = true) (concat (all_ids <$> top)).
Hypothesis Hbar : bar ∈ top.
Hypothesis Hid : node_id bar = "1".
Hypothesis Hkids : node_children bar = Some kids.

Lemma kid_ids_sublist :
  (node_id <$> kids) `sublist_of` concat (all_ids <$> top).
Proof.
  transitivity (concat (all_ids <$> kids)); [apply ids_sublist|].
  transitivity (all_ids bar).
  - rewrite (all_ids_of_children _ _ Hkids). by apply sublist_cons.
  - apply elem_sublist_concat, list_elem_of_fmap. eauto.
Qed.

Lemma folder_ids_NoDup :
  NoDup (node_id <$> filter (λ child, has_children child) kids).
Proof.
  eapply sublist_NoDup; [exact Hnd|].
  transitivity (node_id <$> kids); [|apply kid_ids_sublist].
  apply fmap_sublist, sublist_filter.
Qed.

Lemma folder_id_decimal (x : string) :
  x ∈ node_id <$> filter (λ child, has_children child) kids →
  x ∈ node_id <$> kids ∧ x ≠ "" ∧ x ≠ "uncategorized".
Proof.
  intros (k & -> & [_ Hk]%list_elem_of_filter)%list_elem_of_fmap.
  assert (Hin : node_id k ∈ node_id <$> kids) by (apply list_elem_of_fmap; eauto).
  split; [done|]. apply decimal_id_wf.
  rewrite Forall_forall in Hdec. apply Hdec.
  eapply elem_of_sublist; [exact Hin | apply kid_ids_sublist].
Qed.

Lemma bar_columns_wf : Forall column_wf (bar_columns kids).
Proof.
  unfold bar_columns. apply Forall_app. split.
  - apply Forall_fmap, Forall_forall. intros k Hk. simpl.
    apply folder_id_decimal, list_elem_of_fmap. eauto.
  - case_bool_decide; by repeat constructor.
Qed.

Lemma columns_of_bar_NoDup :
  NoDup (column_id <$>
           bar_columns kids ++ special_columns top "2" ++ special_columns top "3").
Proof.
  rewrite fmap_app. destruct (bar_columns_ids kids) as (unc & -> & Hunc).
  rewrite <- app_assoc. apply NoDup_app. split_and!.
  - apply folder_ids_NoDup.
  - intros x Hx [Hu|Hs]%elem_of_app.
    + apply (elem_of_sublist _ _ _ Hu) in Hunc.
      apply list_elem_of_singleton in Hunc.
      by destruct (folder_id_decimal x Hx) as (_ & _ & ?).
    + destruct (folder_id_decimal x Hx) as (Hk & _ & _).
      rewrite fmap_app in Hs. apply elem_of_app in Hs as [Hs|Hs];
        apply special_columns_root in Hs as (-> & f & Hf & Hi);
        rewrite <- Hi in Hk;
        apply (kid_id_not_root top kids bar f (node_id f) Hnd Hbar Hkids Hf);
        try done; rewrite Hi, Hid; done.
  - eapply sublist_NoDup;
      [|apply (sublist_app _ ["uncategorized"] _ ["2"; "3"]);
        [exact Hunc | apply special_ids_sublist]].
    apply (bool_decide_unpack _). by vm_compute.
Qed.
End Tree.

(** The columns made from a tree of the browser have distinct ids, none
    of them empty, and only the uncategorized column is called
    ['uncategorized']. *)
Lemma processBookmarkTree_ok (root : node) (cols : list column) :
  tree_ok root → processBookmarkTree root = Some cols →
  NoDup (column_id <$> cols) ∧ Forall column_wf cols.
Proof.
  intros [Hnd Hdec] Hp. unfold processBookmarkTree in Hp.
  destruct (node_children root) as [top|] eqn:Htop;
    [|injection Hp as <-; split; constructor].
  rewrite (all_ids_of_children _ _ Htop) in Hnd, Hdec.
  apply NoDup_cons in Hnd as [_ Hnd]. apply Forall_cons in Hdec as [_ Hdec].
  destruct (List.find (λ child, String.eqb (node_id child) "1") top)
    as [bar|] eqn:Hbar.
  - apply find_id_elem in Hbar as [Hbar Hi1].
    destruct (node_children bar) as [kids|] eqn:Hkids; [|done].
    injection Hp as <-. split.
    + by eapply columns_of_bar_NoDup.
    + apply Forall_app. split; [by eapply bar_columns_wf|].
      apply Forall_app. split; by apply special_columns_wf.
  - injection Hp as <-. cbn [app]. split.
    + eapply sublist_NoDup; [|apply special_ids_sublist].
      apply (bool_decide_unpack _). by vm_compute.
    + apply Forall_app. split; by apply special_columns_wf.
Qed.

Lemma foldl_push_omap {A B} (f : A → option B) (l : list A) (acc : list B) :
  foldl (λ acc x, match f x with Some y => acc ++ [y] | None => acc end) acc l
  = acc ++ omap f l.
Proof.
  revert acc. induction l as [|x l IH]; intros acc; csimpl.
  - by rewrite app_nil_r.
  - rewrite IH. destruct (f x); [by rewrite <- app_assoc | done].
Qed.

Lemma foldl_push_filter {A} (keep other : A → bool) (l : list A) (acc : list A) :
  foldl (λ acc x, if keep x then acc ++ [x]
                  else if other x then acc ++ [x] else acc) acc l
  = acc ++ filter (λ x, keep x || other x) l.
Proof.
  revert acc. induction l as [|x l IH]; intros acc; cbn [foldl].
  - by rewrite app_nil_r.
  - rewrite IH, filter_cons.
    destruct (keep x), (other x); simpl; by rewrite <- ?app_assoc.
Qed.

Lemma find_ext {A} (f g : A → bool) (l : list A) :
  Forall (λ x, f x = g x) l → List.find f l = List.find g l.
Proof. induction 1 as [|x l Hx Hl IH]; simpl; [done|]. by rewrite Hx, IH. Qed.

(** For a well-formed column, the predicate of the first loop compares the
    saved id with the id the second loop computes. *)
Lemma matches_column_id (i : string) (col : column) :
  column_wf col → matches i col = String.eqb (column_id col) i.
Proof.
  unfold matches.
  destruct (String.eqb_spec i "uncategorized") as [->|Hi];
    destruct col as [d|l|d]; cbn [column_id column_wf].
  - intros [_ Hd]. symmetry. by apply String.eqb_neq.
  - intros _. by rewrite String.eqb_refl.
  - intros [_ Hd]. symmetry. by apply String.eqb_neq.
  - done.
  - intros _. symmetry. apply String.eqb_neq. congruence.
  - done.
Qed.

(** What the code computes for well-formed columns and a saved order that
    is not empty. *)
Lemma determineColumnOrder_spec (cols : list column) (saved : list string) :
  Forall column_wf cols → saved ≠ [] →
  determineColumnOrder cols (Some saved) = spec_columnOrder cols saved.
Proof.
  intros Hwf Hne. unfold determineColumnOrder, spec_columnOrder.
  destruct saved as [|i0 saved0]; [done|]. set (saved := i0 :: saved0) in *.
  rewrite foldl_push_omap. cbn [app]. cbv zeta.
  rewrite (foldl_push_filter
             (λ col, negb (String.eqb (column_id col) "")
                     && negb (bool_decide (column_id col ∈ saved)))
             (λ col, String.eqb (column_id col) "")).
  - f_equal.
    + apply list_omap_ext, Forall_Forall2_diag, Forall_forall. intros i _.
      apply find_ext. eapply Forall_impl; [exact Hwf|]. intros col Hc.
      by apply matches_column_id.
    + clear Hne. induction Hwf as [|col cols Hc Hwf IH]; [done|].
      rewrite !filter_cons, IH.
      assert (Hid : String.eqb (column_id col) "" = false).
      { apply String.eqb_neq. destruct col; cbn [column_id column_wf] in *;
          [tauto | done | tauto]. }
      rewrite Hid. cbn [negb andb]. rewrite orb_false_r.
      destruct (decide (column_id col ∈ saved)) as [Hin|Hin].
      * rewrite bool_decide_eq_true_2 by done. cbn [negb].
        rewrite decide_False by (by intros []).
        rewrite decide_False; [done | by intros ?].
      * rewrite bool_decide_eq_false_2 by done. cbn [negb].
        rewrite decide_True by done. by rewrite decide_True.
Qed.

Lemma sample_root_ok :
  tree_ok sample_root ∧ processBookmarkTree sample_root = Some sample_columns.
Proof.
  split; [split|]; [apply (bool_decide_unpack _); by vm_compute
                   |apply (bool_decide_unpack _); by vm_compute
                   |reflexivity].
Qed.

(** C2, counterexample: a saved order that names a column twice puts the
    column twice into the result, which is then no permutation of the live
    columns. *)
Lemma determineColumnOrder_repeated_saved_id :
  tree_ok sample_root
  ∧ processBookmarkTree sample_root = Some sample_columns
  ∧ column_id <$> determineColumnOrder sample_columns (Some ["5"; "5"])
    = ["5"; "5"; "uncategorized"; "2"]
  ∧ ¬ determineColumnOrder sample_columns (Some ["5"; "5"]) ≡ₚ sample_columns.
Proof.
  destruct sample_root_ok as [Hok Hp]. split_and!; [done | done | reflexivity |].
  intros Hperm. apply Permutation_length in Hperm. by vm_compute in Hperm.
Qed.

(** C2, amended. For the live columns made from a bookmark tree of the
    browser and a saved column order that names no id twice,
    [determineColumnOrder] returns a permutation of the live columns in
    which none appears twice: the live columns themselves when the saved
    order is null or empty, and otherwise the live columns named by the
    saved order, in its sequence, followed by the others in live order. *)
Theorem determineColumnOrder_permutation (root : node) (cols : list column)
    (savedColumnOrder : option (list string)) :
  tree_ok root →
  processBookmarkTree root = Some cols →
  NoDup (default [] savedColumnOrder) →
  determineColumnOrder cols savedColumnOrder ≡ₚ cols
  ∧ NoDup (determineColumnOrder cols savedColumnOrder)
  ∧ determineColumnOrder cols savedColumnOrder
    = match savedColumnOrder with
      | None | Some [] => cols
      | Some saved => spec_columnOrder cols saved
      end.
Proof.
  intros Hok Hp Hsaved.
  destruct (processBookmarkTree_ok root cols Hok Hp) as [Hnd Hwf].
  assert (Hcols : NoDup cols) by by eapply NoDup_fmap_1.
  destruct savedColumnOrder as [[|i saved]|]; [done | | done].
  rewrite determineColumnOrder_spec by done.
  assert (Hperm : spec_columnOrder cols (i :: saved) ≡ₚ cols).
  { unfold spec_columnOrder. rewrite (picked_Permutation column_id) by done.
    apply filter_app_complement. }
  split_and!; [done | by rewrite Hperm | done].
Qed.

Lemma determineColumnOrder_permutation_witness :
  column_id <$> determineColumnOrder sample_columns (Some ["2"; "9"; "5"])
  = ["2"; "5"; "uncategorized"]
  ∧ determineColumnOrder sample_columns (Some ["2"; "9"; "5"]) ≡ₚ sample_columns.
Proof.
  split; [reflexivity|].
  refine (proj1 (determineColumnOrder_permutation sample_root sample_columns
                   (Some ["2"; "9"; "5"]) _ _ _)).
  - split; apply (bool_decide_unpack _); by vm_compute.
  - reflexivity.
  - apply (bool_decide_unpack _). by vm_compute.
Defined.

End ColumnOrderFacts.

(** ** The bookmark tree and its traversal *)

Module TreeFacts.
Import Background.

(** Induction on a node with the statement for all its children. *)
Lemma node_strong_ind (P : node → Prop) :
  (∀ i t u, P (Node i t u None)) →
  (∀ i t u cs, Forall P cs → P (Node i t u (Some cs))) →
  ∀ n, P n.
Proof.
  intros Hleaf Hfolder.
  refine (fix IH (n : node) : P n :=
            match n with
            | Node i t u None => Hleaf i t u
            | Node i t u (Some cs) =>
                Hfolder i t u cs
                  ((fix each (l : list node) : Forall P l :=
                      match l with
                      | [] => Forall_nil_2 P
                      | c :: l' => Forall_cons_2 P c l' (IH c) (each l')
                      end) cs)
            end).
Qed.

Lemma visit_children i t u cs :
  visit (Node i t u (Some cs)) = concat (visit <$> cs).
Proof.
  cbn [visit]. induction cs as [|c cs IH]; [done|]. csimpl. by rewrite IH.
Qed.

Lemma NoDup_fmap_eq {A B} (f : A → B) (l : list A) (x y : A) :
  NoDup (f <$> l) → x ∈ l → y ∈ l → f x = f y → x = y.
Proof.
  induction l as [|a l IH]; [by intros _ ?%elem_of_nil|].
  rewrite fmap_cons. intros [Ha Hnd]%NoDup_cons.
  intros [->|Hx]%elem_of_cons [->|Hy]%elem_of_cons Heq; auto.
  - destruct Ha. rewrite Heq. apply list_elem_of_fmap. by exists y.
  - destruct Ha. rewrite <- Heq. apply list_elem_of_fmap. by exists x.
Qed.

Lemma elem_of_concat {A} (x : A) (ls : list (list A)) :
  x ∈ concat ls ↔ ∃ l, x ∈ l ∧ l ∈ ls.
Proof.
  induction ls as [|l0 ls IH]; csimpl.
  - split; [by intros ?%elem_of_nil | by intros (l & _ & ?%elem_of_nil)].
  - rewrite elem_of_app, IH. split.
    + intros [Hx|(l & Hx & Hl)]; [exists l0 | exists l]; split; try done.
      * by left.
      * by right.
    + intros (l & Hx & [->|Hl]%elem_of_cons); [by left | right; eauto].
Qed.

(** [traverseBookmarks] against the tree: the callback is called on the
    nodes below [n] that have no [children], and on no other. *)
Lemma elem_of_visit (n b : node) :
  b ∈ visit n ↔ below n b ∧ node_children b = None.
Proof.
  induction n as [i t u|i t u cs IH] using node_strong_ind.
  - cbn [visit]. rewrite list_elem_of_singleton. split.
    + intros ->. split; [constructor | done].
    + intros [Hb _]. inversion Hb as [|? ? ? ? Hcs]; [done | discriminate Hcs].
  - rewrite visit_children, elem_of_concat. rewrite Forall_forall in IH. split.
    + intros (l & Hb & Hl). apply list_elem_of_fmap in Hl as (c & -> & Hc).
      apply (IH c Hc) in Hb as [Hb Hleaf]. split; [|done].
      by apply (below_child _ c _ cs).
    + intros [Hb Hleaf].
      inversion Hb as [|? c ? cs' Hcs Hc Hcb]; subst; [discriminate Hleaf|].
      injection Hcs as <-. exists (visit c). split.
      * by apply (IH c Hc).
      * apply list_elem_of_fmap. by exists c.
Qed.

Lemma elem_of_traverseBookmarks (bookmarks : list node) (b : node) :
  b ∈ traverseBookmarks bookmarks ↔ bookmark_of bookmarks b.
Proof.
  unfold traverseBookmarks, bookmark_of. split.
  - intros (root & Hroot & Hb)%list_elem_of_In%in_flat_map.
    apply list_elem_of_In in Hroot, Hb.
    apply elem_of_visit in Hb as [Hb Hleaf]. eauto.
  - intros (Hleaf & root & Hroot & Hb).
    apply list_elem_of_In, in_flat_map. exists root.
    split; apply list_elem_of_In; [done|]. by apply elem_of_visit.
Qed.

(** A folder, empty or not, is never handed to the callback. *)
Lemma traverseBookmarks_no_folder (bookmarks : list node) (b : node) :
  b ∈ traverseBookmarks bookmarks → node_children b = None.
Proof. by intros [? _]%elem_of_traverseBookmarks. Qed.

(** In a tree whose bookmarks have distinct ids, the id names the bookmark. *)
Lemma distinct_ids_bookmark (bookmarks : list node) (b b' : node) :
  NoDup (node_id <$> traverseBookmarks bookmarks) →
  bookmark_of bookmarks b → bookmark_of bookmarks b' →
  node_id b = node_id b' → b = b'.
Proof.
  intros Hnd Hb%elem_of_traverseBookmarks Hb'%elem_of_traverseBookmarks.
  by apply (NoDup_fmap_eq node_id (traverseBookmarks bookmarks)).
Qed.

End TreeFacts.

(** ** [checkAllBookmarks] *)

Module BackgroundFacts.
Import SiteChecker Background TreeFacts.

Lemma in_flight_app (l1 l2 : list event) (n : Z) :
  in_flight (l1 ++ l2) n = in_flight l2 (in_flight l1 n).
Proof.
  revert n. induction l1 as [|[i|i|c t] l1 IH]; intros n; cbn [app in_flight]; auto.
Qed.

Lemma orderly_bounds (l : list event) (n : Z) :
  orderly l n → (0 <= n <= Z.of_nat batchSize)%Z.
Proof. destruct l as [|[]]; by intros [? _]. Qed.

(** Every prefix of an orderly log has between 0 and [batchSize] checks in
    flight, and none before a progress message. *)
Lemma orderly_prefix (l p q : list event) (n : Z) :
  orderly l n → l = p ++ q →
  (0 <= in_flight p n <= Z.of_nat batchSize)%Z
  ∧ (∀ c t q', q = ProgressSent c t :: q' → in_flight p n = 0%Z).
Proof.
  revert l n. induction p as [|e p IH]; intros l n Ho ->.
  - cbn [in_flight app] in *. split; [by eapply orderly_bounds|].
    intros c t q' ->. by destruct Ho as (_ & ? & _).
  - destruct e as [i|i|c t]; cbn [in_flight]; destruct Ho as [_ Ho];
      eapply IH; try done. by destruct Ho.
Qed.

Lemma orderly_app (l1 l2 : list event) (n : Z) :
  orderly l1 n → orderly l2 (in_flight l1 n) → orderly (l1 ++ l2) n.
Proof.
  revert n. induction l1 as [|e l1 IH]; intros n H1 H2; [done|].
  destruct e as [i|i|c t]; cbn [app orderly in_flight] in *;
    destruct H1 as [Hn H1]; (split; [done|]); [auto | auto |].
  destruct H1 as [-> H1]. auto.
Qed.

Lemma in_flight_started (ids : list string) (n : Z) :
  in_flight (CheckStarted <$> ids) n = (n + Z.of_nat (length ids))%Z.
Proof.
  revert n. induction ids as [|i ids IH]; intros n; csimpl; [lia|].
  rewrite IH. lia.
Qed.

Lemma in_flight_settled (ids : list string) (n : Z) :
  in_flight (CheckSettled <$> ids) n = (n - Z.of_nat (length ids))%Z.
Proof.
  revert n. induction ids as [|i ids IH]; intros n; csimpl; [lia|].
  rewrite IH. lia.
Qed.

Lemma orderly_started (ids : list string) (n : Z) :
  (0 <= n)%Z → (n + Z.of_nat (length ids) <= Z.of_nat batchSize)%Z →
  orderly (CheckStarted <$> ids) n.
Proof.
  revert n. induction ids as [|i ids IH]; intros n H0 H1; csimpl in *.
  - split; [lia | done].
  - split; [lia|]. apply IH; lia.
Qed.

Lemma orderly_settled (ids : list string) (n : Z) :
  (n <= Z.of_nat batchSize)%Z → (0 <= n - Z.of_nat (length ids))%Z →
  orderly (CheckSettled <$> ids) n.
Proof.
  revert n. induction ids as [|i ids IH]; intros n H0 H1; csimpl in *.
  - split; [lia | done].
  - split; [lia|]. apply IH; lia.
Qed.

Section Loop.
Context (parse_url : string → option string)
        (check : node → string → outcome jsval)
        (settle_order : list (node * string) → list (node * string)).
Hypothesis settle_perm : ∀ batch, settle_order batch ≡ₚ batch.

Abbreviation item := (node * string)%type.
Implicit Types (todo batch : list item) (bs : list (list item)).

(** The loop performs [run_batch] on each of its batches in turn. *)
Lemma batch_loop_batches (turns i total : nat) todo st :
  batch_loop check settle_order turns i total todo st
  = foldl (run_batch check settle_order total) st (batches turns i todo).
Proof.
  revert i st. induction turns as [|turns IH]; intros i st; cbn [batch_loop batches].
  - done.
  - case_bool_decide; [|done]. cbn [foldl]. apply IH.
Qed.

(** With enough turns the batches are consecutive pieces of [todo]. *)
Lemma concat_batches (turns i : nat) todo :
  (length todo - i ≤ turns)%nat → concat (batches turns i todo) = drop i todo.
Proof.
  revert i. induction turns as [|turns IH]; intros i Hturns; cbn [batches].
  - rewrite drop_ge; [done | lia].
  - case_bool_decide as Hi.
    + cbn [concat]. rewrite IH by (unfold batchSize; lia).
      unfold JsArray.slice.
      replace (i + batchSize - i) with batchSize by lia.
      rewrite <- drop_drop. apply take_drop.
    + rewrite drop_ge; [done | lia].
Qed.

Lemma batches_sizes (turns i : nat) todo :
  Forall (λ batch, (0 < length batch ≤ batchSize)%nat) (batches turns i todo).
Proof.
  revert i. induction turns as [|turns IH]; intros i; cbn [batches].
  - constructor.
  - case_bool_decide as Hi; [|constructor]. constructor; [|apply IH].
    unfold JsArray.slice, batchSize. rewrite length_take, length_drop. lia.
Qed.

Lemma concat_settle_order bs : concat (settle_order <$> bs) ≡ₚ concat bs.
Proof.
  induction bs as [|batch bs IH]; [done|]. csimpl.
  by rewrite settle_perm, IH.
Qed.

(** The three variables after the loop has gone through [bs]. *)
Lemma foldl_run_batch (total : nat) bs st :
  let st' := foldl (run_batch check settle_order total) st bs in
  results st' = foldl (record_result check) (results st) (concat (settle_order <$> bs))
  ∧ checked st' = (checked st + length (concat bs))%nat
  ∧ log st' = log st ++ batch_log settle_order total (checked st) bs.
Proof.
  revert st. induction bs as [|batch bs IH]; intros st; cbn [foldl].
  - cbn [concat batch_log length]. by rewrite app_nil_r, Nat.add_0_r.
  - destruct (IH (run_batch check settle_order total st batch)) as (Hr & Hc & Hl).
    cbn zeta. rewrite Hr, Hc, Hl. cbn [run_batch results checked log].
    csimpl. rewrite foldl_app, length_app. split_and!; [done | lia |].
    unfold batch_events. by rewrite <- !app_assoc.
Qed.

Lemma record_result_lookup res (x : item) i :
  record_result check res x !! i
  = if decide (node_id x.1 = i) then Some (recorded check x) else res !! i.
Proof.
  unfold record_result, recorded.
  destruct (check x.1 x.2); by rewrite lookup_insert.
Qed.

(** The keys of [results]: those it had, and the ids of the bookmarks
    whose checks have settled. *)
Lemma results_keys (l : list item) res i :
  is_Some (foldl (record_result check) res l !! i)
  ↔ is_Some (res !! i) ∨ i ∈ node_id ∘ fst <$> l.
Proof.
  revert res. induction l as [|x l IH]; intros res; csimpl.
  - rewrite elem_of_nil. tauto.
  - rewrite IH, record_result_lookup, elem_of_cons.
    case_decide as Hx; [|split; [tauto|]; intros [?|[?|?]]; [tauto|congruence|tauto]].
    split; [auto|]. intros _. by left.
Qed.

Lemma results_untouched (l : list item) res i :
  i ∉ node_id ∘ fst <$> l →
  foldl (record_result check) res l !! i = res !! i.
Proof.
  revert res. induction l as [|x l IH]; intros res Hi; csimpl in *; [done|].
  apply not_elem_of_cons in Hi as [Hne Hi].
  rewrite IH, record_result_lookup by done. by rewrite decide_False.
Qed.

(** With distinct ids, each bookmark keeps the value of its own check. *)
Lemma results_value (l : list item) res (x : item) :
  NoDup (node_id ∘ fst <$> l) → x ∈ l →
  foldl (record_result check) res l !! node_id x.1 = Some (recorded check x).
Proof.
  revert res. induction l as [|y l IH]; intros res Hnd Hx; csimpl in *.
  - by apply elem_of_nil in Hx.
  - apply NoDup_cons in Hnd as [Hy Hnd].
    apply elem_of_cons in Hx as [->|Hx]; [|by apply IH].
    rewrite results_untouched, record_result_lookup by done.
    by rewrite decide_True.
Qed.
Lemma batch_log_orderly (total done : nat) bs :
  Forall (λ batch, (0 < length batch ≤ batchSize)%nat) bs →
  orderly (batch_log settle_order total done bs) 0.
Proof.
  intros Hbs. revert done. induction Hbs as [|batch bs Hb Hbs IH]; intros done.
  - cbn [batch_log orderly]. split; [unfold batchSize; lia | done].
  - cbn [batch_log]. unfold batch_events.
    assert (Hlen : length (settle_order batch) = length batch)
      by by rewrite settle_perm.
    rewrite <- app_assoc. apply orderly_app.
    { apply orderly_started; rewrite ?length_fmap; lia. }
    rewrite in_flight_started, length_fmap. apply orderly_app.
    { apply orderly_settled; rewrite ?length_fmap; lia. }
    rewrite in_flight_settled, length_fmap, Hlen.
    replace (0 + Z.of_nat (length batch) - Z.of_nat (length batch))%Z with 0%Z by lia.
    cbn [orderly]. split_and!; [lia | unfold batchSize; lia | done | apply IH].
Qed.

Lemma elem_of_bookmarksToCheck (bookmarks : list node) (b : node) (h : string) :
  (b, h) ∈ bookmarksToCheck parse_url bookmarks
  ↔ b ∈ traverseBookmarks bookmarks ∧ has_url b = true
    ∧ parse_url (default "" (node_url b)) = Some h.
Proof.
  unfold bookmarksToCheck. rewrite list_elem_of_omap. split.
  - intros (b' & Hin & Hsome). destruct (has_url b') eqn:Hu; [|done].
    destruct (parse_url _) as [h'|] eqn:Hp; [|done].
    injection Hsome as -> ->. done.
  - intros (Hin & Hu & Hp). exists b. split; [done|]. by rewrite Hu, Hp.
Qed.

(** When the id of [x] names [x] among the settled checks, [results]
    holds the value of the check of [x], wherever it settled. *)
Lemma results_value_named (l : list item) res (x : item) :
  x ∈ l → (∀ y, y ∈ l → node_id y.1 = node_id x.1 → y = x) →
  foldl (record_result check) res l !! node_id x.1 = Some (recorded check x).
Proof.
  induction l as [|y l IH] using rev_ind; [by intros ?%elem_of_nil|].
  intros Hx Hname. rewrite foldl_app. cbn [foldl].
  rewrite record_result_lookup. case_decide as Hy.
  - rewrite (Hname y); [done | | done].
    apply elem_of_app. right. by apply list_elem_of_singleton.
  - apply IH.
    + apply elem_of_app in Hx as [Hx|Hx%list_elem_of_singleton]; [done | by subst].
    + intros z Hz. apply Hname. apply elem_of_app. by left.
Qed.

(** C9. [checkAllBookmarks] cuts [bookmarksToCheck] into consecutive
    batches of at most [batchSize] = 10 bookmarks; the checks of a batch
    are all started, then all settle, then progress is reported and the
    next batch starts, so that never more than 10 checks are in flight
    and none is when a batch begins; afterwards [results] has an entry
    exactly for the ids of the bookmarks of the tree, at any depth (the
    nodes without [children] below a root), that have a URL which parses,
    and, where an id names one such bookmark only, the entry holds the
    value of its check, or [false] when the check threw. *)
Theorem checkAllBookmarks_batches (bookmarks : list node) :
  let todo := bookmarksToCheck parse_url bookmarks in
  let st := checkAllBookmarks parse_url check settle_order bookmarks in
  let bs := batches (length todo) 0 todo in
  (concat bs = todo
   ∧ Forall (λ batch, (0 < length batch ≤ batchSize)%nat) bs
   ∧ log st = batch_log settle_order (count_total bookmarks) 0 bs)
  ∧ (∀ p q, log st = p ++ q →
       (0 <= in_flight p 0 <= 10)%Z
       ∧ ∀ c t q', q = ProgressSent c t :: q' → in_flight p 0 = 0%Z)
  ∧ checked st = length todo
  ∧ (∀ b h, (b, h) ∈ todo
            ↔ bookmark_of bookmarks b ∧ has_url b = true
              ∧ parse_url (default "" (node_url b)) = Some h)
  ∧ (∀ i, is_Some (results st !! i)
          ↔ ∃ b, bookmark_of bookmarks b ∧ has_url b = true
                 ∧ is_Some (parse_url (default "" (node_url b)))
                 ∧ node_id b = i)
  ∧ (∀ b h, bookmark_of bookmarks b → has_url b = true →
            parse_url (default "" (node_url b)) = Some h →
            (∀ b', bookmark_of bookmarks b' → has_url b' = true →
                   is_Some (parse_url (default "" (node_url b'))) →
                   node_id b' = node_id b → b' = b) →
            results st !! node_id b
            = Some (match check b h with
                    | Returned isAlive => isAlive
                    | Thrown _ => JBool false
                    end)).
Proof.
  intros todo st bs.
  assert (Hcat : concat bs = todo).
  { subst bs. rewrite concat_batches by lia. apply drop_0. }
  assert (Hsz : Forall (λ batch, (0 < length batch ≤ batchSize)%nat) bs)
    by apply batches_sizes.
  destruct (foldl_run_batch (count_total bookmarks) bs
              {| results := ∅; checked := 0; log := [] |}) as (Hr & Hc & Hl).
  cbn [results checked log app] in Hr, Hc, Hl.
  assert (Hst : st = foldl (run_batch check settle_order (count_total bookmarks))
                       {| results := ∅; checked := 0; log := [] |} bs).
  { subst st bs. unfold checkAllBookmarks. apply batch_loop_batches. }
  rewrite <- Hst in Hr, Hc, Hl. clear Hst.
  assert (Htodo : ∀ b h, (b, h) ∈ todo
            ↔ bookmark_of bookmarks b ∧ has_url b = true
              ∧ parse_url (default "" (node_url b)) = Some h).
  { intros b h. subst todo.
    by rewrite elem_of_bookmarksToCheck, elem_of_traverseBookmarks. }
  split_and!; try done.
  - intros p q Hpq.
    apply (orderly_prefix (log st) p q 0); [|done].
    rewrite Hl. by apply batch_log_orderly.
  - by rewrite Hc, Hcat.
  - intros i. rewrite Hr, results_keys, lookup_empty.
    rewrite concat_settle_order, Hcat. split.
    + intros [[? [=]]|Hi]. apply list_elem_of_fmap in Hi as ([b h] & -> & Hin).
      apply Htodo in Hin as (Hin & Hu & Hp).
      exists b. rewrite Hp. eauto.
    + intros (b & Hin & Hu & [h Hp] & <-). right.
      apply list_elem_of_fmap. exists (b, h). split; [done|].
      by apply Htodo.
  - intros b h Hb Hu Hp Hname. rewrite Hr.
    apply (results_value_named _ _ (b, h)).
    + rewrite concat_settle_order, Hcat. by apply Htodo.
    + intros [b' h']. rewrite concat_settle_order, Hcat.
      intros (Hb' & Hu' & Hp')%Htodo Hid. cbn [fst] in Hid.
      assert (b' = b) as -> by (apply Hname; rewrite ?Hp'; eauto).
      congruence.
Qed.
End Loop.

Lemma checkAllBookmarks_batches_witness :
  let st := checkAllBookmarks sample_parse sample_check reverse sample_bookmarks in
  checked st = 13
  ∧ length <$> batches 13 0 (bookmarksToCheck sample_parse sample_bookmarks) = [10; 3]
  ∧ bookmark_of sample_bookmarks sample_deep
  ∧ results st !! "42" = Some (JBool true)
  ∧ results st !! "12" = Some (JBool false)
  ∧ results st !! "30" = None
  ∧ results st !! "41" = None.
Proof.
  intros st.
  pose proof (checkAllBookmarks_batches sample_parse sample_check reverse
                (λ batch, reverse_Permutation batch) sample_bookmarks)
    as (_ & _ & Hchecked & _ & _ & Hvalue).
  assert (Hdeep : bookmark_of sample_bookmarks sample_deep).
  { apply elem_of_traverseBookmarks, list_elem_of_In. vm_compute. tauto. }
  split_and!; [exact Hchecked | reflexivity | exact Hdeep | | by vm_compute..].
  apply (Hvalue sample_deep "deep.example/" Hdeep); [reflexivity..|].
  intros b' Hb' _ _ Hid. apply (distinct_ids_bookmark sample_bookmarks); [|done..].
  refine (bool_decide_unpack _ _). by vm_compute.
Defined.

End BackgroundFacts.

(** ** The two [isLocalNetwork] *)

Module LocalNetworkFacts.
Import LegacySiteChecker.

Lemma nullable_lang (r : regex) : nullable r = true → lang r "".
Proof.
  induction r as [| |c|lo hi|r1 IH1 r2 IH2|r1 IH1 r2 IH2|r IH]; simpl; try done.
  - intros _. constructor.
  - intros [H1 H2]%andb_true_iff. apply (lang_seq _ _ "" ""); auto.
  - intros [H|H]%orb_true_iff; [apply lang_alt_l | apply lang_alt_r]; auto.
  - intros _. constructor.
Qed.

Lemma deriv_lang (a : ascii) (r : regex) (s : string) :
  lang (deriv a r) s → lang r (String a s).
Proof.
  revert s. induction r as [| |c|lo hi|r1 IH1 r2 IH2|r1 IH1 r2 IH2|r IH];
    intros s; cbn [deriv].
  - inversion 1.
  - inversion 1.
  - destruct (Ascii.eqb_spec a c) as [->|Hne]; inversion 1. constructor.
  - destruct (in_range lo hi a) eqn:E; inversion 1. by constructor.
  - destruct (nullable r1) eqn:Hn.
    + inversion 1 as [| | | | ? ? ? H1|? ? ? H2| |]; subst.
      * inversion H1 as [| | |? ? s1 s2 Hd H2| | | |]; subst.
        apply (lang_seq _ _ (String a s1) s2); auto.
      * apply (lang_seq _ _ "" (String a s)); auto using nullable_lang.
    + inversion 1 as [| | |? ? s1 s2 Hd H2| | | |]; subst.
      apply (lang_seq _ _ (String a s1) s2); auto.
  - inversion 1; subst; [apply lang_alt_l | apply lang_alt_r]; auto.
  - inversion 1 as [| | |? ? s1 s2 Hd H2| | | |]; subst.
    apply (lang_star_app _ (String a s1) s2); auto.
Qed.

(** Soundness of the matcher. *)
Lemma test_lang (r : regex) (s : string) : test r s = true → lang r s.
Proof.
  revert r. induction s as [|a s IH]; intros r; cbn [test].
  - apply nullable_lang.
  - intros H. by apply deriv_lang, IH.
Qed.

Lemma lang_nullable (r : regex) : lang r "" → nullable r = true.
Proof.
  intros H. remember "" as s eqn:Hs.
  induction H as [|c|lo hi c Hc|r1 r2 s1 s2 H1 IH1 H2 IH2|r1 r2 s0 H IH|r1 r2 s0 H IH
                 | r|r s1 s2 H1 IH1 H2 IH2]; cbn [nullable]; try done.
  - destruct s1, s2; try done. by rewrite IH1, IH2.
  - by rewrite IH.
  - rewrite IH by done. apply orb_true_r.
Qed.

Lemma lang_deriv (a : ascii) (r : regex) (s : string) :
  lang r (String a s) → lang (deriv a r) s.
Proof.
  intros H. remember (String a s) as s' eqn:Hs. revert s Hs.
  induction H as [|c|lo hi c Hc|r1 r2 s1 s2 H1 IH1 H2 IH2|r1 r2 s0 H IH|r1 r2 s0 H IH
                 | r|r s1 s2 H1 IH1 H2 IH2]; intros s Hs; cbn [deriv].
  - done.
  - injection Hs as -> <-. rewrite Ascii.eqb_refl. constructor.
  - injection Hs as -> <-. rewrite Hc. constructor.
  - destruct s1 as [|b s1]; cbv [String.append] in Hs; fold String.append in Hs.
    + subst s2. rewrite (lang_nullable _ H1). apply lang_alt_r. by apply IH2.
    + injection Hs as -> <-.
      assert (Hd : lang (Seq (deriv a r1) r2) (s1 +:+ s2)).
      { apply lang_seq; [by apply IH1 | done]. }
      destruct (nullable r1); [by apply lang_alt_l | done].
  - apply lang_alt_l. by apply IH.
  - apply lang_alt_r. by apply IH.
  - done.
  - destruct s1 as [|b s1]; cbv [String.append] in Hs; fold String.append in Hs.
    + by apply IH2.
    + injection Hs as -> <-. apply lang_seq; [by apply IH1 | done].
Qed.

(** The matcher accepts exactly the strings of the expression. *)
Lemma test_iff_lang (r : regex) (s : string) : test r s = true ↔ lang r s.
Proof.
  split; [apply test_lang|].
  revert r. induction s as [|a s IH]; intros r; cbn [test].
  - apply lang_nullable.
  - intros H. by apply IH, lang_deriv.
Qed.

Lemma lang_lit (p s : string) : lang (Lit p) s → s = p.
Proof.
  revert s. induction p as [|c p IH]; intros s; cbn [Lit].
  - by inversion 1.
  - inversion 1 as [| | |? ? s1 s2 H1 H2| | | |]; subst.
    inversion H1; subst. cbn. f_equal. by apply IH.
Qed.

Lemma lang_lit_seq (p : string) (r : regex) (s : string) :
  lang (Seq (Lit p) r) s → ∃ s', s = p +:+ s' ∧ lang r s'.
Proof.
  inversion 1 as [| | |? ? s1 s2 H1 H2| | | |]; subst.
  apply lang_lit in H1 as ->. eauto.
Qed.

Lemma lang_chr_seq (c : ascii) (r : regex) (s : string) :
  lang (Seq (Chr c) r) s → ∃ s', s = String c s' ∧ lang r s'.
Proof.
  inversion 1 as [| | |? ? s1 s2 H1 H2| | | |]; subst.
  inversion H1; subst. eauto.
Qed.

Lemma lang_range_seq (lo hi : ascii) (r : regex) (s : string) :
  lang (Seq (Range lo hi) r) s →
  ∃ c s', s = String c s' ∧ in_range lo hi c = true ∧ lang r s'.
Proof.
  inversion 1 as [| | |? ? s1 s2 H1 H2| | | |]; subst.
  inversion H1; subst. eauto.
Qed.

(** [\.\d+...] starts with a dot. *)
Lemma lang_dotdigits_seq (r : regex) (s : string) :
  lang (Seq DotDigits r) s → ∃ s', s = String "." s'.
Proof.
  inversion 1 as [| | |? ? s1 s2 H1 H2| | | |]; subst.
  apply lang_chr_seq in H1 as (s' & -> & _). eauto.
Qed.

(** Closes a membership goal about a character known to be one of a few. *)
Local Ltac by_cases Hc :=
  repeat (apply elem_of_cons in Hc as [->|Hc];
          [apply (bool_decide_unpack _); by vm_compute|]);
  by apply elem_of_nil in Hc.

Lemma in_range_6_9 (c : ascii) :
  in_range "6" "9" c = true → c ∈ ["6"; "7"; "8"; "9"]%char.
Proof.
  destruct c as [[] [] [] [] [] [] [] []]; intros H; vm_compute in H;
    try discriminate H; apply (bool_decide_unpack _); by vm_compute.
Qed.

Lemma in_range_0_1 (c : ascii) : in_range "0" "1" c = true → c ∈ ["0"; "1"]%char.
Proof.
  destruct c as [[] [] [] [] [] [] [] []]; intros H; vm_compute in H;
    try discriminate H; apply (bool_decide_unpack _); by vm_compute.
Qed.

Lemma in_range_0_9 (c : ascii) :
  in_range "0" "9" c = true →
  c ∈ ["0"; "1"; "2"; "3"; "4"; "5"; "6"; "7"; "8"; "9"]%char.
Proof.
  destruct c as [[] [] [] [] [] [] [] []]; intros H; vm_compute in H;
    try discriminate H; apply (bool_decide_unpack _); by vm_compute.
Qed.

(** The strings of [(1[6-9]|2\d|3[0-1])]. *)
Lemma lang_second_octet (s : string) :
  lang (Alt (Seq (Chr "1") (Range "6" "9"))
          (Alt (Seq (Chr "2") Digit) (Seq (Chr "3") (Range "0" "1")))) s →
  s ∈ ["16"; "17"; "18"; "19"; "20"; "21"; "22"; "23"; "24"; "25"; "26"; "27";
       "28"; "29"; "30"; "31"].
Proof.
  inversion 1 as [| | | |? ? ? H1|? ? ? H2| |]; subst.
  - apply lang_chr_seq in H1 as (s' & -> & H1). inversion H1 as [| |? ? c Hc| | | | |]; subst.
    apply in_range_6_9 in Hc. by_cases Hc.
  - inversion H2 as [| | | |? ? ? H3|? ? ? H3| |]; subst.
    + apply lang_chr_seq in H3 as (s' & -> & H3).
      inversion H3 as [| |? ? c Hc| | | | |]; subst.
      apply in_range_0_9 in Hc. by_cases Hc.
    + apply lang_chr_seq in H3 as (s' & -> & H3).
      inversion H3 as [| |? ? c Hc| | | | |]; subst.
      apply in_range_0_1 in Hc. by_cases Hc.
Qed.

Lemma startsWith_append (p s : string) : JsString.startsWith (p +:+ s) p = true.
Proof.
  unfold JsString.startsWith. induction p as [|a p IH]; simpl.
  - by destruct s.
  - by destruct (ascii_dec a a).
Qed.

Lemma modules_local_192_168 (s : string) :
  SiteChecker.isLocalNetwork ("192.168." +:+ s) = true.
Proof.
  unfold SiteChecker.isLocalNetwork.
  by rewrite (startsWith_append "192.168." s), orb_true_r.
Qed.

Lemma modules_local_10 (s : string) : SiteChecker.isLocalNetwork ("10." +:+ s) = true.
Proof.
  unfold SiteChecker.isLocalNetwork.
  by rewrite (startsWith_append "10." s), orb_true_r.
Qed.

(** The second branch of the modules version on [172.<mid>.<rest>]. *)
Lemma modules_local_172 (mid s : string) (n : Z) :
  JsString.split "." (mid +:+ String "." s) = mid :: JsString.split "." s →
  JsString.parseInt mid = Some n → (16 <= n <= 31)%Z →
  SiteChecker.isLocalNetwork ("172." +:+ mid +:+ String "." s) = true.
Proof.
  intros Hsplit Hparse Hn. unfold SiteChecker.isLocalNetwork.
  destruct (_ || _ || _ || _ || _); [done|].
  rewrite (startsWith_append "172." (mid +:+ String "." s)).
  replace (JsString.split "." ("172." +:+ mid +:+ String "." s))
    with ("172" :: mid :: JsString.split "." s).
  - cbn [nth length]. rewrite Hparse.
    rewrite !bool_decide_eq_true_2 by lia. done.
  - change ("172." +:+ mid +:+ String "." s)
      with (String "1" (String "7" (String "2" (String "." (mid +:+ String "." s))))).
    cbn [JsString.split]. rewrite Hsplit. reflexivity.
Qed.

(** C10, counterexample: the two versions differ on a [.local] name, on a
    name that only begins with [10.], and on a loopback address other than
    127.0.0.1. *)
Lemma isLocalNetwork_disagree :
  SiteChecker.isLocalNetwork "printer.local" = true
  ∧ LegacySiteChecker.isLocalNetwork "printer.local" = false
  ∧ SiteChecker.isLocalNetwork "10.example.com" = true
  ∧ LegacySiteChecker.isLocalNetwork "10.example.com" = false
  ∧ SiteChecker.isLocalNetwork "127.0.0.2" = false
  ∧ LegacySiteChecker.isLocalNetwork "127.0.0.2" = true.
Proof. repeat split; by vm_compute. Qed.

(** C10, amended. Every hostname that the regular-expression version
    accepts through a pattern other than the one for 127.x.y.z (that is
    [localhost], 192.168.x.y, 10.x.y.z or 172.16-31.x.y) is accepted by the
    modules version as well. *)
Theorem isLocalNetwork_regex_refines (hostname : string) :
  LegacySiteChecker.isLocalNetwork hostname = true →
  test pat_127 hostname = false →
  SiteChecker.isLocalNetwork hostname = true.
Proof.
  unfold LegacySiteChecker.isLocalNetwork, localPatterns. cbn [existsb].
  intros Hany H127. rewrite H127, orb_false_r in Hany. cbn [orb] in Hany.
  repeat (apply orb_true_iff in Hany as [Hany|Hany]);
    apply test_lang in Hany.
  - apply lang_lit in Hany as ->. reflexivity.
  - apply lang_lit_seq in Hany as (s1 & -> & H).
    apply lang_chr_seq in H as (s2 & -> & H).
    apply lang_lit_seq in H as (s3 & -> & H).
    apply lang_dotdigits_seq in H as (s4 & ->).
    apply (modules_local_192_168 s4).
  - apply lang_lit_seq in Hany as (s1 & -> & H).
    apply lang_dotdigits_seq in H as (s2 & ->).
    apply (modules_local_10 s2).
  - apply lang_lit_seq in Hany as (s1 & -> & H).
    apply lang_chr_seq in H as (s2 & -> & H).
    inversion H as [| | |? ? mid s3 Hmid Hrest| | | |]; subst.
    apply lang_dotdigits_seq in Hrest as (s4 & ->).
    apply lang_second_octet in Hmid.
    apply (modules_local_172 mid s4 (default 0%Z (JsString.parseInt mid)));
      repeat (apply elem_of_cons in Hmid as [->|Hmid]; [by vm_compute|]);
      by apply elem_of_nil in Hmid.
Qed.

Lemma isLocalNetwork_regex_refines_witness :
  SiteChecker.isLocalNetwork "172.20.10.5" = true
  ∧ LegacySiteChecker.isLocalNetwork "172.20.10.5" = true.
Proof.
  split; [|reflexivity].
  apply (isLocalNetwork_regex_refines "172.20.10.5"); reflexivity.
Defined.

End LocalNetworkFacts.

(** ** [checkAvailability]: which probes decide the verdict *)

Module AvailabilityFacts.
Import SiteChecker SiteCheckerRuns.

Lemma https_loop_Some net urls err v err' :
  https_loop net urls err = (Some v, err') →
  v = JBool true ∧ ∃ url, url ∈ urls ∧ fetch_head net url = None.
Proof.
  revert err. induction urls as [|url urls IH]; intros err; cbn [https_loop]; [done|].
  unfold tryHeadRequest. destruct (fetch_head net url) as [e|] eqn:E; cbv beta iota.
  - intros H. destruct (IH _ H) as (-> & url' & Hin & Hf).
    split; [done|]. exists url'. split; [by right | done].
  - intros [= <- _]. split; [done|]. exists url. split; [left | done].
Qed.

Lemma https_loop_None net urls err err' :
  https_loop net urls err = (None, err') →
  all_fail net urls
  ∧ err' = foldl (λ acc url, from_option Some acc (fetch_head net url)) err urls.
Proof.
  revert err. induction urls as [|url urls IH]; intros err; cbn [https_loop foldl].
  - intros [= <-]. split; [constructor | done].
  - unfold tryHeadRequest. destruct (fetch_head net url) as [e|] eqn:E; cbv beta iota; [|done].
    intros H. destruct (IH _ H) as [Hall ->]. split; [|done].
    constructor; [by rewrite E | done].
Qed.

Lemma http_loop_Some net urls v :
  http_loop net urls = Some v →
  v = JStr "no-https" ∧ ∃ url, url ∈ urls ∧ fetch_head net url = None.
Proof.
  induction urls as [|url urls IH]; cbn [http_loop]; [done|].
  unfold tryHeadRequest. destruct (fetch_head net url) as [e|] eqn:E; cbv beta iota.
  - intros H. destruct (IH H) as (-> & url' & Hin & Hf).
    split; [done|]. exists url'. split; [by right | done].
  - intros [= <-]. split; [done|]. exists url. split; [left | done].
Qed.

Lemma http_loop_None net urls : http_loop net urls = None ↔ all_fail net urls.
Proof.
  unfold all_fail. induction urls as [|url urls IH]; cbn [http_loop].
  - split; [constructor | done].
  - unfold tryHeadRequest. rewrite Forall_cons.
    destruct (fetch_head net url) as [e|] eqn:E; cbv beta iota.
    + rewrite IH. split; [by split | by intros [_ ?]].
    + split; [done | by intros [? _]].
Qed.

Lemma all_fail_not_answered net urls :
  all_fail net urls ↔ ¬ ∃ url, url ∈ urls ∧ fetch_head net url = None.
Proof.
  unfold all_fail. rewrite Forall_forall. split.
  - intros Hall (url & Hin & Hf). by apply (Hall url).
  - intros Hno url Hin Hf. apply Hno. eauto.
Qed.

(** X1. [checkAvailability] returns [true] exactly when one of the three
    HTTPS URLs answers; the HTTP URLs and the image probe then play no
    part. *)
Theorem checkAvailability_true_iff (net : network) (hostname : string) :
  checkAvailability net hostname = Returned (JBool true)
  ↔ ∃ url, url ∈ httpsUrls hostname ∧ fetch_head net url = None.
Proof.
  unfold checkAvailability.
  destruct (https_loop net (httpsUrls hostname) None) as [[v|] err] eqn:E1.
  - apply https_loop_Some in E1 as [-> Hex]. done.
  - apply https_loop_None in E1 as [Hall _].
    apply all_fail_not_answered in Hall.
    split; [|done]. intros H. exfalso.
    destruct (http_loop net (httpUrls hostname)) as [v|] eqn:E2.
    { apply http_loop_Some in E2 as [-> _]. done. }
    destruct (checkDomainExists net hostname) as [d|e]; [|done].
    by case_match.
Qed.

(** X2. [checkAvailability] returns ['no-https'] exactly when all three
    HTTPS URLs are refused and one of the three HTTP URLs answers. *)
Theorem checkAvailability_no_https_iff (net : network) (hostname : string) :
  checkAvailability net hostname = Returned (JStr "no-https")
  ↔ all_fail net (httpsUrls hostname)
    ∧ ∃ url, url ∈ httpUrls hostname ∧ fetch_head net url = None.
Proof.
  unfold checkAvailability.
  destruct (https_loop net (httpsUrls hostname) None) as [[v|] err] eqn:E1.
  - apply https_loop_Some in E1 as [-> Hex]. split; [done|].
    intros [Hall _]. apply all_fail_not_answered in Hall. by destruct Hall.
  - apply https_loop_None in E1 as [Hall _].
    destruct (http_loop net (httpUrls hostname)) as [v|] eqn:E2.
    + apply http_loop_Some in E2 as [-> Hex]. done.
    + apply http_loop_None, all_fail_not_answered in E2. split.
      * intros H. exfalso. destruct (checkDomainExists net hostname) as [d|e]; [|done].
        by case_match.
      * by intros [_ Hex].
Qed.

(** X3. [checkAvailability] returns ['certificate-error'] exactly when
    all six URLs are refused, the image probe reports that the domain
    exists, and the error of the last HTTPS URL, [https://hostname], is a
    [TypeError] whose message contains "Failed to fetch"; the errors of the
    first two HTTPS URLs are overwritten and do not count. *)
Theorem checkAvailability_certificate_error_iff (net : network) (hostname : string) :
  checkAvailability net hostname = Returned (JStr "certificate-error")
  ↔ all_fail net (httpsUrls hostname)
    ∧ all_fail net (httpUrls hostname)
    ∧ image_probe net hostname = Returned true
    ∧ ∃ e, fetch_head net ("https://" +:+ hostname) = Some e ∧ fetch_failed e = true.
Proof.
  unfold checkAvailability.
  destruct (https_loop net (httpsUrls hostname) None) as [[v|] err] eqn:E1.
  - apply https_loop_Some in E1 as [-> Hex]. split; [done|].
    intros [Hall _]. apply all_fail_not_answered in Hall. by destruct Hall.
  - apply https_loop_None in E1 as [Hall Herr].
    assert (Hlast : err = fetch_head net ("https://" +:+ hostname)).
    { rewrite Herr. unfold httpsUrls in *. cbn [foldl].
      apply Forall_cons in Hall as [H1 Hall]. apply Forall_cons in Hall as [H2 Hall].
      apply Forall_cons in Hall as [H3 _].
      destruct (fetch_head net ("https://" +:+ hostname +:+ "/favicon.ico")); [|done].
      destruct (fetch_head net ("https://" +:+ hostname +:+ "/robots.txt")); [|done].
      destruct (fetch_head net ("https://" +:+ hostname)); done. }
    destruct (http_loop net (httpUrls hostname)) as [v|] eqn:E2.
    + apply http_loop_Some in E2 as [-> Hex]. split; [done|].
      intros (_ & Hall' & _). apply all_fail_not_answered in Hall'. by destruct Hall'.
    + apply http_loop_None in E2. unfold checkDomainExists.
      destruct (image_probe net hostname) as [[|]|e0] eqn:Ei; cbn [andb].
      * rewrite <- Hlast. destruct err as [e|].
        -- fold (fetch_failed e). destruct (fetch_failed e) eqn:Ef.
           ++ split; [|done]. intros _. split_and!; try done. by exists e.
           ++ split; [done|]. intros (_ & _ & _ & e' & [= <-] & Hf). congruence.
        -- split; [done|]. by intros (_ & _ & _ & e' & [=] & _).
      * split; [done|]. by intros (_ & _ & [=] & _).
      * split; [done|]. by intros (_ & _ & [=] & _).
Qed.

(** X4. The only way [checkAvailability] can throw is the image probe:
    it throws exactly when all six URLs are refused and
    [checkDomainExists] throws (as [new Image()] does where there is no
    DOM). *)
Theorem checkAvailability_throws_iff (net : network) (hostname : string)
    (e : js_error) :
  checkAvailability net hostname = Thrown e
  ↔ all_fail net (httpsUrls hostname)
    ∧ all_fail net (httpUrls hostname)
    ∧ image_probe net hostname = Thrown e.
Proof.
  unfold checkAvailability.
  destruct (https_loop net (httpsUrls hostname) None) as [[v|] err] eqn:E1.
  - apply https_loop_Some in E1 as [-> Hex]. split; [done|].
    intros [Hall _]. apply all_fail_not_answered in Hall. by destruct Hall.
  - apply https_loop_None in E1 as [Hall _].
    destruct (http_loop net (httpUrls hostname)) as [v|] eqn:E2.
    + apply http_loop_Some in E2 as [-> Hex]. split; [done|].
      intros (_ & Hall' & _). apply all_fail_not_answered in Hall'. by destruct Hall'.
    + apply http_loop_None in E2. unfold checkDomainExists.
      destruct (image_probe net hostname) as [d|e0] eqn:Ei.
      * split; [by case_match|]. by intros (_ & _ & [=]).
      * split; [by intros [= ->] | by intros (_ & _ & [= ->])].
Qed.

End AvailabilityFacts.

(** ** [cleanupCache], and the cache over whole runs of the checker *)

Module CheckerRunFacts.
Import JsMapFacts SiteChecker CacheFacts CacheSizeFacts CheckSiteFacts.
Import SiteCheckerRuns FaviconLoader.
Local Open Scope Z_scope.

Lemma get_checkTimes_cleanup now c h :
  JsMap.get (checkTimes (cleanupCache now c)) h
  = if decide (h ∈ expiredHosts now c) then None else JsMap.get (checkTimes c) h.
Proof. unfold cleanupCache. by rewrite checkTimes_foldl_forget, get_foldl_delete. Qed.

Lemma get_siteStatus_cleanup now c h :
  JsMap.get (siteStatus (cleanupCache now c)) h
  = if decide (h ∈ expiredHosts now c) then None else JsMap.get (siteStatus c) h.
Proof. unfold cleanupCache. by rewrite siteStatus_foldl_forget, get_foldl_delete. Qed.

Lemma checkTimes_cleanup now c :
  checkTimes (cleanupCache now c)
  = filter (λ e, e.1 ∉ expiredHosts now c) (checkTimes c).
Proof. unfold cleanupCache. by rewrite checkTimes_foldl_forget, foldl_delete_filter. Qed.

Lemma siteStatus_cleanup now c :
  siteStatus (cleanupCache now c)
  = filter (λ e, e.1 ∉ expiredHosts now c) (siteStatus c).
Proof. unfold cleanupCache. by rewrite siteStatus_foldl_forget, foldl_delete_filter. Qed.

Lemma status_of_cleanup now c h :
  h ∉ expiredHosts now c → status_of (cleanupCache now c) h = status_of c h.
Proof.
  intros Hn. unfold status_of. by rewrite get_siteStatus_cleanup, decide_False.
Qed.

Lemma expired_get now c h :
  NoDup (JsMap.keys (checkTimes c)) →
  h ∈ expiredHosts now c →
  ∃ t, JsMap.get (checkTimes c) h = Some t
       ∧ now - t > getCacheDuration (status_of c h).
Proof.
  intros Hnd (t & Hin & Hexp)%elem_of_expiredHosts. exists t.
  split; [by apply elem_NoDup_get | done].
Qed.

(** X5. [cleanupCache] is invisible to every later lookup: at any clock
    reading not before the one of the clean-up, [shouldRecheck] and
    [getCachedStatus] answer on the cleaned cache as on the cache before,
    for every hostname; the entries removed were already unusable. *)
Theorem cleanupCache_lookup_unchanged (now t : Z) (c : cache) (h : string)
    (Hnd : NoDup (JsMap.keys (checkTimes c))) (Hlater : now <= t) :
  shouldRecheck t (cleanupCache now c) h = shouldRecheck t c h
  ∧ getCachedStatus t (cleanupCache now c) h = getCachedStatus t c h.
Proof.
  unfold getCachedStatus, isCacheValid, shouldRecheck.
  rewrite get_checkTimes_cleanup.
  destruct (decide (h ∈ expiredHosts now c)) as [Hexp|Hok].
  - destruct (expired_get now c h Hnd Hexp) as (t0 & -> & Hgt). cbv zeta.
    rewrite bool_decide_eq_true_2, bool_decide_eq_false_2 by lia. done.
  - by rewrite status_of_cleanup.
Qed.

Lemma cleanupCache_lookup_unchanged_witness :
  let c := updateCache 0 (updateCache 0 new_cache "a.example" (JBool false))
             "b.example" (JBool true) in
  getCachedStatus CACHE_SUCCESS (cleanupCache (CACHE_FAILURE + 1) c) "b.example"
  = JBool true.
Proof.
  intros c.
  destruct (cleanupCache_lookup_unchanged (CACHE_FAILURE + 1) CACHE_SUCCESS c "b.example")
    as [_ ->].
  - apply (bool_decide_unpack _). by vm_compute.
  - by vm_compute.
  - by vm_compute.
Defined.

Lemma expiredHosts_cleanup now now' c :
  now' <= now → expiredHosts now' (cleanupCache now c) = [].
Proof.
  intros Hle. destruct (expiredHosts now' (cleanupCache now c)) as [|h l] eqn:E; [done|].
  exfalso. assert (Hin : h ∈ expiredHosts now' (cleanupCache now c)) by (rewrite E; left).
  apply elem_of_expiredHosts in Hin as (t0 & Hin & Hexp).
  rewrite checkTimes_cleanup in Hin. apply list_elem_of_filter in Hin as [Hn Hin].
  cbn [fst] in Hn. rewrite status_of_cleanup in Hexp by done.
  apply Hn, elem_of_expiredHosts. exists t0. split; [done | lia].
Qed.

(** X6. What [cleanupCache] leaves: every entry kept is one of the cache
    before and is still within the duration of its status, and a second
    clean-up at the same or an earlier clock reading removes nothing. *)
Theorem cleanupCache_leaves_valid (now : Z) (c : cache) :
  (∀ h t0, (h, t0) ∈ checkTimes (cleanupCache now c) →
     (h, t0) ∈ checkTimes c
     ∧ status_of (cleanupCache now c) h = status_of c h
     ∧ now - t0 <= getCacheDuration (status_of c h))
  ∧ (∀ now', now' <= now →
       cleanupCache now' (cleanupCache now c) = cleanupCache now c).
Proof.
  split.
  - intros h t0 Hin. rewrite checkTimes_cleanup in Hin.
    apply list_elem_of_filter in Hin as [Hn Hin]. cbn [fst] in Hn.
    split_and!; [done | by apply status_of_cleanup |].
    destruct (decide (now - t0 <= getCacheDuration (status_of c h))) as [|Hgt]; [done|].
    exfalso. apply Hn, elem_of_expiredHosts. exists t0. split; [done | lia].
  - intros now' Hle. unfold cleanupCache at 1. by rewrite expiredHosts_cleanup.
Qed.

Lemma cleanup_classified now c :
  cache_classified c → cache_classified (cleanupCache now c).
Proof.
  unfold cache_classified. rewrite siteStatus_cleanup, !Forall_forall.
  intros Hc e [_ He]%list_elem_of_filter. by apply Hc.
Qed.

Lemma run_checker_snoc calls call :
  run_checker (calls ++ [call]) = run_checker_call (run_checker calls) call.
Proof. unfold run_checker. by rewrite foldl_app. Qed.

Lemma limit_no_local c : no_local_keys c → no_local_keys (limitCacheSize c).
Proof.
  unfold no_local_keys. rewrite siteStatus_limit, keys_filter_not_in, !Forall_forall.
  intros Hc h [_ Hh]%list_elem_of_filter. by apply Hc.
Qed.

Lemma updateCache_no_local now c h s :
  isLocalNetwork h = false → no_local_keys c → no_local_keys (updateCache now c h s).
Proof.
  intros Hh Hc. unfold updateCache.
  set (c1 := if bool_decide _ then limitCacheSize c else c).
  assert (no_local_keys c1) as Hc'.
  { unfold c1. case_bool_decide; [by apply limit_no_local | done]. }
  clearbody c1. unfold store, no_local_keys. cbn [siteStatus].
  rewrite keys_set_cases.
  destruct (decide (h ∈ JsMap.keys (siteStatus c1))); [exact Hc'|].
  apply Forall_app. split; [exact Hc'|]. by apply Forall_singleton.
Qed.

Lemma cleanup_no_local now c : no_local_keys c → no_local_keys (cleanupCache now c).
Proof.
  unfold no_local_keys. rewrite siteStatus_cleanup, keys_filter_not_in, !Forall_forall.
  intros Hc h [_ Hh]%list_elem_of_filter. by apply Hc.
Qed.

Lemma checkSite_no_local env c h :
  no_local_keys c → no_local_keys (checkSite env c h).1.2.
Proof.
  intros Hc. unfold checkSite, checkSite_start.
  destruct (isLocalNetwork h) eqn:Hl; [done|].
  destruct (negb _); [done|]. cbn [fst snd].
  unfold checkSite_settle. destruct (race _ _); by apply updateCache_no_local.
Qed.

Lemma settle_preserves env c h :
  cache_inv c → cache_classified c →
  let settled := race (env_timed_out env) (checkAvailability (env_net env) h) in
  cache_inv (checkSite_settle (env_t_next env) settled c h).2
  ∧ cache_classified (checkSite_settle (env_t_next env) settled c h).2.
Proof.
  intros Hi Hc settled. unfold checkSite_settle.
  destruct settled as [v|e] eqn:Hrace; cbn [snd].
  - split; [by apply updateCache_inv|]. apply updateCache_classified; [done|].
    unfold settled, race in Hrace. destruct (env_timed_out env); [done|].
    by apply checkAvailability_classified in Hrace.
  - split; [by apply updateCache_inv|]. apply updateCache_classified; [done|].
    unfold result_classes. set_solver.
Qed.

(** What holds of every cache that [checkSite] and [cleanupCache] build
    from the empty one, in any interleaving. *)
Lemma run_checker_inv calls :
  cache_inv (run_checker calls)
  ∧ cache_classified (run_checker calls)
  ∧ no_local_keys (run_checker calls).
Proof.
  induction calls as [|call calls IH] using rev_ind.
  - split_and!; [|constructor|constructor].
    split_and!; [done | constructor | simpl; lia].
  - rewrite run_checker_snoc. destruct IH as (Hi & Hc & Hl).
    destruct call as [env h|env h|now]; cbn [run_checker_call].
    + destruct (checkSite_preserves env _ h Hi Hc) as [Hi' Hc'].
      split_and!; [done | done | by apply checkSite_no_local].
    + destruct (isLocalNetwork h) eqn:Hloc; [done|].
      destruct (settle_preserves env _ h Hi Hc) as [Hi' Hc'].
      split_and!; [done | done |]. cbv zeta. unfold checkSite_settle.
      destruct (race _ _); by apply updateCache_no_local.
    + split_and!; [by apply cleanupCache_inv | by apply cleanup_classified
                   | by apply cleanup_no_local].
Qed.

(** X7. Over every run of [checkSite] and [cleanupCache] calls from a new
    checker, whole calls and calls that settle after others alike,
    whatever the network answers and the clocks read: the two maps hold
    the same hostnames, each once and at most 500 of them, every stored
    status is one of the four result classes, and the next
    [checkSite] resolves to one of the four classes, or to [null] when it
    takes the cache-hit path and the entry expires between the two clock
    readings. *)
Theorem run_checker_cache_sound (calls : list checker_call) (env : check_env)
    (h : string) :
  let c := run_checker calls in
  JsMap.keys (siteStatus c) = JsMap.keys (checkTimes c)
  ∧ NoDup (JsMap.keys (checkTimes c))
  ∧ (JsMap.size (siteStatus c) <= 500)%nat
  ∧ (∀ h' s, JsMap.get (siteStatus c) h' = Some s → s ∈ result_classes)
  ∧ ((checkSite env c h).1.1 ∈ result_classes
     ∨ ((checkSite env c h).1.1 = JNull
        ∧ (checkSite env c h).2 = false
        ∧ env_t_recheck env < env_t_next env)).
Proof.
  intros c. destruct (run_checker_inv calls) as ((Hk & Hnd & Hsz) & Hc & _).
  fold c in Hk, Hnd, Hsz, Hc. split_and!; try done.
  - intros h' s. by apply get_classified.
  - destruct (checkSite_value_cases env c h Hk Hc) as [H|(H1 & H2 & t0 & _ & H3 & H4)];
      [by left | right]. split_and!; [done | done | lia].
Qed.

(** X8. A local hostname is never checked and never cached: over every
    run, neither map has an entry for it, and [checkSite] answers [true]
    for it without a probe and without touching the cache. *)
Theorem local_hosts_never_cached (calls : list checker_call) (h : string)
    (Hlocal : isLocalNetwork h = true) :
  JsMap.get (siteStatus (run_checker calls)) h = None
  ∧ JsMap.get (checkTimes (run_checker calls)) h = None
  ∧ ∀ env, checkSite env (run_checker calls) h = (JBool true, run_checker calls, false).
Proof.
  destruct (run_checker_inv calls) as ((Hk & _ & _) & _ & Hl).
  assert (Hn : h ∉ JsMap.keys (siteStatus (run_checker calls))).
  { intros Hin. unfold no_local_keys in Hl. rewrite Forall_forall in Hl.
    specialize (Hl h Hin). congruence. }
  split_and!.
  - by apply get_None_keys.
  - apply get_None_keys. by rewrite <- Hk.
  - intros env. unfold checkSite, checkSite_start. by rewrite Hlocal.
Qed.

Lemma local_hosts_never_cached_witness :
  JsMap.get (siteStatus (run_checker sample_run)) "localhost" = None.
Proof.
  destruct (local_hosts_never_cached sample_run "localhost") as [H _];
    [by vm_compute | exact H].
Defined.


Lemma get_limit_siteStatus c h :
  JsMap.get (siteStatus (limitCacheSize c)) h
  = if decide (h ∈ (toRemove c).*1) then None else JsMap.get (siteStatus c) h.
Proof. by rewrite siteStatus_limit, RenderFacts.get_filter_not_in. Qed.

Lemma get_limit_checkTimes c h :
  JsMap.get (checkTimes (limitCacheSize c)) h
  = if decide (h ∈ (toRemove c).*1) then None else JsMap.get (checkTimes c) h.
Proof. by rewrite checkTimes_limit, RenderFacts.get_filter_not_in. Qed.

(** X10. [updateCache] for one hostname never alters what the cache
    answers for another: the other hostname's entry is either untouched
    (always so while the cache holds fewer than 500 hostnames) or, when
    [limitCacheSize] evicts it, gone from both maps; it never gets another
    status or another check time. *)
Theorem updateCache_other_host (now : Z) (c : cache) (h h' : string) (s : jsval)
    (Hne : h ≠ h') :
  let c' := updateCache now c h s in
  ((JsMap.get (siteStatus c') h' = JsMap.get (siteStatus c) h'
    ∧ JsMap.get (checkTimes c') h' = JsMap.get (checkTimes c) h')
   ∨ (JsMap.get (siteStatus c') h' = None ∧ JsMap.get (checkTimes c') h' = None))
  ∧ ((JsMap.size (siteStatus c) < 500)%nat →
     JsMap.get (siteStatus c') h' = JsMap.get (siteStatus c) h'
     ∧ JsMap.get (checkTimes c') h' = JsMap.get (checkTimes c) h'
     ∧ ∀ t, getCachedStatus t c' h' = getCachedStatus t c h').
Proof.
  intros c'. unfold c', updateCache, store. cbn [siteStatus checkTimes].
  rewrite !get_set_ne by done. split.
  - case_bool_decide; [|by left].
    rewrite get_limit_siteStatus, get_limit_checkTimes.
    case_decide; [by right | by left].
  - intros Hsz. rewrite bool_decide_eq_false_2 by (unfold MAX_CACHE_SIZE; lia).
    split_and!; [done | done |]. intros t.
    unfold getCachedStatus, isCacheValid, status_of. cbn [siteStatus checkTimes].
    by rewrite !get_set_ne.
Qed.

Lemma updateCache_other_host_witness :
  let c := updateCache 0 new_cache "a.example" (JStr "no-https") in
  getCachedStatus 5 (updateCache 1 c "b.example" (JBool false)) "a.example"
  = JStr "no-https".
Proof.
  intros c.
  destruct (updateCache_other_host 1 c "b.example" "a.example" (JBool false))
    as [_ H]; [done|].
  destruct H as (_ & _ & H); [vm_compute; lia|].
  rewrite H. by vm_compute.
Defined.

End CheckerRunFacts.

(** ** The prefix test of [isLocalNetwork] on [172.] hostnames *)

Module PrivateRangeFacts.
Import SiteChecker.
Local Open Scope Z_scope.

Lemma prefix_empty s : String.prefix "" s = true.
Proof. by destruct s. Qed.

Lemma split_no_dot (mid s : string) :
  JsString.includes mid "." = false →
  JsString.split "." (mid +:+ String "." s) = mid :: JsString.split "." s
  ∧ JsString.split "." mid = [mid].
Proof.
  induction mid as [|a mid IH]; intros Hno.
  - split; reflexivity.
  - cbn [JsString.includes] in Hno. apply orb_false_elim in Hno as [Ha Hno].
    destruct (IH Hno) as [IH1 IH2].
    assert (Hne : Ascii.eqb a "." = false).
    { destruct (Ascii.eqb_spec a ".") as [->|]; [|done].
      cbn in Ha. by rewrite prefix_empty in Ha. }
    change (String a mid +:+ String "." s) with (String a (mid +:+ String "." s)).
    cbn [JsString.split]. rewrite Hne, IH1, IH2. done.
Qed.

(** X11. On a hostname [172.<mid>.<rest>] or [172.<mid>], with no dot
    in [mid], the prefix version of [isLocalNetwork] answers [true]
    exactly when the hostname ends in [.local] or [parseInt(mid)] lies in
    16..31; nothing is asked of [rest], and [parseInt] skips the white
    space of the language in front of [mid], the no-break space too, and
    reads only the leading digits. *)
Theorem isLocalNetwork_172 (mid rest : string)
    (Hmid : JsString.includes mid "." = false) :
  let second := match JsString.parseInt mid with
                | Some n => bool_decide (16 <= n <= 31)
                | None => false
                end in
  isLocalNetwork ("172." +:+ mid +:+ "." +:+ rest)
  = JsString.endsWith ("172." +:+ mid +:+ "." +:+ rest) ".local" || second
  ∧ isLocalNetwork ("172." +:+ mid)
    = JsString.endsWith ("172." +:+ mid) ".local" || second.
Proof.
  intros second.
  destruct (split_no_dot mid rest Hmid) as [Hs1 Hs2].
  assert (Hsecond : ∀ o : option Z,
    match o with
    | Some secondPart => bool_decide (secondPart >= 16) && bool_decide (secondPart <= 31)
    | None => false
    end = match o with Some n => bool_decide (16 <= n <= 31) | None => false end).
  { intros [n|]; [|done]. repeat case_bool_decide; try done; lia. }
  split.
  - unfold isLocalNetwork.
    change ("172." +:+ mid +:+ "." +:+ rest)
      with (String "1" (String "7" (String "2" (String "." (mid +:+ String "." rest))))).
    set (h := String "1" _).
    assert (Hsp : JsString.split "." h = "172" :: mid :: JsString.split "." rest).
    { unfold h. cbn [JsString.split]. cbn [Ascii.eqb Bool.eqb]. by rewrite Hs1. }
    rewrite Hsp. cbn [nth length]. rewrite Hsecond. fold second.
    replace (String.eqb h "localhost") with false by done.
    replace (String.eqb h "127.0.0.1") with false by done.
    replace (JsString.startsWith h "192.168.") with false by done.
    replace (JsString.startsWith h "10.") with false by done.
    replace (JsString.startsWith h "172.") with true
      by (symmetry; apply (LocalNetworkFacts.startsWith_append "172.")).
    cbn [orb andb]. rewrite bool_decide_eq_true_2 by (cbn [length]; lia).
    cbn [andb]. destruct (JsString.endsWith h ".local"), second; done.
  - unfold isLocalNetwork.
    change ("172." +:+ mid)
      with (String "1" (String "7" (String "2" (String "." mid)))).
    set (h := String "1" _).
    assert (Hsp : JsString.split "." h = ["172"; mid]).
    { unfold h. cbn [JsString.split]. cbn [Ascii.eqb Bool.eqb]. by rewrite Hs2. }
    rewrite Hsp. cbn [nth length]. rewrite Hsecond. fold second.
    replace (String.eqb h "localhost") with false by done.
    replace (String.eqb h "127.0.0.1") with false by done.
    replace (JsString.startsWith h "192.168.") with false by done.
    replace (JsString.startsWith h "10.") with false by done.
    replace (JsString.startsWith h "172.") with true
      by (symmetry; apply (LocalNetworkFacts.startsWith_append "172.")).
    cbn [orb andb]. rewrite bool_decide_eq_true_2 by lia.
    cbn [andb]. destruct (JsString.endsWith h ".local"), second; done.
Qed.

Lemma isLocalNetwork_172_witness :
  isLocalNetwork "172.20abc.example.com" = true
  ∧ isLocalNetwork ("172." +:+ JsString.no_break_space +:+ "20.1.1") = true
  ∧ isLocalNetwork ("172." +:+ JsString.no_break_space +:+ "32.1.1") = false.
Proof.
  destruct (isLocalNetwork_172 "20abc" "example.com") as [H1 _]; [done|].
  destruct (isLocalNetwork_172 (JsString.no_break_space +:+ "20") "1.1") as [H2 _]; [done|].
  destruct (isLocalNetwork_172 (JsString.no_break_space +:+ "32") "1.1") as [H3 _]; [done|].
  split_and!.
  - change ("172." +:+ "20abc" +:+ "." +:+ "example.com") with "172.20abc.example.com" in H1.
    rewrite H1. by vm_compute.
  - change ("172." +:+ JsString.no_break_space +:+ "20.1.1")
      with ("172." +:+ (JsString.no_break_space +:+ "20") +:+ "." +:+ "1.1").
    rewrite H2. by vm_compute.
  - change ("172." +:+ JsString.no_break_space +:+ "32.1.1")
      with ("172." +:+ (JsString.no_break_space +:+ "32") +:+ "." +:+ "1.1").
    rewrite H3. by vm_compute.
Defined.

End PrivateRangeFacts.

(** ** The one-map checker of [js/siteChecker.js] *)

Module LegacyCheckFacts.
Import JsMapFacts SiteChecker.
Import LegacyChecks.
Local Open Scope Z_scope.

(** X12. The decision table of the legacy [checkSite] for a hostname
    that is not local and has to be checked: the favicon probe alone
    decides [true]; when the favicon does not load, the verdict is
    ['certificate-error'] unless the HEAD request on [https://hostname]
    is rejected with an error whose text mentions "name not resolved",
    "hostname" or "dns" (in any letter case), in which case, as when the
    probe throws, it is [false]; so a site whose favicon fails and whose
    HEAD request succeeds is reported as a certificate error. The verdict
    is stored with the clock reading of [updateCache]. *)
Theorem legacy_checkSite_table (env : LegacyChecks.check_env) (c : JsMap.t entry)
    (h : string)
    (Hlocal : LegacySiteChecker.isLocalNetwork h = false)
    (Hdue : LegacyChecks.shouldRecheck (env_t_recheck env) c h = true) :
  let r := LegacyChecks.checkSite env c h in
  r.2 = true
  ∧ r.1.2 = JsMap.set c h (Entry r.1.1 (env_t_update env))
  ∧ (r.1.1 = JBool true ↔ image_probe (env_net env) h = Returned true)
  ∧ (r.1.1 = JStr "certificate-error"
     ↔ image_probe (env_net env) h = Returned false
       ∧ (fetch_head (env_net env) ("https://" +:+ h) = None
          ∨ ∃ e, fetch_head (env_net env) ("https://" +:+ h) = Some e
                 ∧ dns_error e = false))
  ∧ (r.1.1 = JBool false
     ↔ (∃ e, image_probe (env_net env) h = Thrown e)
       ∨ (image_probe (env_net env) h = Returned false
          ∧ ∃ e, fetch_head (env_net env) ("https://" +:+ h) = Some e
                 ∧ dns_error e = true)).
Proof.
  intros r. unfold r, LegacyChecks.checkSite. rewrite Hlocal, Hdue. cbn [negb].
  cbv zeta. cbn [fst snd].
  unfold verdict, quickCheckFavicon, LegacyChecks.checkDomainExists,
    LegacyChecks.updateCache.
  destruct (image_probe (env_net env) h) as [[|]|e] eqn:Ep.
  - split_and!; try done.
    + split; [done|]. by intros [[=] _].
    + split; [done|]. intros [[e [=]]|[[=] _]].
  - destruct (fetch_head (env_net env) ("https://" +:+ h)) as [e|] eqn:Ef.
    + destruct (dns_error e) eqn:Ed; cbn [negb].
      * split_and!; try done.
        -- split; [done|]. intros [_ [[=]|(e' & [= <-] & Hd)]]. congruence.
        -- split; [|done]. intros _. right. split; [done|]. by exists e.
      * split_and!; try done.
        -- split; [|done]. intros _. split; [done|]. right. by exists e.
        -- split; [done|]. intros [[e' [=]]|[_ (e' & [= <-] & Hd)]]. congruence.
    + cbn [negb]. split_and!; try done.
      * split; [|done]. intros _. split; [done|]. by left.
      * split; [done|]. intros [[e' [=]]|[_ (e' & [=] & _)]].
  - split_and!; try done.
    + split; [done|]. by intros [[=] _].
    + split; [|done]. intros _. left. by exists e.
Qed.

Lemma legacy_checkSite_table_witness :
  (LegacyChecks.checkSite (LegacyChecks.CheckEnv online 0 5) [] "example.com").1.1
  = JBool true.
Proof.
  destruct (legacy_checkSite_table (LegacyChecks.CheckEnv online 0 5) [] "example.com")
    as (_ & _ & H & _); [by vm_compute | by vm_compute |].
  by apply H.
Defined.

Lemma set_stored_ok c h s t :
  stored_ok c → s ∈ statuses → stored_ok (JsMap.set c h (Entry s t)).
Proof.
  intros Hc Hs. induction c as [|[k w] c IH]; cbn [JsMap.set].
  - apply Forall_cons. split; [done | apply Forall_nil_2].
  - apply Forall_cons in Hc as [Hw Hc].
    case_decide; apply Forall_cons; split; try done. by apply IH.
Qed.

Lemma verdict_statuses net h : verdict net h ∈ statuses.
Proof.
  unfold verdict, statuses.
  destruct (quickCheckFavicon net h) as [[|]|e]; [set_solver| |set_solver].
  destruct (negb _); set_solver.
Qed.

Lemma legacy_checkSite_value env c h :
  stored_ok c →
  (LegacyChecks.checkSite env c h).1.1 ∈ statuses
  ∧ stored_ok (LegacyChecks.checkSite env c h).1.2.
Proof.
  intros Hc. unfold LegacyChecks.checkSite.
  destruct (LegacySiteChecker.isLocalNetwork h).
  { split; [unfold statuses; set_solver | done]. }
  destruct (LegacyChecks.shouldRecheck _ c h) eqn:Hre; cbn [negb fst snd].
  - split; [apply verdict_statuses|].
    apply set_stored_ok; [done | apply verdict_statuses].
  - split; [|done].
    unfold LegacyChecks.shouldRecheck in Hre. unfold LegacyChecks.getCachedStatus.
    destruct (JsMap.get c h) as [cached|] eqn:Eg; [|done].
    apply get_Some_elem in Eg. unfold stored_ok in Hc. rewrite Forall_forall in Hc.
    exact (Hc _ Eg).
Qed.

Lemma run_stored_ok calls : stored_ok (LegacyChecks.run calls).
Proof.
  unfold LegacyChecks.run.
  induction calls as [|call calls IH] using rev_ind; [constructor|].
  rewrite foldl_app. cbn [foldl]. destruct call as [env h|env h];
    cbn [LegacyChecks.run_checker_call].
  - by apply legacy_checkSite_value.
  - destruct (LegacySiteChecker.isLocalNetwork h); [done|].
    apply set_stored_ok; [done | apply verdict_statuses].
Qed.

(** X13. Over every run of the legacy checker, whole calls and calls
    that settle after others alike, [checkSite] resolves to
    [true], [false] or ['certificate-error']: never to ['no-https'], and
    never to [null], because its cache-hit path does not read the clock a
    second time. *)
Theorem legacy_checkSite_three_values (calls : list LegacyChecks.checker_call)
    (env : LegacyChecks.check_env) (h : string) :
  (LegacyChecks.checkSite env (LegacyChecks.run calls) h).1.1
  ∈ [JBool true; JBool false; JStr "certificate-error"].
Proof. apply legacy_checkSite_value, run_stored_ok. Qed.

(** X14. The legacy checker keeps every verdict for the same 24 hours,
    [false] as well: after a check of a hostname at clock reading [t0],
    each later [checkSite] for it whose clock reading is at most
    [t0 + 86400000] returns the stored verdict without a probe and leaves
    the cache as it is, and the first one after that probes again. *)
Theorem legacy_one_duration (env0 env1 : LegacyChecks.check_env) (c : JsMap.t entry)
    (h : string)
    (Hlocal : LegacySiteChecker.isLocalNetwork h = false)
    (Hdue : LegacyChecks.shouldRecheck (env_t_recheck env0) c h = true) :
  let r0 := LegacyChecks.checkSite env0 c h in
  (env_t_recheck env1 - env_t_update env0 <= 86400000 →
     LegacyChecks.checkSite env1 r0.1.2 h = (r0.1.1, r0.1.2, false))
  ∧ (env_t_recheck env1 - env_t_update env0 > 86400000 →
     (LegacyChecks.checkSite env1 r0.1.2 h).2 = true).
Proof.
  intros r0.
  assert (Hget : JsMap.get r0.1.2 h = Some (Entry r0.1.1 (env_t_update env0))).
  { unfold r0, LegacyChecks.checkSite. rewrite Hlocal, Hdue. cbn [negb fst snd].
    apply get_set_eq. }
  split; intros Ht; unfold LegacyChecks.checkSite at 1; rewrite Hlocal;
    unfold LegacyChecks.shouldRecheck, LegacyChecks.getCachedStatus; rewrite Hget;
    cbn [timestamp status].
  - rewrite bool_decide_eq_false_2 by (unfold cacheTimeout; lia). done.
  - by rewrite bool_decide_eq_true_2 by (unfold cacheTimeout; lia).
Qed.

Lemma legacy_one_duration_witness :
  let env0 := LegacyChecks.CheckEnv
                (Network (λ _, Some (JsError "TypeError" "DNS lookup failed"))
                         (λ _, Returned false)) 0 0 in
  let c := (LegacyChecks.checkSite env0 [] "gone.example").1.2 in
  LegacyChecks.checkSite (LegacyChecks.CheckEnv online 86400000 86400000) c "gone.example"
  = (JBool false, c, false).
Proof.
  intros env0 c.
  destruct (legacy_one_duration env0 (LegacyChecks.CheckEnv online 86400000 86400000)
              [] "gone.example") as [H _]; [by vm_compute | by vm_compute |].
  unfold c. rewrite H; by vm_compute.
Defined.

End LegacyCheckFacts.

(** ** The checker of [js/modules/uiManager.js] beside the current one *)

Module UiCheckerFacts.
Import SiteChecker.
Local Open Scope Z_scope.

Lemma https_loop_try net urls err :
  (https_loop net urls err).1
  = if UiSiteChecker.try_urls net urls then Some (JBool true) else None.
Proof.
  revert err. induction urls as [|url urls IH]; intros err; [done|].
  cbn [https_loop UiSiteChecker.try_urls].
  unfold tryHeadRequest, UiSiteChecker.tryHeadRequest.
  destruct (fetch_head net url); [apply IH | done].
Qed.

Lemma http_loop_try net urls :
  http_loop net urls
  = if UiSiteChecker.try_urls net urls then Some (JStr "no-https") else None.
Proof.
  induction urls as [|url urls IH]; [done|].
  cbn [http_loop UiSiteChecker.try_urls].
  unfold tryHeadRequest, UiSiteChecker.tryHeadRequest.
  destruct (fetch_head net url); [apply IH | done].
Qed.

(** X15. The checker kept in [uiManager.js] and the current one agree on
    reachability: on the same network answers, the older
    [checkAvailability] answers [true] exactly when the current one
    returns [true] or ['no-https']; a site reachable over HTTP only, or one
    the current checker classifies as a certificate error, differ only in
    the label. *)
Theorem ui_checkAvailability_agrees (net : network) (hostname : string) :
  UiSiteChecker.checkAvailability net hostname = true
  ↔ checkAvailability net hostname = Returned (JBool true)
    ∨ checkAvailability net hostname = Returned (JStr "no-https").
Proof.
  unfold UiSiteChecker.checkAvailability, checkAvailability.
  pose proof (https_loop_try net (httpsUrls hostname) None) as H1.
  destruct (https_loop net (httpsUrls hostname) None) as [o err]. cbn [fst] in H1.
  rewrite H1, http_loop_try.
  destruct (UiSiteChecker.try_urls net (httpsUrls hostname)); [split; [by left | done]|].
  destruct (UiSiteChecker.try_urls net (httpUrls hostname)); [split; [by right | done]|].
  split; [done|].
  destruct (checkDomainExists net hostname) as [d|e]; [|by intros [|]].
  case_match; by intros [|].
Qed.

(** X16. The checker kept in [uiManager.js] has exactly two cache
    durations, 24 hours for a truthy status and one hour for any other:
    after a check stored at clock reading [t0], a later [checkSite] for the
    hostname returns the stored verdict without a probe, and leaves the
    cache as it is, as long as the clock reads at most [t0 + 86400000] for
    a reachable site and at most [t0 + 3600000] for an unreachable one;
    after that it probes again. *)
Theorem ui_two_durations (net net' : network) (t_recheck t0 t : Z) (c : cache)
    (h : string)
    (Hdue : UiSiteChecker.shouldRecheck t_recheck c h = true) :
  let r0 := UiSiteChecker.checkSite net t_recheck t0 c h in
  let ttl := if UiSiteChecker.checkAvailability net h then 86400000 else 3600000 in
  size UiSiteChecker.duration_buckets = 2%nat
  ∧ (∀ s, UiSiteChecker.cacheDuration s = 86400000
          ∨ UiSiteChecker.cacheDuration s = 3600000)
  ∧ r0.1.1 = JBool (UiSiteChecker.checkAvailability net h)
  ∧ (t - t0 <= ttl →
     UiSiteChecker.checkSite net' t t r0.1.2 h = (r0.1.1, r0.1.2, false))
  ∧ (t - t0 > ttl → (UiSiteChecker.checkSite net' t t r0.1.2 h).2 = true).
Proof.
  intros r0 ttl. set (a := UiSiteChecker.checkAvailability net h) in *.
  set (c' := UiSiteChecker.updateCache t0 c h (JBool a)).
  assert (Hr0 : r0 = (JBool a, c', true)).
  { unfold r0, UiSiteChecker.checkSite. by rewrite Hdue. }
  rewrite Hr0. cbn [fst snd]. clear Hr0 r0.
  assert (Ht : JsMap.get (checkTimes c') h = Some t0) by apply JsMapFacts.get_set_eq.
  assert (Hs : status_of c' h = JBool a).
  { unfold status_of, c', UiSiteChecker.updateCache, store. cbn [siteStatus].
    by rewrite JsMapFacts.get_set_eq. }
  assert (Hd : UiSiteChecker.cacheDuration (JBool a) = ttl) by (by destruct a).
  split_and!.
  - by vm_compute.
  - intros s. unfold UiSiteChecker.cacheDuration. destruct (truthy s); auto.
  - done.
  - intros Hle. unfold UiSiteChecker.checkSite, UiSiteChecker.shouldRecheck,
      UiSiteChecker.getCachedStatus, UiSiteChecker.isCacheValid, JsMap.has.
    rewrite Ht, Hs, Hd. cbn [negb default from_option id].
    rewrite bool_decide_eq_false_2 by lia. cbn [negb].
    by rewrite bool_decide_eq_true_2 by lia.
  - intros Hgt. unfold UiSiteChecker.checkSite, UiSiteChecker.shouldRecheck, JsMap.has.
    rewrite Ht, Hs, Hd. cbn [negb default from_option id].
    by rewrite bool_decide_eq_true_2 by lia.
Qed.

Lemma ui_two_durations_witness :
  let c := (UiSiteChecker.checkSite (Network (λ _, Some (JsError "TypeError" "Failed to fetch"))
                                             (λ _, Returned true)) 0 0 new_cache
              "gone.example").1.2 in
  UiSiteChecker.checkSite online 3600000 3600000 c "gone.example" = (JBool false, c, false)
  ∧ (UiSiteChecker.checkSite online 3600001 3600001 c "gone.example").2 = true.
Proof.
  intros c.
  destruct (ui_two_durations (Network (λ _, Some (JsError "TypeError" "Failed to fetch"))
                                      (λ _, Returned true)) online 0 0 3600000
              new_cache "gone.example") as (_ & _ & _ & H1 & _); [done|].
  destruct (ui_two_durations (Network (λ _, Some (JsError "TypeError" "Failed to fetch"))
                                      (λ _, Returned true)) online 0 0 3600001
              new_cache "gone.example") as (_ & _ & _ & _ & H2); [done|].
  split; [apply H1; by vm_compute | apply H2; by vm_compute].
Defined.

End UiCheckerFacts.

(** ** Rendering that throws: saved ids that name a member of
    [Object.prototype] *)

Module RenderRunFacts.
Import SiteChecker ColumnManager KanbanRenderer Board.

(** An id of the browser names no member of [Object.prototype]. *)
Lemma decimal_not_inherited (i : string) :
  decimal_id i = true → JsObject.inherited i = false.
Proof.
  intros Hdec. apply bool_decide_eq_false. unfold JsObject.prototype_members.
  rewrite !elem_of_cons, elem_of_nil. intros Hin.
  destruct_or!; try done; subst i; vm_compute in Hdec; discriminate.
Qed.

Lemma bind_Returned_inv {A B} (call : outcome A) (rest : A → outcome B) (b : B) :
  Throw.bind call rest = Returned b → ∃ a, call = Returned a ∧ rest a = Returned b.
Proof. destruct call as [a|e]; [by exists a | done]. Qed.

Lemma for_each_Returned {A B} (f : A → outcome B) (g : A → B) (l : list A) :
  (∀ a, a ∈ l → f a = Returned (g a)) → Throw.for_each f l = Returned (g <$> l).
Proof.
  induction l as [|a l IH]; intros Hf; [done|]. cbn [Throw.for_each].
  rewrite Hf by left. cbn [Throw.bind].
  rewrite IH by (intros a' Ha'; apply Hf; by right). done.
Qed.

Lemma for_each_returns {A B} (f : A → outcome B) (g : A → B) (l : list A) bs :
  (∀ a b, a ∈ l → f a = Returned b → b = g a) →
  Throw.for_each f l = Returned bs → bs = g <$> l.
Proof.
  revert bs. induction l as [|a l IH]; intros bs Hf; cbn [Throw.for_each].
  - by intros [= <-].
  - intros (b & Hb & (bs' & Hbs' & [= <-])%bind_Returned_inv)%bind_Returned_inv.
    rewrite (Hf a b) by (done || left). csimpl. f_equal.
    apply IH; [|done]. intros a' b' Ha'. apply Hf. by right.
Qed.

Lemma omap_id_fmap {A B} (g : A → option B) (l : list A) :
  omap id (g <$> l) = omap g l.
Proof. induction l as [|a l IH]; [done|]. csimpl. rewrite IH. by destruct (g a). Qed.

(** One turn of the second loop as it runs. *)
Lemma render_saved_run_cons i saved st :
  render_saved_run (i :: saved) st
  = match JsObject.lookup st.2 i with
    | JsObject.Own bookmark =>
        render_saved_run saved (st.1 ++ [bookmark], JsObject.delete st.2 i)
    | JsObject.Inherited => Thrown title_undefined
    | JsObject.Undefined => render_saved_run saved st
    end.
Proof.
  unfold render_saved_run. cbn [foldl Throw.bind].
  destruct (JsObject.lookup st.2 i); try done.
  induction saved as [|j saved IH]; [done | exact IH].
Qed.

Lemma render_saved_step i saved st :
  render_saved (i :: saved) st
  = match JsObject.get st.2 i with
    | Some bookmark => render_saved saved (st.1 ++ [bookmark], JsObject.delete st.2 i)
    | None => render_saved saved st
    end.
Proof. unfold render_saved. cbn [foldl]. by destruct (JsObject.get st.2 i). Qed.

(** Whenever the second loop runs to its end, it leaves what
    [render_saved] gives. *)
Lemma render_saved_run_returns saved st st' :
  render_saved_run saved st = Returned st' → st' = render_saved saved st.
Proof.
  revert st. induction saved as [|i saved IH]; intros st.
  - by intros [= <-].
  - rewrite render_saved_run_cons, render_saved_step. unfold JsObject.lookup.
    destruct (JsObject.get st.2 i) as [b|]; [apply IH|].
    destruct (JsObject.inherited i); [done | apply IH].
Qed.

(** It runs to its end when no saved id names a member of
    [Object.prototype]. *)
Lemma render_saved_run_free saved st :
  Forall (λ i, JsObject.inherited i = false) saved →
  render_saved_run saved st = Returned (render_saved saved st).
Proof.
  intros Hfree. revert st. induction Hfree as [|i saved Hi _ IH]; intros st; [done|].
  rewrite render_saved_run_cons, render_saved_step. unfold JsObject.lookup.
  destruct (JsObject.get st.2 i) as [b|]; [apply IH|]. rewrite Hi. apply IH.
Qed.

(** The keys of the dictionary are ids of the bookmarks, and the second
    loop adds none. *)
Lemma bookmarkMap_of_keys (bookmarks : list node) (k : string) :
  k ∈ JsMap.keys (bookmarkMap_of bookmarks) → k ∈ node_id <$> bookmarks.
Proof.
  unfold bookmarkMap_of.
  assert (H : ∀ acc : JsObject.t node,
    k ∈ JsMap.keys
          (foldl (λ bookmarkMap bookmark,
                    if has_url bookmark
                    then JsObject.set bookmarkMap (node_id bookmark) bookmark
                    else bookmarkMap) acc bookmarks) →
    k ∈ JsMap.keys acc ∨ k ∈ node_id <$> bookmarks).
  { induction bookmarks as [|b bs IH]; intros acc; cbn [foldl]; [by left|].
    intros [Hk|Hk]%IH; [|right; by right].
    destruct (has_url b); [|by left].
    unfold JsObject.set in Hk. rewrite JsMapFacts.keys_set_cases in Hk.
    case_decide; [by left|].
    apply elem_of_app in Hk as [Hk|Hk]; [by left|].
    apply list_elem_of_singleton in Hk as ->. right. left. }
  intros [Hk|Hk]%H; [by apply elem_of_nil in Hk | done].
Qed.

Lemma render_saved_keys saved st (k : string) :
  k ∈ JsMap.keys (render_saved saved st).2 → k ∈ JsMap.keys st.2.
Proof.
  revert st. induction saved as [|i saved IH]; intros st; [done|].
  rewrite render_saved_step.
  destruct (JsObject.get st.2 i) as [b|]; [|apply IH].
  intros Hk%IH. cbn [snd] in Hk. unfold JsObject.delete in Hk.
  rewrite JsMapFacts.keys_delete in Hk. by apply list_elem_of_filter in Hk as [_ Hk].
Qed.

(** With the ids of the browser as keys, the second loop throws as soon
    as the saved order has an id that names a member of
    [Object.prototype], wherever it stands. *)
Lemma render_saved_run_inherited saved st :
  (∀ k, k ∈ JsMap.keys st.2 → decimal_id k = true) →
  Exists (λ i, JsObject.inherited i = true) saved →
  render_saved_run saved st = Thrown title_undefined.
Proof.
  intros Hkeys Hex. revert st Hkeys.
  induction Hex as [i saved Hi|i saved _ IH]; intros st Hkeys;
    rewrite render_saved_run_cons; unfold JsObject.lookup.
  - destruct (JsObject.get st.2 i) as [b|] eqn:Hget; [|by rewrite Hi].
    apply JsMapFacts.get_Some_elem in Hget.
    assert (Hk : i ∈ JsMap.keys st.2).
    { unfold JsMap.keys. apply list_elem_of_fmap. by exists (i, b). }
    apply Hkeys, decimal_not_inherited in Hk. congruence.
  - destruct (JsObject.get st.2 i) as [b|].
    + apply IH. intros k Hk. cbn [snd] in Hk. unfold JsObject.delete in Hk.
      rewrite JsMapFacts.keys_delete in Hk.
      apply list_elem_of_filter in Hk as [_ Hk]. by apply Hkeys.
    + destruct (JsObject.inherited i); [done | by apply IH].
Qed.

Lemma renderOrderedBookmarks_run_returns bookmarks saved l :
  renderOrderedBookmarks_run bookmarks saved = Returned l →
  l = renderOrderedBookmarks bookmarks saved.
Proof.
  unfold renderOrderedBookmarks_run, renderOrderedBookmarks.
  intros (st & ->%render_saved_run_returns & [= <-])%bind_Returned_inv. done.
Qed.

Lemma renderOrderedBookmarks_run_free bookmarks saved :
  Forall (λ i, JsObject.inherited i = false) saved →
  renderOrderedBookmarks_run bookmarks saved
  = Returned (renderOrderedBookmarks bookmarks saved).
Proof.
  intros Hfree. unfold renderOrderedBookmarks_run, renderOrderedBookmarks.
  by rewrite render_saved_run_free.
Qed.

(** [renderOrderedBookmarks] on bookmarks of the browser throws exactly
    when the saved order has an id that names a member of
    [Object.prototype]. *)
Lemma renderOrderedBookmarks_run_throws_iff bookmarks saved :
  Forall (λ b, decimal_id (node_id b) = true) bookmarks →
  renderOrderedBookmarks_run bookmarks saved = Thrown title_undefined
  ↔ Exists (λ i, JsObject.inherited i = true) saved.
Proof.
  intros Hdec. split.
  - intros Hthrown.
    destruct (decide (Exists (λ i, JsObject.inherited i = true) saved)) as [|Hno]; [done|].
    rewrite renderOrderedBookmarks_run_free in Hthrown; [done|].
    apply not_Exists_Forall in Hno; [|apply _].
    eapply Forall_impl; [exact Hno|]. intros i Hi. by apply not_true_is_false.
  - intros Hex. unfold renderOrderedBookmarks_run.
    rewrite render_saved_run_inherited; [done| |done].
    intros k (b & -> & Hb)%bookmarkMap_of_keys%list_elem_of_fmap.
    rewrite Forall_forall in Hdec. by apply Hdec.
Qed.

Section Render.
Context (sortBookmarks : list node → list node).

(** What a call returns is what the first set of definitions gives. *)
Lemma renderSubfolderGroup_run_returns folder saved g :
  renderSubfolderGroup_run folder saved = Returned g →
  g = renderSubfolderGroup folder saved.
Proof.
  unfold renderSubfolderGroup_run, renderSubfolderGroup.
  destruct (node_children folder) as [[|c cs]|]; try by intros [= <-].
  intros (items & Hitems & [= <-])%bind_Returned_inv. do 2 f_equal.
  destruct (saved_for saved _) as [savedOrder|].
  - by apply renderOrderedBookmarks_run_returns.
  - by injection Hitems.
Qed.

Lemma renderFolderColumn_run_returns folder saved el :
  renderFolderColumn_run sortBookmarks folder saved = Returned el →
  el = renderFolderColumn sortBookmarks folder saved.
Proof.
  unfold renderFolderColumn_run, renderFolderColumn.
  intros (items & Hitems & [= <-])%bind_Returned_inv. f_equal.
  destruct (node_children folder) as [cs|]; [|by injection Hitems as <-].
  f_equal. destruct (saved_for saved _) as [savedOrder|].
  - by apply renderOrderedBookmarks_run_returns.
  - by injection Hitems.
Qed.

Lemma renderSpecialColumn_run_returns title bookmarks folder_id type saved el :
  renderSpecialColumn_run sortBookmarks title bookmarks folder_id type saved = Returned el →
  el = renderSpecialColumn sortBookmarks title bookmarks folder_id type saved.
Proof.
  unfold renderSpecialColumn_run, renderSpecialColumn. cbv zeta.
  intros (items & Hitems & (groups & Hgroups & [= <-])%bind_Returned_inv)%bind_Returned_inv.
  apply (for_each_returns _ (λ bookmark, if has_children bookmark
                                         then renderSubfolderGroup bookmark saved
                                         else None)) in Hgroups.
  2: { intros b g _. destruct (has_children b); [|by intros [= <-]].
       apply renderSubfolderGroup_run_returns. }
  rewrite Hgroups, omap_id_fmap. do 3 f_equal.
  destruct (match (if String.eqb type "uncategorized" then Some "uncategorized"
                   else folder_id) with
            | Some i => if String.eqb i "" then None else saved_for saved i
            | None => None
            end) as [savedOrder|].
  - by apply renderOrderedBookmarks_run_returns.
  - by injection Hitems.
Qed.

Lemma renderColumn_run_returns saved col el :
  renderColumn_run sortBookmarks saved col = Returned el →
  el = renderColumn sortBookmarks saved col.
Proof.
  destruct col; cbn [renderColumn_run renderColumn].
  - apply renderFolderColumn_run_returns.
  - apply renderSpecialColumn_run_returns.
  - apply renderSpecialColumn_run_returns.
Qed.

(** Every call returns when no saved order names a member of
    [Object.prototype]. *)
Lemma ordered_run_free bookmarks saved key (unsaved : list node) :
  prototype_free saved →
  match saved_for saved key with
  | Some savedOrder => renderOrderedBookmarks_run bookmarks savedOrder
  | None => Returned unsaved
  end
  = Returned match saved_for saved key with
             | Some savedOrder => renderOrderedBookmarks bookmarks savedOrder
             | None => unsaved
             end.
Proof.
  intros Hfree. destruct (saved_for saved key) as [savedOrder|] eqn:Hkey; [|done].
  apply renderOrderedBookmarks_run_free. by apply (Hfree key).
Qed.

Lemma renderSubfolderGroup_run_free folder saved :
  prototype_free saved →
  renderSubfolderGroup_run folder saved = Returned (renderSubfolderGroup folder saved).
Proof.
  intros Hfree. unfold renderSubfolderGroup_run, renderSubfolderGroup.
  destruct (node_children folder) as [[|c cs]|]; try done.
  cbv zeta. by rewrite ordered_run_free.
Qed.

Lemma renderFolderColumn_run_free folder saved :
  prototype_free saved →
  renderFolderColumn_run sortBookmarks folder saved
  = Returned (renderFolderColumn sortBookmarks folder saved).
Proof.
  intros Hfree. unfold renderFolderColumn_run, renderFolderColumn.
  destruct (node_children folder) as [cs|]; [|done].
  cbv zeta. by rewrite ordered_run_free.
Qed.

Lemma renderSpecialColumn_run_free title bookmarks folder_id type saved :
  prototype_free saved →
  renderSpecialColumn_run sortBookmarks title bookmarks folder_id type saved
  = Returned (renderSpecialColumn sortBookmarks title bookmarks folder_id type saved).
Proof.
  intros Hfree. unfold renderSpecialColumn_run, renderSpecialColumn. cbv zeta.
  rewrite (for_each_Returned _ (λ bookmark, if has_children bookmark
                                            then renderSubfolderGroup bookmark saved
                                            else None)).
  2: { intros b _. destruct (has_children b); [|done].
       by apply renderSubfolderGroup_run_free. }
  destruct (if String.eqb type "uncategorized" then Some "uncategorized" else folder_id)
    as [i|]; cbv beta iota; [destruct (String.eqb i ""); cbv beta iota|];
    try (cbn [Throw.bind]; by rewrite omap_id_fmap).
  rewrite ordered_run_free by done. cbn [Throw.bind]. by rewrite omap_id_fmap.
Qed.

Lemma renderColumn_run_free saved col :
  prototype_free saved →
  renderColumn_run sortBookmarks saved col = Returned (renderColumn sortBookmarks saved col).
Proof.
  intros Hfree. destruct col; cbn [renderColumn_run renderColumn].
  - by apply renderFolderColumn_run_free.
  - by apply renderSpecialColumn_run_free.
  - by apply renderSpecialColumn_run_free.
Qed.

Lemma render_columns_run_free saved (shown : list column) :
  prototype_free saved →
  Throw.for_each (renderColumn_run sortBookmarks saved) shown
  = Returned (renderColumn sortBookmarks saved <$> shown).
Proof.
  intros Hfree. apply for_each_Returned. intros col _. by apply renderColumn_run_free.
Qed.

Lemma render_columns_run_returns saved (shown : list column) board :
  Throw.for_each (renderColumn_run sortBookmarks saved) shown = Returned board →
  board = renderColumn sortBookmarks saved <$> shown.
Proof.
  apply for_each_returns. intros col el _. apply renderColumn_run_returns.
Qed.
End Render.

End RenderRunFacts.

(** ** Saving the board and rendering it again *)

Module BoardFacts.
Import OrderFacts RenderFacts ColumnOrderFacts RenderRunFacts.
Import SiteChecker ColumnManager KanbanRenderer Board StorageManager.

(** Picking the elements of [l] by the keys of some of its elements gives
    these elements back. *)
Lemma picked_self {A} (key : A → string) (l shown : list A) :
  NoDup (key <$> l) → shown ⊆ l →
  omap (λ i, List.find (λ x, String.eqb (key x) i) l) (key <$> shown) = shown.
Proof.
  intros Hnd Hsub. induction shown as [|a shown IH]; [done|].
  csimpl. assert (Ha : a ∈ l) by (apply Hsub; left).
  rewrite (proj2 (find_key_Some key l (key a) a Hnd)) by done.
  cbn. rewrite IH; [done|]. intros x Hx. apply Hsub. by right.
Qed.

Lemma filter_none {A} (P : A → Prop) `{!∀ x, Decision (P x)} (l : list A) :
  (∀ x, x ∈ l → ¬ P x) → filter P l = [].
Proof.
  induction l as [|a l IH]; intros Hno; [done|].
  rewrite filter_cons, decide_False by (apply Hno; left).
  apply IH. intros x Hx. apply Hno. by right.
Qed.

Section Render.
Context (sortBookmarks : list node → list node).

Abbreviation renderColumn := (Board.renderColumn sortBookmarks).
Abbreviation renderColumn_run := (Board.renderColumn_run sortBookmarks).

(** The id saved for a rendered column is the column's id. *)
Lemma saveColumnOrder_render saved (cols : list column) :
  Forall column_wf cols →
  saveColumnOrder (renderColumn saved <$> cols) = column_id <$> cols.
Proof.
  induction 1 as [|col cols Hwf _ IH]; [done|].
  cbn [fmap list_fmap]. unfold saveColumnOrder in *. cbn [omap list_omap].
  change (omap ?f ?l) with (omap f l) in IH. rewrite IH.
  destruct col as [data|data|data]; cbn [renderColumn Board.renderColumn renderFolderColumn
    renderSpecialColumn columnType folderId column_id column_wf] in *.
  - destruct Hwf as [Hne _]. apply String.eqb_neq in Hne. by rewrite Hne.
  - done.
  - destruct Hwf as [Hne _]. apply String.eqb_neq in Hne. simpl. by rewrite Hne.
Qed.

(** The ids of the columns, in any arrangement of the columns, make
    [determineColumnOrder] return that arrangement. *)
Lemma saved_ids_restore (cols shown : list column) :
  NoDup (column_id <$> cols) → Forall column_wf cols → shown ≡ₚ cols →
  determineColumnOrder cols (Some (column_id <$> shown)) = shown.
Proof.
  intros Hnd Hwf Hshown.
  destruct shown as [|col shown'] eqn:Es.
  { symmetry in Hshown. apply Permutation_nil_r in Hshown. by subst. }
  rewrite <- Es in *. rewrite determineColumnOrder_spec; [|done|by rewrite Es].
  unfold spec_columnOrder.
  rewrite picked_self; [|done|by intros x; rewrite Hshown].
  replace (filter _ cols) with (@nil column); [by rewrite app_nil_r|].
  symmetry. apply filter_none. intros c Hc Hn. apply Hn.
  apply list_elem_of_fmap. exists c. split; [done | by rewrite Hshown].
Qed.


(** *** What [collectBookmarkOrderFromDOM] holds for a column *)

Lemma collect_step_other (columns : list column_element)
    (acc : gmap string (list string)) k :
  (∀ c, c ∈ columns → element_key c ≠ k) →
  foldl collect_column acc columns !! k = acc !! k.
Proof.
  revert acc. induction columns as [|c columns IH]; intros acc Hk; [done|].
  cbn [foldl]. rewrite IH by (intros c' Hc'; apply Hk; by right).
  unfold collect_column. cbv zeta. fold (element_key c).
  destruct (String.eqb (element_key c) ""); [done|].
  case_bool_decide; [|done]. apply lookup_insert_ne. apply Hk. left.
Qed.

Lemma collect_lookup_None (columns : list column_element) k :
  (∀ c, c ∈ columns → element_key c ≠ k) →
  collectBookmarkOrderFromDOM columns !! k = None.
Proof. intros Hk. unfold collectBookmarkOrderFromDOM. by rewrite collect_step_other. Qed.

Lemma collect_lookup_acc (columns : list column_element)
    (acc : gmap string (list string)) c :
  NoDup (element_key <$> columns) → c ∈ columns → element_key c ≠ "" →
  foldl collect_column acc columns !! element_key c
  = if bool_decide (0 < length (element_ids c)) then Some (element_ids c)
    else acc !! element_key c.
Proof.
  revert acc. induction columns as [|c' columns IH]; intros acc Hnd Hin Hne.
  { by apply elem_of_nil in Hin. }
  rewrite fmap_cons in Hnd. apply NoDup_cons in Hnd as [Hfresh Hnd].
  apply elem_of_cons in Hin as [<-|Hin].
  - cbn [foldl]. rewrite collect_step_other.
    + unfold collect_column. cbv zeta. fold (element_key c). fold (element_ids c).
      apply String.eqb_neq in Hne. rewrite Hne.
      case_bool_decide; [by rewrite lookup_insert_eq | done].
    + intros c'' Hc'' Heq. apply Hfresh. rewrite <- Heq.
      apply list_elem_of_fmap. by exists c''.
  - cbn [foldl]. rewrite IH by done. case_bool_decide; [done|].
    unfold collect_column. cbv zeta. fold (element_key c').
    destruct (String.eqb (element_key c') ""); [done|].
    case_bool_decide; [|done]. apply lookup_insert_ne.
    intros Heq. apply Hfresh. rewrite Heq. apply list_elem_of_fmap. by exists c.
Qed.

Lemma collect_lookup (columns : list column_element) c :
  NoDup (element_key <$> columns) → c ∈ columns → element_key c ≠ "" →
  collectBookmarkOrderFromDOM columns !! element_key c
  = if bool_decide (0 < length (element_ids c)) then Some (element_ids c) else None.
Proof.
  intros. unfold collectBookmarkOrderFromDOM. by rewrite collect_lookup_acc.
Qed.

(** *** Rendering with the order that was read off *)

Lemma first_occurrences_fresh (seen ids : list string) :
  NoDup ids → (∀ x, x ∈ ids → x ∉ seen) → first_occurrences seen ids = ids.
Proof.
  revert seen. induction ids as [|i ids IH]; intros seen Hnd Hfresh; [done|].
  apply NoDup_cons in Hnd as [Hi Hnd]. cbn [first_occurrences].
  rewrite bool_decide_eq_false_2 by (apply Hfresh; left).
  f_equal. apply IH; [done|]. intros x Hx [->|Hs]%elem_of_cons; [done|].
  revert Hs. apply Hfresh. by right.
Qed.

Lemma submseteq_NoDup {A} (l k : list A) : l ⊆+ k → NoDup k → NoDup l.
Proof.
  intros [k' Hk]%submseteq_Permutation Hnd. rewrite Hk in Hnd.
  by apply NoDup_app in Hnd as [? _].
Qed.

(** With every live bookmark named once by the saved order, the rendering
    is the saved arrangement; ids that name no live bookmark are skipped. *)
Lemma render_full_order (bookmarks shown : list node) (extra : list string) :
  Forall (λ b, has_url b = true) bookmarks →
  shown ≡ₚ bookmarks →
  NoDup ((node_id <$> shown) ++ extra) →
  renderOrderedBookmarks bookmarks ((node_id <$> shown) ++ extra) = shown.
Proof.
  intros Hurl Hperm Hnd.
  assert (Hlive : filter (λ b, has_url b) bookmarks = bookmarks).
  { clear -Hurl. induction Hurl as [|b l Hb _ IH]; [done|].
    rewrite filter_cons, decide_True by (by rewrite Hb). by rewrite IH. }
  assert (Hndb : NoDup (node_id <$> bookmarks)).
  { rewrite <- Hperm. by apply NoDup_app in Hnd as [? _]. }
  rewrite renderOrderedBookmarks_char by (by rewrite Hlive).
  cbv zeta. rewrite Hlive.
  rewrite first_occurrences_fresh; [|done|intros x _; apply not_elem_of_nil].
  rewrite omap_app, picked_self; [|done|by intros x; rewrite Hperm].
  replace (omap _ extra) with (@nil node).
  2:{ symmetry. clear -Hnd Hperm. apply NoDup_app in Hnd as (_ & Hdis & _).
      induction extra as [|i extra IH]; [done|]. cbn [omap list_omap].
      rewrite (proj2 (find_key_None node_id bookmarks i)).
      - apply IH. intros x Hx Hx'. apply (Hdis x Hx). by right.
      - rewrite <- Hperm. intros Hi. apply (Hdis i Hi). left. }
  rewrite filter_none.
  - change (JsObject.values (entry_of <$> [])) with (@nil node).
    by rewrite !app_nil_r.
  - intros b Hb Hn. apply Hn. apply elem_of_app. left.
    apply list_elem_of_fmap. exists b. split; [done | by rewrite Hperm].
Qed.

Hypothesis sort_perm : ∀ l, sortBookmarks l ≡ₚ l.

Lemma filter_all {A} (P : A → Prop) `{!∀ x, Decision (P x)} (l : list A) :
  Forall P l → filter P l = l.
Proof.
  induction 1 as [|a l Ha _ IH]; [done|].
  by rewrite filter_cons, decide_True, IH.
Qed.

Lemma sorted_urls (bs : list node) :
  Forall (λ b, has_url b = true) (sortBookmarks (filter (λ b, has_url b) bs)).
Proof.
  rewrite sort_perm. apply Forall_forall. intros b [Hb _]%list_elem_of_filter.
  by destruct (has_url b).
Qed.

(** The direct bookmarks of a column are shown once each, whatever the
    saved order. *)
Lemma direct_Permutation (bs : list node) (o : option (list string)) :
  NoDup (node_id <$> bs) →
  match o with
  | Some savedOrder =>
      renderOrderedBookmarks (sortBookmarks (filter (λ b, has_url b) bs)) savedOrder
  | None => sortBookmarks (filter (λ b, has_url b) bs)
  end ≡ₚ sortBookmarks (filter (λ b, has_url b) bs).
Proof.
  intros Hnd. destruct o as [savedOrder|]; [|done].
  set (B := sortBookmarks _).
  assert (HB : filter (λ b, has_url b) B = B).
  { apply filter_all. eapply Forall_impl; [apply sorted_urls|].
    intros b Hb. by rewrite Hb. }
  rewrite <- HB at 2. apply renderOrderedBookmarks_Permutation.
  rewrite HB. unfold B. rewrite sort_perm.
  eapply sublist_NoDup; [exact Hnd|]. apply fmap_sublist, sublist_filter.
Qed.

Lemma renderSubfolderGroup_no_keys (folder : node) saved :
  no_subfolder_keys saved →
  renderSubfolderGroup folder saved = renderSubfolderGroup folder None.
Proof.
  intros Hno. unfold renderSubfolderGroup.
  destruct (node_children folder) as [[|c cs]|]; [done| |done].
  by rewrite Hno.
Qed.

Lemma groups_no_keys (bs : list node) saved :
  no_subfolder_keys saved →
  omap (λ bookmark, if has_children bookmark
                    then renderSubfolderGroup bookmark saved else None) bs
  = omap (λ bookmark, if has_children bookmark
                      then renderSubfolderGroup bookmark None else None) bs.
Proof.
  intros Hno. apply list_omap_ext, Forall_Forall2_diag, Forall_forall.
  intros b _. destruct (has_children b); [|done].
  by apply renderSubfolderGroup_no_keys.
Qed.

(** The bookmarks inside the subfolder groups of a column are among the
    children of its subfolders, in tree order. *)
Lemma group_items_sublist (bs : list node) :
  bookmark_items
    (omap (λ bookmark, if has_children bookmark
                       then renderSubfolderGroup bookmark None else None) bs)
  `sublist_of` flat_map (λ child, default [] (node_children child)) bs.
Proof.
  induction bs as [|b bs IH]; [done|].
  cbn [omap list_omap flat_map].
  destruct b as [i t u [[|c cs]|]]; try exact IH.
  change (bookmark_items (SubfolderGroup t (filter (λ child, has_url child) (c :: cs))
                          :: ?l))
    with (filter (λ child, has_url child) (c :: cs) ++ bookmark_items l).
  apply (sublist_app _ (c :: cs)); [apply sublist_filter | exact IH].
Qed.

Lemma bookmark_items_direct (l : list node) (groups : list list_entry) :
  bookmark_items ((BookmarkItem <$> l) ++ groups) = l ++ bookmark_items groups.
Proof.
  unfold bookmark_items. rewrite flat_map_app. f_equal.
  induction l as [|b l IH]; [done|]. csimpl. by rewrite IH.
Qed.

(** A list of direct bookmarks rendered with the ids read off the
    column, [extra] being the ids read off its subfolder groups. *)
Lemma direct_stable (bs : list node) (o : option (list string)) (extra : list string) :
  let B := sortBookmarks (filter (λ b, has_url b) bs) in
  let shown := match o with
               | Some savedOrder => renderOrderedBookmarks B savedOrder
               | None => B
               end in
  NoDup (node_id <$> bs) →
  NoDup ((node_id <$> shown) ++ extra) →
  match (if bool_decide (0 < length ((node_id <$> shown) ++ extra))
         then Some ((node_id <$> shown) ++ extra) else None) with
  | Some savedOrder => renderOrderedBookmarks B savedOrder
  | None => B
  end = shown.
Proof.
  intros B shown Hnd Hnd'.
  assert (Hperm : shown ≡ₚ B) by (by apply direct_Permutation).
  case_bool_decide as Hlen.
  - apply render_full_order; [apply sorted_urls | done | done].
  - assert (Hs : shown = []).
    { destruct shown; [done|]. cbn in Hlen. lia. }
    rewrite Hs in *. by apply Permutation_nil_l in Hperm.
Qed.

Lemma renderFolderColumn_stable (folder : node) saved (orders : gmap string (list string)) :
  NoDup (node_id <$> default [] (node_children folder)) →
  (let el := renderFolderColumn sortBookmarks folder saved in
   orders !! node_id folder
   = if bool_decide (0 < length (element_ids el)) then Some (element_ids el) else None) →
  renderFolderColumn sortBookmarks folder (Some orders)
  = renderFolderColumn sortBookmarks folder saved.
Proof.
  intros Hnd Hlook. cbv zeta in Hlook. unfold renderFolderColumn in *.
  unfold element_ids in Hlook. cbn [bookmarkList] in Hlook.
  f_equal. destruct (node_children folder) as [children|]; [|done].
  cbn [default from_option id] in Hnd. cbn [saved_for]. f_equal.
  rewrite <- (app_nil_r (BookmarkItem <$> _)), bookmark_items_direct in Hlook.
  cbn [bookmark_items flat_map] in Hlook. rewrite app_nil_r in Hlook.
  rewrite Hlook.
  pose proof (direct_stable children (saved_for saved (node_id folder)) []) as H.
  cbv zeta in H. rewrite !app_nil_r in H. apply H; [done|].
  rewrite direct_Permutation, sort_perm by done.
  eapply sublist_NoDup; [exact Hnd|]. apply fmap_sublist, sublist_filter.
Qed.

Lemma renderSpecialColumn_stable (title : string) (bs : list node)
    (folder_id : option string) (type key : string) saved
    (orders : gmap string (list string)) :
  (if String.eqb type "uncategorized" then Some "uncategorized" else folder_id)
  = Some key →
  key ≠ "" →
  NoDup (node_id <$> bs ++ flat_map (λ child, default [] (node_children child)) bs) →
  no_subfolder_keys saved → no_subfolder_keys (Some orders) →
  (let el := renderSpecialColumn sortBookmarks title bs folder_id type saved in
   orders !! key
   = if bool_decide (0 < length (element_ids el)) then Some (element_ids el) else None) →
  renderSpecialColumn sortBookmarks title bs folder_id type (Some orders)
  = renderSpecialColumn sortBookmarks title bs folder_id type saved.
Proof.
  intros Hkey Hne Hnd Hno Hno' Hlook. cbv zeta in Hlook.
  unfold renderSpecialColumn in *. cbv zeta in *. rewrite Hkey in *.
  apply String.eqb_neq in Hne. rewrite Hne in *.
  unfold element_ids in Hlook. cbn [bookmarkList] in Hlook.
  rewrite bookmark_items_direct, fmap_app in Hlook.
  rewrite (groups_no_keys bs saved Hno) in *.
  rewrite (groups_no_keys bs (Some orders) Hno').
  f_equal. f_equal. f_equal. cbn [saved_for]. rewrite Hlook.
  rewrite fmap_app in Hnd. apply NoDup_app in Hnd as (Hnd1 & Hdis & Hnd2).
  apply direct_stable; [done|].
  apply NoDup_app. split_and!.
  - rewrite direct_Permutation, sort_perm by done.
    eapply sublist_NoDup; [exact Hnd1|]. apply fmap_sublist, sublist_filter.
  - intros x Hx Hx'. apply (Hdis x).
    + rewrite direct_Permutation, sort_perm in Hx by done.
      apply list_elem_of_fmap in Hx as (b & -> & [_ Hb]%list_elem_of_filter).
      apply list_elem_of_fmap. by exists b.
    + eapply sublist_subseteq; [|exact Hx'].
      apply fmap_sublist, group_items_sublist.
  - eapply sublist_NoDup; [exact Hnd2|]. apply fmap_sublist, group_items_sublist.
Qed.

(** *** The columns of a tree of the browser *)

Lemma shown_ids_submseteq (cs : list node) :
  node_id <$> cs ++ flat_map (λ child, default [] (node_children child)) cs
  ⊆+ concat (all_ids <$> cs).
Proof.
  induction cs as [|c cs IH]; [done|].
  cbn [flat_map]. csimpl.
  destruct c as [i t u [gc|]]; cbn [node_children default from_option id node_id].
  - rewrite all_ids_children. cbn [app]. apply submseteq_skip.
    rewrite fmap_app in IH |- *. rewrite fmap_app.
    rewrite Permutation_app_swap_app.
    apply submseteq_app; [|exact IH].
    apply sublist_submseteq, ids_sublist.
  - cbn [all_ids app]. by apply submseteq_skip.
Qed.

Lemma column_shown_NoDup (col : column) :
  NoDup (column_ids col) → NoDup (node_id <$> shown_nodes col).
Proof.
  unfold shown_nodes. destruct col as [data|data|data];
    cbn [column_ids column_children]; intros Hnd.
  - destruct data as [i t u [cs|]]; cbn [node_children default from_option id].
    + rewrite all_ids_children in Hnd. apply NoDup_cons in Hnd as [_ Hnd].
      eapply submseteq_NoDup; [apply shown_ids_submseteq | done].
    + constructor.
  - eapply submseteq_NoDup; [apply shown_ids_submseteq | done].
  - destruct data as [i t u [cs|]]; cbn [node_children default from_option id].
    + rewrite all_ids_children in Hnd. apply NoDup_cons in Hnd as [_ Hnd].
      eapply submseteq_NoDup; [apply shown_ids_submseteq | done].
    + constructor.
Qed.

Lemma concat_filter_sublist (P : node → Prop) `{!∀ x, Decision (P x)} (l : list node) :
  concat (all_ids <$> filter P l) `sublist_of` concat (all_ids <$> l).
Proof.
  induction l as [|n l IH]; [done|]. rewrite filter_cons. csimpl.
  case_decide; csimpl; [by apply sublist_app | by apply sublist_inserts_l].
Qed.

Lemma child_ids_sublist (n c : node) (cs : list node) :
  node_children n = Some cs → c ∈ cs → all_ids c `sublist_of` all_ids n.
Proof.
  intros Hcs Hc. rewrite (all_ids_of_children n cs Hcs).
  apply sublist_cons, elem_sublist_concat, list_elem_of_fmap. by exists c.
Qed.

Lemma top_ids_sublist (c : node) (top : list node) :
  c ∈ top → all_ids c `sublist_of` concat (all_ids <$> top).
Proof. intros Hc. apply elem_sublist_concat, list_elem_of_fmap. by exists c. Qed.

Lemma special_ids_in_top (top : list node) (i : string) (col : column) :
  col ∈ special_columns top i →
  column_ids col `sublist_of` concat (all_ids <$> top).
Proof.
  destruct (special_columns_cases top i) as [->|(f & -> & Hf & _)].
  - by intros ?%elem_of_nil.
  - intros ->%list_elem_of_singleton. by apply top_ids_sublist.
Qed.

(** Every node below a column is a node of the tree. *)
Lemma column_ids_sublist (root : node) (cols : list column) (col : column) :
  processBookmarkTree root = Some cols → col ∈ cols →
  column_ids col `sublist_of` all_ids root.
Proof.
  intros Hp Hcol. unfold processBookmarkTree in Hp.
  destruct (node_children root) as [top|] eqn:Htop.
  2:{ injection Hp as <-. by apply elem_of_nil in Hcol. }
  rewrite (all_ids_of_children _ _ Htop). apply sublist_cons.
  destruct (List.find (λ child, String.eqb (node_id child) "1") top)
    as [bar|] eqn:Hbar.
  - apply find_id_elem in Hbar as [Hbar _].
    destruct (node_children bar) as [kids|] eqn:Hkids; [|done].
    injection Hp as <-.
    apply elem_of_app in Hcol as [Hcol|[Hcol|Hcol]%elem_of_app];
      [|by eapply special_ids_in_top..].
    assert (Hk : concat (all_ids <$> kids) `sublist_of` concat (all_ids <$> top)).
    { etrans; [|by apply (top_ids_sublist bar)].
      rewrite (all_ids_of_children _ _ Hkids). by apply sublist_cons. }
    unfold bar_columns in Hcol. apply elem_of_app in Hcol as [Hcol|Hcol].
    + apply list_elem_of_fmap in Hcol as (f & -> & [_ Hf]%list_elem_of_filter).
      cbn [column_ids]. etrans; [|exact Hk]. by apply top_ids_sublist.
    + case_bool_decide; [|by apply elem_of_nil in Hcol].
      apply list_elem_of_singleton in Hcol as ->. cbn [column_ids].
      etrans; [|exact Hk]. apply concat_filter_sublist.
  - injection Hp as <-. cbn [app] in Hcol.
    apply elem_of_app in Hcol as [Hcol|Hcol]; by eapply special_ids_in_top.
Qed.

Lemma column_id_cases (col : column) :
  column_id col = "uncategorized" ∨ column_id col ∈ column_ids col.
Proof.
  destruct col as [data|data|data]; cbn [column_id column_ids]; [right|by left|right];
    destruct (all_ids_head data) as [rest ->]; left.
Qed.

Lemma subfolder_key_not_decimal (i : string) :
  decimal_id ("subfolder-" +:+ i) = false ∧ "subfolder-" +:+ i ≠ "uncategorized".
Proof. split; [reflexivity | discriminate]. Qed.

Lemma element_key_render saved (col : column) :
  column_wf col → element_key (renderColumn saved col) = column_id col.
Proof.
  intros Hwf. unfold element_key.
  destruct col as [data|data|data]; reflexivity.
Qed.

(** *** The bookmarks of a rendered column *)

Lemma group_items_Permutation saved (bs : list node) :
  NoDup (node_id <$> flat_map (λ child, default [] (node_children child)) bs) →
  bookmark_items
    (omap (λ bookmark, if has_children bookmark
                       then renderSubfolderGroup bookmark saved else None) bs)
  ≡ₚ flat_map (λ child, filter (λ b, has_url b) (default [] (node_children child))) bs.
Proof.
  induction bs as [|b bs IH]; [done|].
  cbn [omap list_omap flat_map]. rewrite fmap_app. intros (Hb & _ & Hbs)%NoDup_app.
  specialize (IH Hbs).
  destruct b as [i t u [[|c cs]|]]; try exact IH.
  cbn [has_children node_children renderSubfolderGroup default from_option id node_id
       node_title] in *.
  set (items := match saved_for saved _ with
                | Some savedOrder => renderOrderedBookmarks (c :: cs) savedOrder
                | None => filter (λ child, has_url child) (c :: cs)
                end).
  change (bookmark_items (SubfolderGroup t items :: ?l))
    with (items ++ bookmark_items l).
  apply Permutation_app; [|exact IH].
  unfold items. destruct (saved_for saved _) as [savedOrder|]; [|done].
  apply renderOrderedBookmarks_Permutation.
  eapply sublist_NoDup; [exact Hb|]. apply fmap_sublist, sublist_filter.
Qed.

Lemma renderColumn_items saved (col : column) :
  NoDup (node_id <$> shown_nodes col) →
  bookmark_items (bookmarkList (renderColumn saved col))
  ≡ₚ expected_items col.
Proof.
  unfold shown_nodes, expected_items. rewrite fmap_app.
  intros (Hd & _ & Hg)%NoDup_app.
  destruct col as [data|data|data];
    cbn [Board.renderColumn renderFolderColumn renderSpecialColumn bookmarkList
         column_children] in *.
  - destruct (node_children data) as [cs|]; [|done].
    cbn [default from_option id] in *.
    rewrite <- (app_nil_r (BookmarkItem <$> _)), bookmark_items_direct.
    cbn [bookmark_items flat_map]. rewrite app_nil_r.
    by rewrite direct_Permutation, sort_perm.
  - rewrite bookmark_items_direct.
    apply Permutation_app; [|by apply group_items_Permutation].
    by rewrite direct_Permutation, sort_perm.
  - rewrite bookmark_items_direct.
    apply Permutation_app; [|by apply group_items_Permutation].
    by rewrite direct_Permutation, sort_perm.
Qed.

(** The bookmarks a column has to show are among the nodes it shows. *)
Lemma expected_submseteq (col : column) : expected_items col ⊆+ shown_nodes col.
Proof.
  unfold expected_items, shown_nodes.
  assert (Hg : flat_map (λ child, filter (λ b, has_url b)
                                    (default [] (node_children child)))
                 (column_children col)
               `sublist_of` flat_map (λ child, default [] (node_children child))
                              (column_children col)).
  { induction (column_children col) as [|c cs IH]; [done|]. cbn [flat_map].
    apply sublist_app; [apply sublist_filter | exact IH]. }
  destruct col; [apply submseteq_inserts_r|apply submseteq_app..];
    apply sublist_submseteq; try apply sublist_filter; exact Hg.
Qed.

Lemma shown_ids_in_column (col : column) (i : string) :
  i ∈ node_id <$> shown_nodes col → i ∈ column_ids col.
Proof.
  unfold shown_nodes. destruct col as [data|data|data];
    cbn [column_ids column_children]; intros Hi.
  - destruct data as [j t u [cs|]]; cbn [node_children default from_option id] in Hi.
    + rewrite all_ids_children. right.
      eapply elem_of_submseteq; [exact Hi | apply shown_ids_submseteq].
    + by apply elem_of_nil in Hi.
  - eapply elem_of_submseteq; [exact Hi | apply shown_ids_submseteq].
  - destruct data as [j t u [cs|]]; cbn [node_children default from_option id] in Hi.
    + rewrite all_ids_children. right.
      eapply elem_of_submseteq; [exact Hi | apply shown_ids_submseteq].
    + by apply elem_of_nil in Hi.
Qed.

(** Every order in the collected orders was read off one column. *)
Lemma collect_values (columns : list column_element)
    (acc : gmap string (list string)) k l :
  foldl collect_column acc columns !! k = Some l →
  acc !! k = Some l ∨ ∃ c, c ∈ columns ∧ l = element_ids c.
Proof.
  revert acc. induction columns as [|c columns IH]; intros acc; cbn [foldl]; [by left|].
  intros [Hacc|(c' & Hc' & ->)]%IH; [|right; exists c'; split; [by right | done]].
  unfold collect_column in Hacc. cbv zeta in Hacc.
  destruct (String.eqb _ ""); [by left|].
  case_bool_decide; [|by left].
  apply lookup_insert_Some in Hacc as [[_ <-]|[_ Hacc]]; [|by left].
  right. exists c. split; [left | done].
Qed.

Section Tree.
Context (root : node) (cols shown : list column).
Hypothesis Htree : tree_ok root.
Hypothesis Hcols : processBookmarkTree root = Some cols.
Hypothesis Hshown : shown ⊆ cols.

Lemma shown_column_ok (col : column) :
  col ∈ shown →
  column_wf col
  ∧ NoDup (node_id <$> shown_nodes col)
  ∧ (column_id col = "uncategorized" ∨ decimal_id (column_id col) = true).
Proof.
  intros Hcol%Hshown. destruct Htree as [Hnd Hdec].
  destruct (processBookmarkTree_ok root cols Htree Hcols) as [_ Hwf].
  rewrite Forall_forall in Hwf. rewrite Forall_forall in Hdec.
  pose proof (column_ids_sublist root cols col Hcols Hcol) as Hsub.
  split_and!.
  - by apply Hwf.
  - apply column_shown_NoDup. by eapply sublist_NoDup.
  - destruct (column_id_cases col) as [?|Hin]; [by left | right].
    apply Hdec. by eapply sublist_subseteq.
Qed.

(** No key of the orders read off the board names a subfolder group. *)
Lemma collect_no_subfolder_keys saved :
  no_subfolder_keys
    (Some (collectBookmarkOrderFromDOM (renderColumn saved <$> shown))).
Proof.
  intros i. cbn [saved_for]. apply collect_lookup_None.
  intros c (col & -> & Hcol)%list_elem_of_fmap.
  destruct (shown_column_ok col Hcol) as (Hwf & _ & Hid).
  rewrite element_key_render by done.
  destruct (subfolder_key_not_decimal i) as [Hd Hu].
  intros Heq. rewrite Heq in Hid. destruct Hid; congruence.
Qed.

(** The ids read off a rendered column are ids of the tree. *)
Lemma rendered_ids_decimal saved (col : column) :
  col ∈ shown →
  Forall (λ i, decimal_id i = true) (element_ids (renderColumn saved col)).
Proof.
  intros Hcol. destruct (shown_column_ok col Hcol) as (_ & Hnd & _).
  unfold element_ids. rewrite (renderColumn_items saved col Hnd).
  apply Forall_forall. intros i Hi.
  destruct Htree as [_ Hdec]. rewrite Forall_forall in Hdec. apply Hdec.
  eapply sublist_subseteq; [apply (column_ids_sublist root cols col Hcols (Hshown _ Hcol))|].
  apply shown_ids_in_column.
  eapply elem_of_submseteq; [exact Hi | apply fmap_submseteq, expected_submseteq].
Qed.

(** No order read off the board names a member of [Object.prototype]. *)
Lemma collected_prototype_free saved :
  prototype_free (Some (collectBookmarkOrderFromDOM (renderColumn saved <$> shown))).
Proof.
  intros key savedOrder Hkey. cbn [saved_for] in Hkey.
  apply collect_values in Hkey
    as [Hempty|(c & (col & -> & Hcol)%list_elem_of_fmap & ->)];
    [by rewrite lookup_empty in Hempty|].
  eapply Forall_impl; [by apply rendered_ids_decimal|].
  intros i. apply decimal_not_inherited.
Qed.
End Tree.

Lemma renderColumn_stable saved (orders : gmap string (list string)) (col : column) :
  column_wf col →
  NoDup (node_id <$> shown_nodes col) →
  no_subfolder_keys saved → no_subfolder_keys (Some orders) →
  (let el := renderColumn saved col in
   orders !! column_id col
   = if bool_decide (0 < length (element_ids el)) then Some (element_ids el) else None) →
  renderColumn (Some orders) col = renderColumn saved col.
Proof.
  intros Hwf Hnd Hno Hno' Hlook. unfold shown_nodes in Hnd.
  destruct col as [data|data|data];
    cbn [Board.renderColumn column_id column_children column_wf] in *.
  - apply renderFolderColumn_stable; [|done].
    rewrite fmap_app in Hnd. by apply NoDup_app in Hnd as [? _].
  - by apply (renderSpecialColumn_stable _ _ _ _ "uncategorized").
  - destruct Hwf as [Hne _].
    by apply (renderSpecialColumn_stable _ _ _ _ (node_id data)).
Qed.

(** Each column rendered with the orders read off the board is the
    column of the board. *)
Lemma collected_orders_column (root : node) (cols shown : list column) saved
    (col : column) :
  tree_ok root → processBookmarkTree root = Some cols →
  shown ⊆ cols → NoDup (column_id <$> shown) → no_subfolder_keys saved →
  col ∈ shown →
  renderColumn (Some (collectBookmarkOrderFromDOM (renderColumn saved <$> shown))) col
  = renderColumn saved col.
Proof.
  intros Htree Hcols Hsub Hnd Hsaved Hcol.
  pose proof (collect_no_subfolder_keys root cols shown Htree Hcols Hsub saved) as Hno.
  assert (Hkeys : element_key <$> (renderColumn saved <$> shown) = column_id <$> shown).
  { rewrite <- list_fmap_compose. apply Forall_fmap_ext_1, Forall_forall.
    intros c Hc. cbn. apply element_key_render.
    by destruct (shown_column_ok root cols shown Htree Hcols Hsub c Hc). }
  destruct (shown_column_ok root cols shown Htree Hcols Hsub col Hcol) as (Hwf & Hndc & _).
  apply renderColumn_stable; try done.
  cbv zeta. rewrite <- (element_key_render saved col Hwf).
  apply collect_lookup.
  - by rewrite Hkeys.
  - apply list_elem_of_fmap. by exists col.
  - rewrite element_key_render by done.
    destruct col as [data|data|data]; cbn [column_id column_wf] in *;
      [by destruct Hwf | done | by destruct Hwf].
Qed.

(** X18. The order of the bookmarks survives saving and rendering
    again: render the columns of a bookmark tree of the browser, in any
    arrangement, with any saved bookmark order that has no entry for a
    subfolder group and in which no id names a member of
    [Object.prototype] (on such an id [renderOrderedBookmarks] throws,
    [render_saved_run]); then the rendering runs to its end; let
    [collectBookmarkOrderFromDOM] read the ids off the column elements;
    rendering the same columns with the orders collected runs to its end
    too and gives the same column elements, item for item, for every sort
    that [sortBookmarks] may perform. *)
Theorem bookmark_order_round_trip (root : node) (cols shown : list column)
    (saved : option (gmap string (list string)))
    (Htree : tree_ok root) (Hcols : processBookmarkTree root = Some cols)
    (Hshown : shown ≡ₚ cols) (Hsaved : no_subfolder_keys saved)
    (Hfree : prototype_free saved) :
  let board := renderColumn saved <$> shown in
  Throw.for_each (renderColumn_run saved) shown = Returned board
  ∧ Throw.for_each (renderColumn_run (Some (collectBookmarkOrderFromDOM board))) shown
    = Returned board
  ∧ renderColumn (Some (collectBookmarkOrderFromDOM board)) <$> shown = board.
Proof.
  intros board. unfold board.
  destruct (processBookmarkTree_ok root cols Htree Hcols) as [Hnd _].
  assert (Hsub : shown ⊆ cols) by (intros x; by rewrite Hshown).
  assert (Heq : renderColumn (Some (collectBookmarkOrderFromDOM
                                      (renderColumn saved <$> shown))) <$> shown
                = renderColumn saved <$> shown).
  { apply Forall_fmap_ext_1, Forall_forall. intros col Hcol.
    apply (collected_orders_column root cols); try done. by rewrite Hshown. }
  split_and!; [by apply render_columns_run_free | | exact Heq].
  rewrite render_columns_run_free; [by rewrite Heq|].
  by apply (collected_prototype_free root cols shown).
Qed.

(** X19. The order inside a subfolder group is never saved: the orders
    that [collectBookmarkOrderFromDOM] reads off a rendered board have no
    key [subfolder-<id>], so with them [renderSubfolderGroup] shows the
    bookmarks of every subfolder in the order of the tree. *)
Theorem subfolder_order_never_saved (root : node) (cols shown : list column)
    (saved : option (gmap string (list string))) (folder : node)
    (Htree : tree_ok root) (Hcols : processBookmarkTree root = Some cols)
    (Hshown : shown ⊆ cols) :
  let orders := collectBookmarkOrderFromDOM (renderColumn saved <$> shown) in
  orders !! ("subfolder-" +:+ node_id folder) = None
  ∧ renderSubfolderGroup folder (Some orders)
    = match node_children folder with
      | Some (child :: children) =>
          Some (SubfolderGroup (node_title folder)
                  (filter (λ c, has_url c) (child :: children)))
      | _ => None
      end.
Proof.
  intros orders.
  pose proof (collect_no_subfolder_keys root cols shown Htree Hcols Hshown saved) as Hno.
  fold orders in Hno. split; [apply (Hno (node_id folder))|].
  rewrite (renderSubfolderGroup_no_keys folder (Some orders) Hno).
  unfold renderSubfolderGroup. by destruct (node_children folder) as [[|c cs]|].
Qed.

End Render.

Lemma sample_tree_ok : tree_ok sample_tree.
Proof. split; apply (bool_decide_unpack _); by vm_compute. Qed.


Lemma sample_orders_free : prototype_free sample_orders.
Proof.
  intros key savedOrder Hkey. unfold sample_orders, saved_for in Hkey.
  apply lookup_singleton_Some in Hkey as [_ <-]. repeat constructor.
Qed.

Lemma bookmark_order_round_trip_witness :
  let board := Board.renderColumn reverse sample_orders <$> reverse sample_tree_columns in
  Throw.for_each (Board.renderColumn_run reverse sample_orders) (reverse sample_tree_columns)
  = Returned board
  ∧ Throw.for_each
      (Board.renderColumn_run reverse (Some (collectBookmarkOrderFromDOM board)))
      (reverse sample_tree_columns)
    = Returned board
  ∧ Throw.for_each
      (Board.renderColumn_run reverse (Some {[ "5" := ["10"; "constructor"; "7"] ]}))
      (reverse sample_tree_columns)
    = Thrown title_undefined.
Proof.
  intros board.
  destruct (bookmark_order_round_trip reverse reverse_Permutation sample_tree
              sample_tree_columns (reverse sample_tree_columns) sample_orders)
    as (Hfirst & Hagain & _).
  - apply sample_tree_ok.
  - reflexivity.
  - apply reverse_Permutation.
  - intros i. unfold sample_orders, saved_for.
    apply lookup_singleton_ne. discriminate.
  - apply sample_orders_free.
  - split_and!; [exact Hfirst | exact Hagain | by vm_compute].
Defined.

Lemma subfolder_order_never_saved_witness :
  collectBookmarkOrderFromDOM
    (Board.renderColumn reverse sample_orders <$> sample_tree_columns)
  !! "subfolder-21" = None.
Proof.
  apply (subfolder_order_never_saved reverse sample_tree sample_tree_columns
           sample_tree_columns sample_orders (Node "21" "Reading" None None)).
  - apply sample_tree_ok.
  - reflexivity.
  - done.
Defined.

End BoardFacts.

(** ** Counting bookmarks: the column header and the checker *)

Module CountFacts.
Import RenderFacts TreeFacts.
Import ColumnManager Board Background.










End CountFacts.

(** ** The progress reported by [checkAllBookmarks], and the page after
    the check *)

Module ProgressFacts.
Import SiteChecker Background TreeFacts BackgroundFacts SiteCheckManager.

Section Run.
Context (parse_url : string → option string)
        (check : node → string → outcome jsval)
        (settle_order : list (node * string) → list (node * string)).

Abbreviation run bookmarks := (checkAllBookmarks parse_url check settle_order bookmarks).
Abbreviation todo_of bookmarks := (bookmarksToCheck parse_url bookmarks).

Lemma run_state (bookmarks : list node) :
  let bs := batches (length (todo_of bookmarks)) 0 (todo_of bookmarks) in
  concat bs = todo_of bookmarks
  ∧ results (run bookmarks)
    = foldl (record_result check) ∅ (concat (settle_order <$> bs))
  ∧ checked (run bookmarks) = length (todo_of bookmarks)
  ∧ log (run bookmarks) = batch_log settle_order (count_total bookmarks) 0 bs.
Proof.
  intros bs.
  assert (Hcat : concat bs = todo_of bookmarks).
  { subst bs. rewrite concat_batches by lia. apply drop_0. }
  destruct (foldl_run_batch check settle_order (count_total bookmarks) bs
              {| results := ∅; checked := 0; log := [] |}) as (Hr & Hc & Hl).
  cbn [results checked log app] in Hr, Hc, Hl.
  assert (Hst : run bookmarks
                = foldl (run_batch check settle_order (count_total bookmarks))
                    {| results := ∅; checked := 0; log := [] |} bs).
  { subst bs. unfold checkAllBookmarks. apply batch_loop_batches. }
  rewrite <- Hst in Hr, Hc, Hl. by rewrite Hc, Hcat.
Qed.

Lemma progress_in_batch_log (total done : nat) (bs : list (list (node * string)))
    (c t : nat) :
  Forall (λ batch, (0 < length batch ≤ batchSize)%nat) bs →
  ProgressSent c t ∈ batch_log settle_order total done bs →
  t = total ∧ (done < c ≤ done + length (concat bs))%nat.
Proof.
  intros Hsz. revert done. induction Hsz as [|batch bs [Hb _] _ IH]; intros done.
  { by intros ?%elem_of_nil. }
  cbn [batch_log concat]. rewrite length_app.
  intros [Hin|[Heq|Hin]%elem_of_cons]%elem_of_app.
  - unfold batch_events in Hin.
    apply elem_of_app in Hin as [Hin|Hin];
      apply list_elem_of_fmap in Hin as (? & [=] & _).
  - injection Heq as -> ->. split; [done | lia].
  - apply IH in Hin as [-> Hc]. split; [done | lia].
Qed.

Lemma todo_le_total (l : list node) :
  let todo := omap (λ bookmark,
                      if has_url bookmark
                      then (λ hostname, (bookmark, hostname))
                             <$> parse_url (default "" (node_url bookmark))
                      else None) l in
  (length todo ≤ length (filter (λ b, has_url b) l))%nat
  ∧ (length todo = length (filter (λ b, has_url b) l)
     ↔ Forall (λ b, has_url b = true →
                    is_Some (parse_url (default "" (node_url b)))) l).
Proof.
  induction l as [|b l [IH1 IH2]]; [by split|].
  cbn zeta in *. cbn [omap list_omap]. rewrite filter_cons, Forall_cons.
  destruct (has_url b) eqn:Hu.
  - rewrite decide_True by done.
    destruct (parse_url (default "" (node_url b))) as [h|]; cbn [fmap option_fmap option_map length].
    + split; [lia|]. rewrite <- IH2. split; [intros ?; split; [eauto | lia] | lia].
    + split; [lia|]. split; [lia|]. intros [Hb _]. by destruct (Hb eq_refl).
  - rewrite decide_False by (by intros ?). split; [done|].
    rewrite IH2. split; [by split | by intros [_ ?]].
Qed.

(** X21. The progress that [checkAllBookmarks] reports: every progress
    message carries the total counted by the first traversal and a count of
    checked bookmarks that is positive and at most the final count; the
    final count never exceeds the total, and it reaches the total exactly
    when the URL of every bookmark parses, so one bookmark with a URL that
    [new URL] rejects keeps the reported progress below the total. *)
Theorem progress_below_total (bookmarks : list node) :
  let st := run bookmarks in
  let total := count_total bookmarks in
  (checked st ≤ total)%nat
  ∧ (checked st = total
     ↔ Forall (λ b, has_url b = true →
                    is_Some (parse_url (default "" (node_url b))))
              (traverseBookmarks bookmarks))
  ∧ ∀ c t, ProgressSent c t ∈ log st → t = total ∧ (0 < c ≤ checked st)%nat.
Proof.
  intros st total. destruct (run_state bookmarks) as (Hcat & _ & Hc & Hl).
  fold st in Hc, Hl. cbv zeta in Hcat.
  destruct (todo_le_total (traverseBookmarks bookmarks)) as [Hle Heq].
  cbv zeta in Hle, Heq. fold (todo_of bookmarks) in Hle, Heq.
  rewrite Hc. split_and!; [exact Hle | exact Heq |].
  intros c t Hin. rewrite Hl in Hin.
  apply progress_in_batch_log in Hin as [-> Hb]; [|apply batches_sizes].
  rewrite Hcat in Hb. split; [done | lia].
Qed.


Hypothesis settle_perm : ∀ batch, settle_order batch ≡ₚ batch.

Lemma todo_nodes_sublist (l : list node) :
  (omap (λ bookmark,
           if has_url bookmark
           then (λ hostname, (bookmark, hostname))
                  <$> parse_url (default "" (node_url bookmark))
           else None) l).*1
  `sublist_of` filter (λ b, has_url b) l.
Proof.
  induction l as [|b l IH]; [done|]. cbn [omap list_omap]. rewrite filter_cons.
  destruct (has_url b) eqn:Hu.
  - rewrite decide_True by done.
    destruct (parse_url (default "" (node_url b))) as [h|]; csimpl.
    + by apply sublist_skip.
    + by apply sublist_cons.
  - by rewrite decide_False by (by intros ?).
Qed.


(** X22. What the page shows after a check of a tree whose bookmarks
    have distinct ids: a bookmark whose URL does not parse has no entry in
    the results, so [updateBookmarkStatus] removes its status attribute and
    it looks reachable; a bookmark whose URL parses has the outcome of its
    own check, and is marked ["dead"] exactly when [checkSite] returned
    [false] for its hostname or threw. *)
Theorem page_after_check (bookmarks : list node) (b : node)
    (Hids : NoDup (node_id <$> filter (λ b, has_url b) (traverseBookmarks bookmarks)))
    (Hb : b ∈ traverseBookmarks bookmarks) (Hurl : has_url b = true) :
  let siteStatus := results (run bookmarks) in
  match parse_url (default "" (node_url b)) with
  | None =>
      siteStatus !! node_id b = None
      ∧ site_status_mark (siteStatus !! node_id b) = None
  | Some hostname =>
      siteStatus !! node_id b = Some (recorded check (b, hostname))
      ∧ (site_status_mark (siteStatus !! node_id b) = Some "dead"
         ↔ check b hostname = Returned (JBool false)
           ∨ ∃ e, check b hostname = Thrown e)
  end.
Proof.
  intros siteStatus. destruct (run_state bookmarks) as (Hcat & Hr & _ & _).
  fold siteStatus in Hr. cbv zeta in Hcat.
  assert (Hperm : concat (settle_order <$>
                            batches (length (todo_of bookmarks)) 0 (todo_of bookmarks))
                  ≡ₚ todo_of bookmarks).
  { by rewrite (concat_settle_order settle_order settle_perm), Hcat. }
  assert (Hnd : NoDup (node_id ∘ fst <$> todo_of bookmarks)).
  { rewrite list_fmap_compose. eapply sublist_NoDup; [exact Hids|].
    apply fmap_sublist, todo_nodes_sublist. }
  destruct (parse_url (default "" (node_url b))) as [hostname|] eqn:Hp.
  - assert (Hin : (b, hostname) ∈ todo_of bookmarks).
    { by apply elem_of_bookmarksToCheck. }
    assert (Hv : siteStatus !! node_id b = Some (recorded check (b, hostname))).
    { rewrite Hr. apply (results_value check _ ∅ (b, hostname)); by rewrite Hperm. }
    split; [done|]. rewrite Hv. unfold recorded, site_status_mark. cbn [fst snd].
    destruct (check b hostname) as [[[|]|s| |]|e]; split; try done.
    + intros [[=]|[e [=]]].
    + intros _. by left.
    + repeat case_match; done.
    + intros [[=]|[e [=]]].
    + intros [[=]|[e [=]]].
    + intros [[=]|[e [=]]].
    + intros _. right. by exists e.
  - assert (Hv : siteStatus !! node_id b = None).
    { rewrite Hr, (results_untouched check); [done|]. rewrite Hperm.
      intros ([b' h] & Heq & Hin)%list_elem_of_fmap. cbn in Heq.
      apply elem_of_bookmarksToCheck in Hin as (Hin & Hu & Hp').
      assert (b = b'); [|congruence].
      eapply (NoDup_fmap_eq node_id); [exact Hids| | |done];
        apply list_elem_of_filter; split; by try rewrite ?Hurl, ?Hu. }
    by rewrite Hv.
Qed.

End Run.

Lemma page_after_check_witness :
  let siteStatus := results (checkAllBookmarks sample_parse sample_check (λ l, l)
                               sample_bookmarks) in
  site_status_mark (siteStatus !! "12") = Some "dead"
  ∧ site_status_mark (siteStatus !! "30") = None.
Proof.
  intros siteStatus. split.
  - pose proof (page_after_check sample_parse sample_check (λ l, l)
                  (λ l, reflexivity l) sample_bookmarks
                  (Node "12" "site" (Some "https://2.example/") None)) as H.
    destruct H as [_ H].
    + apply (bool_decide_unpack _). by vm_compute.
    + apply list_elem_of_In. vm_compute. tauto.
    + reflexivity.
    + apply H. right. by eexists.
  - pose proof (page_after_check sample_parse sample_check (λ l, l)
                  (λ l, reflexivity l) sample_bookmarks
                  (Node "30" "broken" (Some "nope") None)) as H.
    destruct H as [_ H].
    + apply (bool_decide_unpack _). by vm_compute.
    + apply list_elem_of_In. vm_compute. tauto.
    + reflexivity.
    + exact H.
Defined.

Lemma filter_length_le {A} (P Q : A → Prop) `{!∀ x, Decision (P x)}
    `{!∀ x, Decision (Q x)} (l : list A) :
  (∀ x, x ∈ l → P x → Q x) → (length (filter P l) ≤ length (filter Q l))%nat.
Proof.
  induction l as [|a l IH]; intros HPQ; [done|].
  assert (IH' : (length (filter P l) ≤ length (filter Q l))%nat).
  { apply IH. intros x Hx. apply HPQ. by right. }
  rewrite !filter_cons. destruct (decide (P a)) as [HP|HP].
  - rewrite decide_True by (apply HPQ; [left | done]). cbn [length]. lia.
  - case_decide; cbn [length]; lia.
Qed.

(** X23. The number of dead links announced by [handleCheckCompleted]
    against the bookmarks marked ["dead"] by [updateBookmarkStatus]: every
    status that marks a bookmark dead is counted, and the two numbers are
    equal when each status is one of the four result classes; a status
    [null] is counted as a dead link although no bookmark is marked. *)
Theorem dead_links_counted (siteStatus : gmap string jsval) :
  (marked_dead siteStatus ≤ deadLinks siteStatus)%nat
  ∧ (map_Forall (λ _ status, status ∈ result_classes) siteStatus →
     deadLinks siteStatus = marked_dead siteStatus)
  ∧ (∀ i, siteStatus !! i = Some JNull →
       site_status_mark (siteStatus !! i) = None ∧ (0 < deadLinks siteStatus)%nat).
Proof.
  unfold marked_dead, deadLinks. split_and!.
  - apply filter_length_le. intros s _ Hs. unfold site_status_mark in Hs.
    destruct s as [[|]|s| |]; try done. by repeat case_match.
  - intros Hall. apply Nat.le_antisymm.
    + apply filter_length_le. intros s Hs Hf.
      apply list_elem_of_fmap in Hs as ([k v] & -> & Hkv%elem_of_map_to_list).
      specialize (Hall k v Hkv). cbn in *. unfold result_classes in Hall.
      repeat (apply elem_of_cons in Hall as [->|Hall]); try done.
      by apply elem_of_nil in Hall.
    + apply filter_length_le. intros s _ Hs. unfold site_status_mark in Hs.
      destruct s as [[|]|s| |]; try done. by repeat case_match.
  - intros i Hi. split; [by rewrite Hi|].
    destruct (filter _ _) as [|s l] eqn:Hz; [|cbn [length]; lia]. exfalso.
    assert (Hin : JNull ∈ (map_to_list siteStatus).*2).
    { apply list_elem_of_fmap. exists (i, JNull). split; [done|].
      by apply elem_of_map_to_list. }
    apply (filter_nil_not_elem_of _ _ JNull) in Hz; done.
Qed.

Lemma dead_links_counted_witness :
  deadLinks {[ "7" := JBool false; "9" := JStr "no-https" ]} = 1%nat.
Proof.
  destruct (dead_links_counted {[ "7" := JBool false; "9" := JStr "no-https" ]})
    as (_ & H & _).
  rewrite H; [by vm_compute|].
  intros k v Hkv. apply (bool_decide_unpack _). 
  apply lookup_insert_Some in Hkv as [[_ <-]|[_ Hkv]]; [by vm_compute|].
  apply lookup_singleton_Some in Hkv as [_ <-]. by vm_compute.
Defined.

End ProgressFacts.

(** ** The colour of a tag *)

Module TagColorFacts.
Import Utils.
Local Open Scope Z_scope.

Lemma to_int32_bounds (x : Z) : - 2 ^ 31 <= to_int32 x < 2 ^ 31.
Proof.
  unfold to_int32. pose proof (Z.mod_pos_bound (x + 2 ^ 31) (2 ^ 32)). lia.
Qed.

Lemma hash_loop_bound (tag : string) (hash : Z) :
  Z.abs (hash_loop tag hash)
  <= Z.abs hash + Z.of_nat (String.length tag) * (2 ^ 31 + 255).
Proof.
  revert hash. induction tag as [|c tag IH]; intros hash.
  - cbn [hash_loop String.length]. lia.
  - cbn [hash_loop String.length]. etrans; [apply IH|].
    pose proof (to_int32_bounds (to_int32 hash * 2 ^ 5)) as Hs. fold (shl5 hash) in Hs.
    assert (0 <= Z.of_N (N_of_ascii c) <= 255).
    { pose proof (N_ascii_bounded c). lia. }
    lia.
Qed.

(** X24. [getTagColor], for every tag of at most 4096 characters: the
    hash stays in the range where the doubles of the source are exact, the
    hue lies strictly between -360 and 360, the saturation between 40 and
    80 and the lightness between 35 and 55; a negative hash gives a
    negative hue and a saturation and lightness below 60 and 45. *)
Theorem getTagColor_ranges (tag : string)
    (Hlen : (String.length tag <= 4096)%nat) :
  let hash := hash_loop tag 0 in
  Z.abs (hash * 275) < 2 ^ 53
  ∧ (let '(hue2, saturation, lightness) := getTagColor tag in
     -720 < hue2 < 720
     ∧ 40 <= saturation <= 80
     ∧ 35 <= lightness <= 55
     ∧ (hash < 0 → hue2 <= 0 ∧ saturation <= 60 ∧ lightness <= 45)
     ∧ (0 <= hash → 0 <= hue2 ∧ 60 <= saturation ∧ 45 <= lightness)).
Proof.
  intros hash. split.
  - pose proof (hash_loop_bound tag 0) as Hb. fold hash in Hb. lia.
  - unfold getTagColor. fold hash. cbv zeta.
    pose proof (Z.rem_bound_abs (hash * 275) 720 ltac:(lia)).
    pose proof (Z.rem_bound_abs hash 21 ltac:(lia)).
    pose proof (Z.rem_bound_abs hash 11 ltac:(lia)).
    split_and!; try lia.
    + intros Hneg.
      pose proof (Z.rem_nonpos (hash * 275) 720 ltac:(lia) ltac:(lia)).
      pose proof (Z.rem_nonpos hash 21 ltac:(lia) ltac:(lia)).
      pose proof (Z.rem_nonpos hash 11 ltac:(lia) ltac:(lia)). lia.
    + intros Hpos.
      pose proof (Z.rem_nonneg (hash * 275) 720 ltac:(lia) ltac:(lia)).
      pose proof (Z.rem_nonneg hash 21 ltac:(lia) ltac:(lia)).
      pose proof (Z.rem_nonneg hash 11 ltac:(lia) ltac:(lia)). lia.
Qed.

Lemma getTagColor_ranges_witness :
  let '(hue2, saturation, lightness) := getTagColor "#javascript" in
  hue2 <= 0 ∧ 40 <= saturation <= 60 ∧ 35 <= lightness <= 45.
Proof.
  pose proof (getTagColor_ranges "#javascript") as H.
  cbv zeta in H. destruct H as [_ H]; [vm_compute; lia|].
  destruct (getTagColor "#javascript") as [[hue2 saturation] lightness].
  destruct H as (_ & Hs & Hl & Hneg & _).
  destruct Hneg as (Hh & Hs' & Hl'); [by vm_compute|]. lia.
Defined.

End TagColorFacts.

(** ** Every bookmark of a column is shown once *)

Module ShownOnceFacts.
Import RenderFacts ColumnOrderFacts RenderRunFacts BoardFacts.
Import SiteChecker ColumnManager KanbanRenderer Board StorageManager.

Section Render.
Context (sortBookmarks : list node → list node).
Hypothesis sort_perm : ∀ l, sortBookmarks l ≡ₚ l.

(** X25. No saved order hides or doubles a bookmark: take a column
    made from a bookmark tree of the browser and any saved bookmark order
    (ids of deleted bookmarks, repeated ids, orders of other columns or of
    subfolder groups included). When no saved id names a member of
    [Object.prototype], [renderColumn] runs to its end; and whenever it
    runs to its end (on such an id it throws, and the column is not put
    on the board), the bookmark items of the column are, up to their
    order, exactly the bookmarks with a URL among the column's children
    and, in a special column, among the children of its subfolders, each
    once. *)
Theorem rendered_column_shows_each_once (root : node) (cols : list column)
    (col : column) (saved : option (gmap string (list string)))
    (Htree : tree_ok root) (Hcols : processBookmarkTree root = Some cols)
    (Hcol : col ∈ cols) :
  (prototype_free saved →
   Board.renderColumn_run sortBookmarks saved col
   = Returned (Board.renderColumn sortBookmarks saved col))
  ∧ ∀ el, Board.renderColumn_run sortBookmarks saved col = Returned el →
      bookmark_items (bookmarkList el) ≡ₚ expected_items col
      ∧ NoDup (node_id <$> bookmark_items (bookmarkList el)).
Proof.
  split; [apply renderColumn_run_free|].
  intros el ->%renderColumn_run_returns.
  destruct (shown_column_ok root cols cols Htree Hcols (λ x H, H) col Hcol)
    as (_ & Hnd & _).
  pose proof (renderColumn_items sortBookmarks sort_perm saved col Hnd) as Hperm.
  split; [done|]. rewrite Hperm.
  eapply submseteq_NoDup; [|exact Hnd].
  apply fmap_submseteq, expected_submseteq.
Qed.

End Render.

Lemma rendered_column_shows_each_once_witness :
  let col :=
    SpecialColumn
      (Node "2" "Other bookmarks" None
         (Some [ Node "20" "Wiki" (Some "https://wiki.example/") None;
                 Node "21" "Reading" None
                   (Some [ Node "23" "Paper" (Some "https://paper.example/") None;
                           Node "22" "Blog" (Some "https://blog.example/") None ])
               ])) in
  (∃ el, Board.renderColumn_run reverse (Some {[ "2" := ["99"; "20"; "20"] ]}) col
         = Returned el
         ∧ node_id <$> bookmark_items (bookmarkList el) ≡ₚ ["20"; "23"; "22"])
  ∧ Board.renderColumn_run reverse (Some {[ "2" := ["20"; "valueOf"] ]}) col
    = Thrown title_undefined.
Proof.
  intros col.
  destruct (rendered_column_shows_each_once reverse reverse_Permutation sample_tree
              sample_tree_columns col (Some {[ "2" := ["99"; "20"; "20"] ]}))
    as [Hrun Hitems].
  - apply sample_tree_ok.
  - reflexivity.
  - apply list_elem_of_In. vm_compute. tauto.
  - assert (Hfree : prototype_free (Some {[ "2" := ["99"; "20"; "20"] ]})).
    { intros key savedOrder Hkey. unfold saved_for in Hkey.
      apply lookup_singleton_Some in Hkey as [_ <-]. repeat constructor. }
    split; [|by vm_compute].
    eexists. split; [exact (Hrun Hfree)|].
    eapply Permutation_trans.
    + apply fmap_Permutation, (Hitems _ (Hrun Hfree)).
    + reflexivity.
Defined.

End ShownOnceFacts.

(** ** Reloading the page *)

Module ReloadFacts.
Import OrderFacts ColumnOrderFacts RenderRunFacts BoardFacts.
Import SiteChecker ColumnManager KanbanRenderer Board StorageManager.

(** X26. Saving the board and loading the page again shows the same
    board: let [processBookmarkTree] render the columns of a bookmark tree
    of the browser with a saved column order that names no id twice and a
    saved bookmark order without an entry for a subfolder group and
    without an id that names a member of [Object.prototype] (on such an id
    the rendering throws); the rendering then runs to its end; let
    [saveColumnOrder] and [collectBookmarkOrderFromDOM] read both orders
    off the rendered board; rendering the same tree with the two orders
    read runs to its end too and gives the same column elements in the
    same order, for every sort that [sortBookmarks] may perform. *)
Theorem board_survives_reload (sortBookmarks : list node → list node)
    (root : node) (cols : list column) (savedColumnOrder : option (list string))
    (savedBookmarkOrder : option (gmap string (list string)))
    (Hsort : ∀ l, sortBookmarks l ≡ₚ l)
    (Htree : tree_ok root) (Hcols : processBookmarkTree root = Some cols)
    (Hsaved : NoDup (default [] savedColumnOrder))
    (Hno : no_subfolder_keys savedBookmarkOrder)
    (Hfree : prototype_free savedBookmarkOrder) :
  let board := render_board sortBookmarks cols savedColumnOrder savedBookmarkOrder in
  render_board_run sortBookmarks cols savedColumnOrder savedBookmarkOrder = Returned board
  ∧ render_board_run sortBookmarks cols
      (Some (saveColumnOrder board)) (Some (collectBookmarkOrderFromDOM board))
    = Returned board
  ∧ render_board sortBookmarks cols
      (Some (saveColumnOrder board)) (Some (collectBookmarkOrderFromDOM board))
    = board.
Proof.
  intros board. unfold board, render_board_run, render_board.
  destruct (processBookmarkTree_ok root cols Htree Hcols) as [Hnd Hwf].
  set (shown := determineColumnOrder cols savedColumnOrder).
  assert (Hshown : shown ≡ₚ cols).
  { unfold shown. destruct savedColumnOrder as [[|i saved]|]; [done| |done].
    rewrite determineColumnOrder_spec by done. unfold spec_columnOrder.
    rewrite (picked_Permutation column_id) by done. apply filter_app_complement. }
  assert (Hsub : shown ⊆ cols) by (intros x; by rewrite Hshown).
  rewrite saveColumnOrder_render by (by rewrite Hshown).
  rewrite saved_ids_restore by done.
  assert (Heq : Board.renderColumn sortBookmarks
                  (Some (collectBookmarkOrderFromDOM
                           (Board.renderColumn sortBookmarks savedBookmarkOrder <$> shown)))
                <$> shown
                = Board.renderColumn sortBookmarks savedBookmarkOrder <$> shown).
  { apply Forall_fmap_ext_1, Forall_forall. intros col Hcol.
    apply (collected_orders_column sortBookmarks Hsort root cols); try done.
    by rewrite Hshown. }
  split_and!; [by apply render_columns_run_free | | exact Heq].
  rewrite render_columns_run_free; [by rewrite Heq|].
  by apply (collected_prototype_free sortBookmarks Hsort root cols shown).
Qed.

Lemma board_survives_reload_witness :
  let board := render_board reverse sample_tree_columns (Some ["2"; "9"; "5"])
                 sample_orders in
  render_board_run reverse sample_tree_columns (Some ["2"; "9"; "5"]) sample_orders
  = Returned board
  ∧ render_board_run reverse sample_tree_columns
      (Some (saveColumnOrder board)) (Some (collectBookmarkOrderFromDOM board))
    = Returned board
  ∧ render_board_run reverse sample_tree_columns (Some ["2"; "9"; "5"])
      (Some {[ "5" := ["10"; "7"]; "2" := ["__proto__"] ]})
    = Thrown title_undefined.
Proof.
  intros board.
  destruct (board_survives_reload reverse sample_tree sample_tree_columns
              (Some ["2"; "9"; "5"]) sample_orders)
    as (Hfirst & Hagain & _).
  - apply reverse_Permutation.
  - apply sample_tree_ok.
  - reflexivity.
  - apply (bool_decide_unpack _). by vm_compute.
  - intros i. unfold sample_orders, saved_for.
    apply lookup_singleton_ne. discriminate.
  - apply sample_orders_free.
  - split_and!; [exact Hfirst | exact Hagain | by vm_compute].
Defined.

End ReloadFacts.
